(** * Vortex-field scenario engine ([env.py]): model and properties

    The development embeds [Env] of [env.py]: constrained random
    placement of vortex cores and obstacles ([reset], [check_core],
    [check_obstacle]), the superposed velocity field ([get_velocity],
    [compute_speed]) and the world-to-body transform of
    [get_observation].

    Numbers.  The program computes with doubles.  Here a finite double
    is a real number; rounding is not modelled.  What is kept of the
    machine arithmetic is the outcome of a division by zero, because the
    program reaches it.  Where an operand is a numpy value (a distance,
    a column of a matrix), [x / 0] is an infinity (sign of [x]) or NaN,
    no exception is raised, and comparisons with NaN are false: the type
    [float64] below, with its operations in [NP].  Where both operands
    are plain Python floats (a strength over a parameter), [x / 0]
    raises [ZeroDivisionError]: [Py.div]. *)

From Stdlib Require Import Reals Lra Lia List ZArith Bool Permutation.
Import ListNotations.
Open Scope R_scope.

(** ** Idealised numpy arithmetic *)

Inductive float64 : Type :=
| Fin (x : R)
| PInf
| NInf
| NaN.

Module NP.

Definition Rltb (a b : R) : bool := if Rlt_dec a b then true else false.
Definition Rleb (a b : R) : bool := if Rle_dec a b then true else false.
Definition Req0b (a : R) : bool := if Req_dec_T a 0 then true else false.

(** [x / y] for finite operands.  Every zero divisor of the program is a
    [+0.0] (a difference [a - a], a norm, or [2*pi] times one of them),
    so the sign of the quotient is the sign of [x]. *)
Definition div (x y : R) : float64 :=
  if Req0b y then
    (if Rltb 0 x then PInf else if Rltb x 0 then NInf else NaN)
  else Fin (x / y).

(** An infinity scaled by a finite factor. *)
Definition scale_inf (pos : bool) (b : R) : float64 :=
  if Rltb 0 b then (if pos then PInf else NInf)
  else if Rltb b 0 then (if pos then NInf else PInf)
  else NaN.

Definition mul (a b : float64) : float64 :=
  match a, b with
  | NaN, _ | _, NaN => NaN
  | Fin x, Fin y => Fin (x * y)
  | PInf, Fin y | Fin y, PInf => scale_inf true y
  | NInf, Fin y | Fin y, NInf => scale_inf false y
  | PInf, PInf | NInf, NInf => PInf
  | PInf, NInf | NInf, PInf => NInf
  end.

Definition add (a b : float64) : float64 :=
  match a, b with
  | NaN, _ | _, NaN => NaN
  | Fin x, Fin y => Fin (x + y)
  | PInf, NInf | NInf, PInf => NaN
  | PInf, _ | _, PInf => PInf
  | NInf, _ | _, NInf => NInf
  end.

(** [a < b]; false as soon as one side is NaN. *)
Definition lt (a b : float64) : bool :=
  match a, b with
  | NaN, _ | _, NaN => false
  | Fin x, Fin y => Rltb x y
  | NInf, NInf | PInf, _ | _, NInf => false
  | NInf, _ | _, PInf => true
  end.

Definition gt (a b : float64) : bool := lt b a.


End NP.

(** ** Python float arithmetic *)

Module Py.

(** [x / y] for two Python floats; [None] is [ZeroDivisionError]. *)
Definition div (x y : R) : option R :=
  if NP.Req0b y then None else Some (x / y).

End Py.

(** ** Data model *)

Record Core : Type := mkCore {
  core_x : R;          (* x coordinate of the vortex core *)
  core_y : R;          (* y coordinate of the vortex core *)
  clockwise : bool;    (* if the vortex direction is clockwise *)
  Gamma : R            (* circulation strength of the vortex core *)
}.

Record Obstacle : Type := mkObstacle {
  obs_x : R;           (* x coordinate of the obstacle center *)
  obs_y : R;           (* y coordinate of the obstacle center *)
  obs_r : R            (* radius of the obstacle *)
}.

(** A 2x1 column of doubles, and one of finite values. *)
Definition vec64 : Type := (float64 * float64)%type.
Definition vec : Type := (R * R)%type.

(** A 2x2 matrix of finite values, row by row. *)
Definition mat : Type := ((R * R) * (R * R))%type.

(** ** Collaborators that are not part of [env.py] *)

(** [np.random.RandomState]: the stream of raw draws.  [random_sample]
    is the next double of the stream, [binomial] is [binomial(1, 0.5)]
    read as a truth value, [RandomState_init] the seeding. *)
Class RandomState (S : Type) : Type := {
  random_sample : S -> R * S;
  binomial : S -> bool * S;
  RandomState_init : Z -> S
}.

(** The range of the raw doubles: [0 <= u < 1]. *)
Definition RandomState_ok {S : Type} `{RandomState S} : Prop :=
  forall s : S, 0 <= fst (random_sample s) < 1.

(** What [KDTree.query] hands back for the indices: an array of [k]
    indices, a bare index when [k = 1] (scipy squeezes the result for a
    scalar [k = 1] and a single query point), or an exception. *)
Inductive query_result : Type :=
| Indices (idx : list nat)
| Index (i : nat)
| QueryError.

(** [scipy.spatial.KDTree]: [query pts q k] ranks the [k] points of
    [pts] nearest to [q]. *)
Class KDTree : Type := {
  query : list vec -> vec -> nat -> query_result
}.

(** Asked for all the points of the tree: over a single point the
    answer is the bare index [0]; over two points or more it is an
    array that ranks every point once.  Nothing is said of [k = 0]. *)
Definition KDTree_ok `{KDTree} : Prop :=
  (forall (pt q : vec), query [pt] q 1 = Index 0) /\
  (forall (pts : list vec) (q : vec),
     (2 <= length pts)%nat ->
     exists idx : list nat,
       query pts q (length pts) = Indices idx /\
       Permutation idx (seq 0 (length pts))).

(** Modelled from the spec: [robot.py] is not in the sources.  Of the
    robot only the pose and the velocity that [get_observation] reads
    back are kept, and of [set_state] only the new position. *)
Record Robot : Type := mkRobot {
  robot_x : R;
  robot_y : R;
  robot_theta : R;
  robot_velocity : vec
}.

Definition set_state (rb : Robot) (x y : R) (current_velocity : vec64) : Robot :=
  mkRobot x y (robot_theta rb) (robot_velocity rb).

(** Modelled from the spec: [Robot.get_robot_transform] is not in the
    sources.  The body-to-world transform of a robot with heading
    [theta] at [(x, y)]: the rotation by [theta] (the matrix [rot] of
    [init_visualize]) and the translation to the robot's position. *)
Definition get_robot_transform (rb : Robot) : mat * vec :=
  let theta := robot_theta rb in
  (((cos theta, - sin theta), (sin theta, cos theta)),
   (robot_x rb, robot_y rb)).

(** ** The environment *)

Record Env (S : Type) : Type := mkEnv {
  rd : S;                       (* PRNG *)
  width : R;                    (* x coordinate dimension of the map *)
  height : R;                   (* y coordinate dimension of the map *)
  r : R;                        (* radius of vortex core *)
  v_rel_max : R;                (* max allowable speed when two currents flow towards each other *)
  p : R;                        (* max allowable relative speed at another vortex core *)
  v_range : R * R;              (* speed range of the vortex (at the edge of core) *)
  obs_r_range : R * R;          (* radius range of the obstacle *)
  cores : list Core;            (* vortex cores *)
  obstacles : list Obstacle;    (* cylinder obstacles *)
  initial : vec;                (* robot initial position *)
  goal : vec;                   (* goal position *)
  core_centers : list vec;      (* the points held by the KDTree *)
  robot : Robot
}.

Arguments mkEnv {S}.
Arguments rd {S}.
Arguments width {S}.
Arguments height {S}.
Arguments r {S}.
Arguments v_rel_max {S}.
Arguments p {S}.
Arguments v_range {S}.
Arguments obs_r_range {S}.
Arguments cores {S}.
Arguments obstacles {S}.
Arguments initial {S}.
Arguments goal {S}.
Arguments core_centers {S}.
Arguments robot {S}.

(** Outcome of a call that loops: [Running] is a loop that has not left
    within the iterations granted, [Raised] a Python exception
    ([ZeroDivisionError], [IndexError]). *)
Inductive outcome (A : Type) : Type :=
| Returned (a : A)
| Raised
| Running.

Arguments Returned {A}.
Arguments Raised {A}.
Arguments Running {A}.

Section Environment.

Context {S : Type}.

(** *** [check_core] *)

Definition distance (x1 y1 x2 y2 : R) : R :=
  let dx := x1 - x2 in
  let dy := y1 - y2 in
  sqrt (dx * dx + dy * dy).

(** One iteration of the loop of [check_core]: [Some true] when
    [core_i] does not make the loop return [False], [None] when a
    division raises.  The strengths and the parameters are Python
    floats, the distance is a numpy double. *)
Definition check_core_pair (e : Env S) (core_i core_j : Core) : option bool :=
  let dis := distance (core_x core_i) (core_y core_i) (core_x core_j) (core_y core_j) in
  if Bool.eqb (clockwise core_i) (clockwise core_j) then
    match Py.div (Gamma core_i) (2 * PI * v_rel_max e) with
    | None => None
    | Some boundary_i =>
        match Py.div (Gamma core_j) (2 * PI * v_rel_max e) with
        | None => None
        | Some boundary_j =>
            if NP.Rltb dis (boundary_i + boundary_j) then Some false
            else Some true
        end
    end
  else
    let Gamma_l := Rmax (Gamma core_i) (Gamma core_j) in
    let Gamma_s := Rmin (Gamma core_i) (Gamma core_j) in
    let v_1 := NP.div Gamma_l (2 * PI * (dis - 2 * r e)) in
    match Py.div Gamma_s (2 * PI * r e) with
    | None => None
    | Some v_2 =>
        if NP.gt v_1 (Fin (p e * v_2)) then Some false else Some true
    end.

Fixpoint check_core_loop (e : Env S) (cs : list Core) (core_j : Core) : option bool :=
  match cs with
  | [] => Some true
  | core_i :: rest =>
      match check_core_pair e core_i core_j with
      | None => None
      | Some true => check_core_loop e rest core_j
      | Some false => Some false
      end
  end.

Definition check_core (e : Env S) (core_j : Core) : option bool :=
  check_core_loop e (cores e) core_j.

(** *** [check_obstacle] *)

Fixpoint check_obstacle_cores (e : Env S) (cs : list Core) (obs : Obstacle) : bool :=
  match cs with
  | [] => true
  | core :: rest =>
      let dis := distance (core_x core) (core_y core) (obs_x obs) (obs_y obs) in
      if NP.Rleb dis (r e + obs_r obs) then false
      else check_obstacle_cores e rest obs
  end.

Fixpoint check_obstacle_obstacles (os : list Obstacle) (obs : Obstacle) : bool :=
  match os with
  | [] => true
  | obstacle :: rest =>
      let dis := distance (obs_x obstacle) (obs_y obstacle) (obs_x obs) (obs_y obs) in
      if NP.Rleb dis (obs_r obstacle + obs_r obs) then false
      else check_obstacle_obstacles rest obs
  end.

Definition check_obstacle (e : Env S) (obs : Obstacle) : bool :=
  if check_obstacle_cores e (cores e) obs
  then check_obstacle_obstacles (obstacles e) obs
  else false.

(** *** [compute_speed] *)

(** [Gamma] and [self.r] are Python floats, [d] is the numpy norm: the
    first division raises on a zero divisor, the second does not. *)
Definition compute_speed (e : Env S) (Gamma : R) (d : R) : option float64 :=
  if NP.Rleb d (r e) then
    match Py.div Gamma (2 * PI * r e * r e) with
    | None => None
    | Some q => Some (Fin (q * d))
    end
  else
    Some (NP.div Gamma (2 * PI * d)).

End Environment.

(** ** Small linear algebra on 2x1 columns and 2x2 matrices *)

Definition vadd (a b : vec) : vec := (fst a + fst b, snd a + snd b).

Definition mat_vec (m : mat) (v : vec) : vec :=
  (fst (fst m) * fst v + snd (fst m) * snd v,
   fst (snd m) * fst v + snd (snd m) * snd v).

Definition transpose (m : mat) : mat :=
  ((fst (fst m), fst (snd m)), (snd (fst m), snd (snd m))).

Definition mat_neg (m : mat) : mat :=
  ((- fst (fst m), - snd (fst m)), (- fst (snd m), - snd (snd m))).

Definition vadd64 (a b : vec64) : vec64 :=
  (NP.add (fst a) (fst b), NP.add (snd a) (snd b)).

Definition vscale64 (a : vec64) (k : float64) : vec64 :=
  (NP.mul (fst a) k, NP.mul (snd a) k).

Definition mat_vec64 (m : mat) (v : vec64) : vec64 :=
  (NP.add (NP.mul (Fin (fst (fst m))) (fst v)) (NP.mul (Fin (snd (fst m))) (snd v)),
   NP.add (NP.mul (Fin (fst (snd m))) (fst v)) (NP.mul (Fin (snd (snd m))) (snd v))).

Definition norm (v : vec) : R := sqrt (fst v * fst v + snd v * snd v).

(** ** [get_velocity] *)

(** How the body of a [for] loop ends: by reaching its last statement
    or by [continue]. *)
Inductive signal : Type := Normal | Continue.

(** Body of the inner loop [for v in v_radial_set]: the 1x1 product
    [transpose(v) * v_radial], and [continue] when it is positive. *)
Definition occlusion_body (v_radial : vec) (v : vec64) : signal :=
  let project :=
    NP.add (NP.mul (fst v) (Fin (fst v_radial)))
           (NP.mul (snd v) (Fin (snd v_radial))) in
  if NP.gt project (Fin 0) then Continue else Normal.

(** The inner loop.  Either way its body ends, the loop goes on with the
    next [v]; nothing is handed to the enclosing loop. *)
Fixpoint occlusion_loop (v_radial : vec) (v_radial_set : list vec64) : unit :=
  match v_radial_set with
  | [] => tt
  | v :: rest =>
      match occlusion_body v_radial v with
      | Continue => occlusion_loop v_radial rest
      | Normal => occlusion_loop v_radial rest
      end
  end.

Definition rotation_of (cw : bool) : mat :=
  if cw then ((0, -1), (1, 0)) else ((0, 1), (-1, 0)).

Section FlowField.

Context {S : Type} `{KD : KDTree}.

(** Body of the loop over the ranked cores.  [v_radial /= dis] divides
    in place, so the column appended to [v_radial_set] one line earlier
    is the normalised one. *)
Definition velocity_step (e : Env S) (x y : R) (core : Core)
    (st : list vec64 * vec64) : option (list vec64 * vec64) :=
  let '(v_radial_set, v_velocity) := st in
  let v_radial : vec := (core_x core - x, core_y core - y) in
  let _ := occlusion_loop v_radial v_radial_set in
  let dis := norm v_radial in
  let v_unit : vec64 := (NP.div (fst v_radial) dis, NP.div (snd v_radial) dis) in
  let v_radial_set := v_radial_set ++ [v_unit] in
  let rotation := rotation_of (clockwise core) in
  let v_tangent := mat_vec64 rotation v_unit in
  match compute_speed e (Gamma core) dis with
  | None => None
  | Some speed =>
      Some (v_radial_set, vadd64 v_velocity (vscale64 v_tangent speed))
  end.

(** The loop [for i in list(idx)]; [None] is an exception: the
    [IndexError] of [self.cores[i]] or the [ZeroDivisionError] of
    [compute_speed]. *)
Fixpoint velocity_loop (e : Env S) (x y : R) (idx : list nat)
    (st : list vec64 * vec64) : option (list vec64 * vec64) :=
  match idx with
  | [] => Some st
  | i :: rest =>
      match nth_error (cores e) i with
      | Some core =>
          match velocity_step e x y core st with
          | Some st' => velocity_loop e x y rest st'
          | None => None
          end
      | None => None
      end
  end.

(** [list(idx)]: the array as a list; a bare index is not iterable
    ([TypeError]).  [None] is an exception. *)
Definition list_of (idx : query_result) : option (list nat) :=
  match idx with
  | Indices l => Some l
  | Index _ => None
  | QueryError => None
  end.

Definition get_velocity (e : Env S) (x y : R) : option vec64 :=
  let idx := query (core_centers e) (x, y) (length (cores e)) in
  match list_of idx with
  | None => None
  | Some idx =>
      match velocity_loop e x y idx ([], (Fin 0, Fin 0)) with
      | Some (_, v_velocity) => Some v_velocity
      | None => None
      end
  end.

End FlowField.

(** ** [reset] *)

Section Reset.

Context {S : Type} `{RS : RandomState S} `{KD : KDTree}.

(** [rd.uniform(low, high)]: [low + (high - low) * random_sample()]. *)
Definition uniform (low high : R) (s : S) : R * S :=
  let (u, s') := random_sample s in (low + (high - low) * u, s').

Definition with_rd (e : Env S) (s : S) : Env S :=
  mkEnv s (width e) (height e) (r e) (v_rel_max e) (p e) (v_range e)
        (obs_r_range e) (cores e) (obstacles e) (initial e) (goal e)
        (core_centers e) (robot e).

Definition with_cores (e : Env S) (cs : list Core) : Env S :=
  mkEnv (rd e) (width e) (height e) (r e) (v_rel_max e) (p e) (v_range e)
        (obs_r_range e) cs (obstacles e) (initial e) (goal e)
        (core_centers e) (robot e).

Definition with_obstacles (e : Env S) (os : list Obstacle) : Env S :=
  mkEnv (rd e) (width e) (height e) (r e) (v_rel_max e) (p e) (v_range e)
        (obs_r_range e) (cores e) os (initial e) (goal e)
        (core_centers e) (robot e).

Definition with_core_centers (e : Env S) (pts : list vec) : Env S :=
  mkEnv (rd e) (width e) (height e) (r e) (v_rel_max e) (p e) (v_range e)
        (obs_r_range e) (cores e) (obstacles e) (initial e) (goal e)
        pts (robot e).

Definition with_robot (e : Env S) (rb : Robot) : Env S :=
  mkEnv (rd e) (width e) (height e) (r e) (v_rel_max e) (p e) (v_range e)
        (obs_r_range e) (cores e) (obstacles e) (initial e) (goal e)
        (core_centers e) rb.

(** The candidate of one iteration of the first loop: position, spinning
    direction and strength, in the order the stream is consumed. *)
Definition core_candidate (e : Env S) : Core * S :=
  let (cx, s1) := uniform 0 (width e) (rd e) in
  let (cy, s2) := uniform 0 (height e) s1 in
  let (direction, s3) := binomial s2 in
  let (v_edge, s4) := uniform (fst (v_range e)) (snd (v_range e)) s3 in
  let Gamma := 2 * PI * r e * v_edge in
  (mkCore cx cy direction Gamma, s4).

(** The first [while True] loop, [fuel] iterations at most. *)
Fixpoint cores_loop (fuel : nat) (e : Env S) (num_cores : Z) : outcome (Env S) :=
  match fuel with
  | O => Running
  | Datatypes.S fuel' =>
      let (core, s') := core_candidate e in
      let e1 := with_rd e s' in
      match check_core e1 core with
      | None => Raised
      | Some accepted =>
          let '(e2, num_cores) :=
            if accepted
            then (with_cores e1 (cores e1 ++ [core]), (num_cores - 1)%Z)
            else (e1, num_cores) in
          if (num_cores =? 0)%Z then Returned e2
          else cores_loop fuel' e2 num_cores
      end
  end.

Definition obstacle_candidate (e : Env S) : Obstacle * S :=
  let (ox, s1) := uniform 0 (width e) (rd e) in
  let (oy, s2) := uniform 0 (height e) s1 in
  let (rad, s3) := uniform (fst (obs_r_range e)) (snd (obs_r_range e)) s2 in
  (mkObstacle ox oy rad, s3).

(** The second [while True] loop. *)
Fixpoint obstacles_loop (fuel : nat) (e : Env S) (num_obs : Z) : outcome (Env S) :=
  match fuel with
  | O => Running
  | Datatypes.S fuel' =>
      let (obs, s') := obstacle_candidate e in
      let e1 := with_rd e s' in
      let '(e2, num_obs) :=
        if check_obstacle e1 obs
        then (with_obstacles e1 (obstacles e1 ++ [obs]), (num_obs - 1)%Z)
        else (e1, num_obs) in
      if (num_obs =? 0)%Z then Returned e2
      else obstacles_loop fuel' e2 num_obs
  end.

Definition center_of (c : Core) : vec := (core_x c, core_y c).

(** [reset]; either loop may use up to [fuel] iterations.  With no core
    at all [centers] would be [None] and building the KDTree raises.
    The closing call of [get_velocity] may raise as well: it does when
    the query hands back a bare index, that is over a single core. *)
Definition reset (fuel : nat) (e : Env S) (num_cores num_obs : Z) : outcome (Env S) :=
  let e := with_obstacles (with_cores e []) [] in
  match cores_loop fuel e num_cores with
  | Returned e =>
      match cores e with
      | [] => Raised
      | _ :: _ =>
          let e := with_core_centers e (map center_of (cores e)) in
          match obstacles_loop fuel e num_obs with
          | Returned e =>
              match get_velocity e (fst (initial e)) (snd (initial e)) with
              | Some current_v =>
                  Returned (with_robot e
                    (set_state (robot e) (fst (initial e)) (snd (initial e)) current_v))
              | None => Raised
              end
          | Raised => Raised
          | Running => Running
          end
      end
  | Raised => Raised
  | Running => Running
  end.

(** The fields set by [__init__] before it calls [reset]. *)
Definition Env_fields (seed : Z) (rb : Robot) : Env S :=
  mkEnv (RandomState_init seed) 50 50 (1/2) (1/2) (4/5) (5, 10) (1, 5)
        [] [] (5, 5) (45, 45) [] rb.

(** [Env(seed)]: [__init__] ends with [self.reset()], five cores and
    five obstacles. *)
Definition Env_init (fuel : nat) (seed : Z) (rb : Robot) : outcome (Env S) :=
  reset fuel (Env_fields seed rb) 5 5.

End Reset.

(** ** [get_observation] *)

(** [R_rw * point + t_rw] with [R_rw = transpose(R_wr)] and
    [t_rw = -R_rw * t_wr], as applied to the goal and to every sonar
    point. *)
Definition world_point_to_body (rb : Robot) (pt : vec) : vec :=
  let (R_wr, t_wr) := get_robot_transform rb in
  let R_rw := transpose R_wr in
  let t_rw := mat_vec (mat_neg R_rw) t_wr in
  vadd (mat_vec R_rw pt) t_rw.

(** [R_rw * velocity], no translation. *)
Definition world_vector_to_body (rb : Robot) (v : vec) : vec :=
  let (R_wr, _) := get_robot_transform rb in
  mat_vec (transpose R_wr) v.

(** Modelled from the spec: the body-to-world map of the kinematic
    collaborator, [R_wr * point + t_wr]. *)
Definition body_point_to_world (rb : Robot) (pt : vec) : vec :=
  let (R_wr, t_wr) := get_robot_transform rb in
  vadd (mat_vec R_wr pt) t_wr.

(** [reflections] stands for [self.robot.sonar.reflections] after
    [sonar_reflection]; each entry is a point and its flag. *)
Definition get_observation {S : Type} (e : Env S) (reflections : list (vec * R))
  : vec * list (vec * R) * vec :=
  let abs_velocity_r := world_vector_to_body (robot e) (robot_velocity (robot e)) in
  let sonar_points_r :=
    map (fun point => (world_point_to_body (robot e) (fst point), snd point))
        reflections in
  let goal_r := world_point_to_body (robot e) (goal e) in
  (abs_velocity_r, sonar_points_r, goal_r).

(** ** The quantities the invariants are stated with *)

(** Distance at which the current of a core has dropped to [v_rel_max]. *)
Definition boundary {S : Type} (e : Env S) (c : Core) : R :=
  Gamma c / (2 * PI * v_rel_max e).

Definition core_distance (ci cj : Core) : R :=
  distance (core_x ci) (core_y ci) (core_x cj) (core_y cj).

Definition core_obstacle_distance (c : Core) (o : Obstacle) : R :=
  distance (core_x c) (core_y c) (obs_x o) (obs_y o).

Definition obstacle_distance (o1 o2 : Obstacle) : R :=
  distance (obs_x o1) (obs_y o1) (obs_x o2) (obs_y o2).

(** A value [uniform low high] can return. *)
Definition in_uniform (low high v : R) : Prop :=
  exists u : R, 0 <= u < 1 /\ v = low + (high - low) * u.

(** A core the first loop of [reset] can draw. *)
Definition drawable_core {S : Type} (e : Env S) (c : Core) : Prop :=
  in_uniform 0 (width e) (core_x c) /\
  in_uniform 0 (height e) (core_y c) /\
  exists v_edge : R,
    in_uniform (fst (v_range e)) (snd (v_range e)) v_edge /\
    Gamma c = 2 * PI * r e * v_edge.

(** An obstacle the second loop of [reset] can draw. *)
Definition drawable_obstacle {S : Type} (e : Env S) (o : Obstacle) : Prop :=
  in_uniform 0 (width e) (obs_x o) /\
  in_uniform 0 (height e) (obs_y o) /\
  in_uniform (fst (obs_r_range e)) (snd (obs_r_range e)) (obs_r o).

(** The obstacle [o] touches none of the cores [cs]. *)
Definition clear_of_cores {S : Type} (e : Env S) (cs : list Core) (o : Obstacle) : Prop :=
  Forall (fun c => r e + obs_r o < core_obstacle_distance c o) cs.

(** Two obstacles that do not touch. *)
Definition obstacles_apart (o1 o2 : Obstacle) : Prop :=
  obs_r o1 + obs_r o2 < obstacle_distance o1 o2.

(** A placement the two loops can end with: every entity drawable and
    accepted by its check against the entities placed before it. *)
Definition placement {S : Type} (e : Env S) (cs : list Core) (os : list Obstacle) : Prop :=
  Forall (drawable_core e) cs /\
  ForallOrdPairs (fun ci cj => check_core_pair e ci cj = Some true) cs /\
  Forall (drawable_obstacle e) os /\
  Forall (clear_of_cores e cs) os /\
  ForallOrdPairs obstacles_apart os.

(** The requested entities can all be placed. *)
Definition feasible {S : Type} (e : Env S) (num_cores num_obs : Z) : Prop :=
  exists (cs : list Core) (os : list Obstacle),
    placement e cs os /\
    Z.of_nat (length cs) = num_cores /\
    Z.of_nat (length os) = num_obs.

(** The cores of [e] were each accepted against the cores before it. *)
Definition accepted_cores {S : Type} (e : Env S) : Prop :=
  ForallOrdPairs (fun ci cj => check_core_pair e ci cj = Some true) (cores e).

(** The obstacles of [e] were each accepted against the cores and
    against the obstacles before it. *)
Definition accepted_obstacles {S : Type} (e : Env S) : Prop :=
  Forall (clear_of_cores e (cores e)) (obstacles e) /\
  ForallOrdPairs obstacles_apart (obstacles e).

(** The two parameters the program divides by. *)
Definition nonzero_params {S : Type} (e : Env S) : Prop :=
  r e <> 0 /\ v_rel_max e <> 0.

(** The fields [reset] does not assign. *)
Definition same_params {S : Type} (e e' : Env S) : Prop :=
  width e' = width e /\ height e' = height e /\ r e' = r e /\
  v_rel_max e' = v_rel_max e /\ p e' = p e /\ v_range e' = v_range e /\
  obs_r_range e' = obs_r_range e /\ initial e' = initial e /\ goal e' = goal e.

(** ** The velocity field in the words of the specification *)

(** Speed induced at distance [d] by a core of strength [Gamma]. *)
Definition speed_profile (radius Gamma d : R) : R :=
  if Rle_dec d radius then Gamma / (2 * PI * (radius * radius)) * d
  else Gamma / (2 * PI * d).

(** Contribution of one core at the point [(x, y)]: the unit vector
    towards the core, turned by the matrix [[0,-1],[1,0]] for a
    clockwise core and by [[0,1],[-1,0]] otherwise, times the speed. *)
Definition contribution {S : Type} (e : Env S) (x y : R) (c : Core) : vec :=
  let d := norm (core_x c - x, core_y c - y) in
  let u : vec := ((core_x c - x) / d, (core_y c - y) / d) in
  let t :=
    if clockwise c
    then mat_vec ((0, -1), (1, 0)) u
    else mat_vec ((0, 1), (-1, 0)) u in
  let s := speed_profile (r e) (Gamma c) d in
  (fst t * s, snd t * s).

Definition vsum (l : list vec) : vec := fold_right vadd (0, 0) l.

(** The sum of the contributions of all the cores, in list order. *)
Definition velocity_sum {S : Type} (e : Env S) (x y : R) : vec :=
  vsum (map (contribution e x y) (cores e)).

(** Default of the list lookups in the proofs; never reached. *)
Definition no_core : Core := mkCore 0 0 false 0.

Section Unfiltered.

Context {S : Type} `{KD : KDTree}.

(** [get_velocity] with the occlusion check removed. *)
Definition velocity_step_unfiltered (e : Env S) (x y : R) (core : Core)
    (st : list vec64 * vec64) : option (list vec64 * vec64) :=
  let '(v_radial_set, v_velocity) := st in
  let v_radial : vec := (core_x core - x, core_y core - y) in
  let dis := norm v_radial in
  let v_unit : vec64 := (NP.div (fst v_radial) dis, NP.div (snd v_radial) dis) in
  let v_radial_set := v_radial_set ++ [v_unit] in
  let rotation := rotation_of (clockwise core) in
  let v_tangent := mat_vec64 rotation v_unit in
  match compute_speed e (Gamma core) dis with
  | None => None
  | Some speed =>
      Some (v_radial_set, vadd64 v_velocity (vscale64 v_tangent speed))
  end.

Fixpoint velocity_loop_unfiltered (e : Env S) (x y : R) (idx : list nat)
    (st : list vec64 * vec64) : option (list vec64 * vec64) :=
  match idx with
  | [] => Some st
  | i :: rest =>
      match nth_error (cores e) i with
      | Some core =>
          match velocity_step_unfiltered e x y core st with
          | Some st' => velocity_loop_unfiltered e x y rest st'
          | None => None
          end
      | None => None
      end
  end.

Definition get_velocity_unfiltered (e : Env S) (x y : R) : option vec64 :=
  let idx := query (core_centers e) (x, y) (length (cores e)) in
  match list_of idx with
  | None => None
  | Some idx =>
      match velocity_loop_unfiltered e x y idx ([], (Fin 0, Fin 0)) with
      | Some (_, v_velocity) => Some v_velocity
      | None => None
      end
  end.

End Unfiltered.

(** ** A recorded random stream and a brute-force index *)

(** A stream replayed from a tape of integers: the entry [k] is read as
    the double [(k mod 100) / 100] or as the bit [k mod 2]; an exhausted
    tape keeps returning zero. *)
Definition tape : Type := list Z.

Definition tape_sample (t : tape) : R * tape :=
  match t with
  | [] => (0, [])
  | k :: t' => (IZR (k mod 100) / 100, t')
  end.

Definition tape_binomial (t : tape) : bool * tape :=
  match t with
  | [] => (false, [])
  | k :: t' => (Z.odd k, t')
  end.

(** The seed is read as a tape, two decimal digits per entry, lowest
    first. *)
Fixpoint tape_of_seed_digits (n : nat) (z : Z) : tape :=
  match n with
  | O => []
  | Datatypes.S n' =>
      if (z =? 0)%Z then []
      else (z mod 100)%Z :: tape_of_seed_digits n' (z / 100)%Z
  end.

Definition tape_of_seed (seed : Z) : tape :=
  tape_of_seed_digits 32 (Z.abs seed).

#[global] Instance TapeRandomState : RandomState tape := {
  random_sample := tape_sample;
  binomial := tape_binomial;
  RandomState_init := tape_of_seed
}.

(** Ranking by insertion sort on the distances to the query point. *)
Fixpoint rank_insert (d : R) (i : nat) (l : list (R * nat)) : list (R * nat) :=
  match l with
  | [] => [(d, i)]
  | (d', j) :: rest =>
      if NP.Rleb d d' then (d, i) :: (d', j) :: rest
      else (d', j) :: rank_insert d i rest
  end.

Fixpoint rank (l : list (R * nat)) : list (R * nat) :=
  match l with
  | [] => []
  | (d, i) :: rest => rank_insert d i (rank rest)
  end.

Definition brute_query (pts : list vec) (q : vec) (k : nat) : list nat :=
  let ds := map (fun pt => distance (fst pt) (snd pt) (fst q) (snd q)) pts in
  firstn k (map snd (rank (combine ds (seq 0 (length pts))))).

(** The result shaped as scipy shapes it: squeezed to a bare index
    for [k = 1], an array for [k >= 2].  Asked for no neighbour at all
    this index reports an error. *)
Definition brute_result (pts : list vec) (q : vec) (k : nat) : query_result :=
  match k with
  | O => QueryError
  | Datatypes.S O =>
      match brute_query pts q 1 with
      | [i] => Index i
      | _ => QueryError
      end
  | _ => Indices (brute_query pts q k)
  end.

#[global] Instance BruteKDTree : KDTree := {
  query := brute_result
}.

(** The environment with the constants of [__init__], a given tape and
    given entities. *)
Definition scene (t : tape) (cs : list Core) (os : list Obstacle)
    (centers : list vec) (rb : Robot) : Env tape :=
  mkEnv t 50 50 (1/2) (1/2) (4/5) (5, 10) (1, 5)
        cs os (5, 5) (45, 45) centers rb.

Definition tape_env (t : tape) : Env tape :=
  scene t [] [] [] (mkRobot 0 0 0 (0, 0)).

(** A recorded run: three cores, the third turning against the first
    two, and two obstacles, all on the x axis. *)
Definition demo_tape : tape :=
  [0; 0; 1; 0;  50; 0; 1; 0;  20; 0; 0; 0;  80; 0; 0;  90; 0; 25]%Z.

(** The seed that [tape_of_seed] reads as [demo_tape]. *)
Definition demo_seed : Z := 250090000080000000200001005000010000.

(** The strength of a core of edge speed 5. *)
Definition demo_strength : R := 2 * PI * (1/2) * 5.

Definition demo_c1 : Core := mkCore 0 0 true demo_strength.
Definition demo_c2 : Core := mkCore 25 0 true demo_strength.
Definition demo_c3 : Core := mkCore 10 0 false demo_strength.
Definition demo_o1 : Obstacle := mkObstacle 40 0 1.
Definition demo_o2 : Obstacle := mkObstacle 45 0 2.

Definition demo_result : Env tape :=
  scene [] [demo_c1; demo_c2; demo_c3] [demo_o1; demo_o2]
        [(0, 0); (25, 0); (10, 0)] (mkRobot 5 5 0 (0, 0)).

(** A second recorded run: two cores of opposite senses drawn at the
    same point, and one obstacle. *)
Definition overlap_tape : tape :=
  [0; 0; 1; 0;  0; 0; 0; 0;  80; 0; 0]%Z.

Definition overlap_c2 : Core := mkCore 0 0 false demo_strength.

Definition overlap_result : Env tape :=
  scene [] [demo_c1; overlap_c2] [demo_o1]
        [(0, 0); (0, 0)] (mkRobot 5 5 0 (0, 0)).

(** The constants of [__init__] except for the obstacle radii, all
    equal to 100: no obstacle fits beside a core in the 50 x 50 map. *)
Definition crowded_env (t : tape) : Env tape :=
  mkEnv t 50 50 (1/2) (1/2) (4/5) (5, 10) (100, 100)
        [] [] (5, 5) (45, 45) [] (mkRobot 0 0 0 (0, 0)).

(** Two environments in the same state as far as the two loops of
    [reset] can tell. *)
Definition same_scenario {S : Type} (a b : Env S) : Prop :=
  rd b = rd a /\ same_params a b /\ cores b = cores a /\ obstacles b = obstacles a.

(** Two outcomes of a loop run on such environments. *)
Definition same_outcome {S : Type} (o1 o2 : outcome (Env S)) : Prop :=
  match o1, o2 with
  | Returned x, Returned y => same_scenario x y
  | Raised, Raised => True
  | Running, Running => True
  | _, _ => False
  end.

(** ** Further code of [env.py] and [env_visualizer.py] *)

(** The environment with the cores [cs] and the index rebuilt over their
    centers, the state in which [reset] and [load_episode] leave the
    cores and the KDTree. *)
Definition with_scene {S : Type} (e : Env S) (cs : list Core) : Env S :=
  with_core_centers (with_cores e cs) (map center_of cs).

(** [init_visualize], the patch of the robot: the anchor [xy] of the
    rectangle and its angle in degrees.  [length] and [width] are the
    robot's dimensions. *)
Definition robot_patch (rb : Robot) (length width : R) : vec * R :=
  let d : vec := (1/2 * length, 1/2 * width) in
  let rot : mat :=
    ((cos (robot_theta rb), - sin (robot_theta rb)),
     (sin (robot_theta rb), cos (robot_theta rb))) in
  let d_r := mat_vec rot d in
  let xy := (robot_x rb - fst d_r, robot_y rb - snd d_r) in
  let angle_d := robot_theta rb / PI * 180 in
  (xy, angle_d).

(** [load_episode], the loop that loads the vortex cores: for every
    index of [positions] a core is built from the three lists; [None]
    is the [IndexError] of a list that is too short.  The second
    component is [centers], [None] when no core was loaded. *)
Fixpoint load_cores_loop (idx : list nat) (positions : list (list R))
    (clockwise : list bool) (Gammas : list R)
    (cs : list Core) (centers : option (list vec))
  : option (list Core * option (list vec)) :=
  match idx with
  | [] => Some (cs, centers)
  | i :: rest =>
      match nth_error positions i, nth_error clockwise i, nth_error Gammas i with
      | Some center, Some cw, Some G =>
          match nth_error center 0, nth_error center 1 with
          | Some cx, Some cy =>
              let core := mkCore cx cy cw G in
              let centers :=
                match centers with
                | None => Some [(core_x core, core_y core)]
                | Some pts => Some (pts ++ [(core_x core, core_y core)])
                end in
              load_cores_loop rest positions clockwise Gammas (cs ++ [core]) centers
          | _, _ => None
          end
      | _, _, _ => None
      end
  end.

Definition load_cores (positions : list (list R)) (clockwise : list bool)
    (Gammas : list R) : option (list Core * option (list vec)) :=
  load_cores_loop (seq 0 (length positions)) positions clockwise Gammas [] None.

(** The cores and the index of the environment after that part of
    [load_episode]: the KDTree is rebuilt only when [centers] is not
    [None]. *)
Definition load_episode_cores {S : Type} (e : Env S) (positions : list (list R))
    (clockwise : list bool) (Gammas : list R) : option (Env S) :=
  match load_cores positions clockwise Gammas with
  | None => None
  | Some (cs, centers) =>
      let e := with_cores e cs in
      match centers with
      | Some pts => Some (with_core_centers e pts)
      | None => Some e
      end
  end.

(** What [load_episode] reads at index [i] of the three lists to build
    the core [c]: [positions[i][0]], [positions[i][1]], [clockwise[i]]
    and [Gamma[i]]. *)
Definition stored_core (positions : list (list R)) (senses : list bool)
    (Gammas : list R) (i : nat) (c : Core) : Prop :=
  exists center,
    nth_error positions i = Some center /\
    nth_error center 0 = Some (core_x c) /\
    nth_error center 1 = Some (core_y c) /\
    nth_error senses i = Some (clockwise c) /\
    nth_error Gammas i = Some (Gamma c).

(** [centers] after the rows of the cores [news] were stacked under it. *)
Definition stacked (centers : option (list vec)) (news : list Core)
  : option (list vec) :=
  match news with
  | [] => centers
  | _ :: _ =>
      Some (match centers with None => [] | Some pts => pts end
            ++ map center_of news)
  end.

(** The lists a scenario is persisted as. *)
Definition core_positions (cs : list Core) : list (list R) :=
  map (fun c => [core_x c; core_y c]) cs.

Section ControlFrames.

Variables (A Q T : Type).

(** One entry of the list [actions] of [visualize_control]: the dict
    with the key ["action"] and, with [draw_dist], the keys
    ["actions_quantiles"] and ["actions_taus"]. *)
Record frame : Type := mkFrame {
  frame_action : A;
  frame_quantiles : option Q;
  frame_taus : option T
}.

(** The inner loop [for _ in range(self.env.robot.N)] for the action
    [a] at position [i]; [None] is the [IndexError] of
    [episode_actions_quantiles[i]] or [episode_actions_taus[i]], reached
    only when the loop body runs. *)
Definition frames_of (draw_dist : bool) (N : Z) (quantiles : list Q)
    (taus : list T) (i : nat) (a : A) : option (list frame) :=
  match Z.to_nat N with
  | O => Some []
  | Datatypes.S _ =>
      if draw_dist then
        match nth_error quantiles i, nth_error taus i with
        | Some q, Some t => Some (repeat (mkFrame a (Some q) (Some t)) (Z.to_nat N))
        | _, _ => None
        end
      else Some (repeat (mkFrame a None None) (Z.to_nat N))
  end.

(** The loop over [enumerate(action_sequence)], from position [i]. *)
Fixpoint control_frames_from (draw_dist : bool) (N : Z) (quantiles : list Q)
    (taus : list T) (i : nat) (action_sequence : list A) : option (list frame) :=
  match action_sequence with
  | [] => Some []
  | a :: rest =>
      match frames_of draw_dist N quantiles taus i a with
      | None => None
      | Some fs =>
          match control_frames_from draw_dist N quantiles taus (Datatypes.S i) rest with
          | None => None
          | Some more => Some (fs ++ more)
          end
      end
  end.

Definition control_frames (draw_dist : bool) (N : Z) (quantiles : list Q)
    (taus : list T) (action_sequence : list A) : option (list frame) :=
  control_frames_from draw_dist N quantiles taus 0 action_sequence.

End ControlFrames.

Arguments mkFrame {A Q T}.
Arguments frame_action {A Q T}.
Arguments frame_quantiles {A Q T}.
Arguments frame_taus {A Q T}.
Arguments frames_of {A Q T}.
Arguments control_frames_from {A Q T}.
Arguments control_frames {A Q T}.

(** * Properties *)

(** ** Comparisons and division *)

Lemma Rltb_true (a b : R) : NP.Rltb a b = true <-> a < b.
Proof.
  unfold NP.Rltb. destruct (Rlt_dec a b); split; intros; try assumption;
    try reflexivity; try discriminate; contradiction.
Qed.

Lemma Rltb_false (a b : R) : NP.Rltb a b = false <-> b <= a.
Proof.
  unfold NP.Rltb. destruct (Rlt_dec a b); split; intros;
    try discriminate; try reflexivity; lra.
Qed.

Lemma Rleb_true (a b : R) : NP.Rleb a b = true <-> a <= b.
Proof.
  unfold NP.Rleb. destruct (Rle_dec a b); split; intros; try assumption;
    try reflexivity; try discriminate; contradiction.
Qed.

Lemma Rleb_false (a b : R) : NP.Rleb a b = false <-> b < a.
Proof.
  unfold NP.Rleb. destruct (Rle_dec a b); split; intros;
    try discriminate; try reflexivity; lra.
Qed.

Lemma div_finite (x y : R) : y <> 0 -> NP.div x y = Fin (x / y).
Proof.
  intros Hy. unfold NP.div, NP.Req0b.
  destruct (Req_dec_T y 0); [contradiction | reflexivity].
Qed.

Lemma div_by_zero_pos (x : R) : 0 < x -> NP.div x 0 = PInf.
Proof.
  intros Hx. unfold NP.div, NP.Req0b.
  destruct (Req_dec_T 0 0) as [_ | n]; [| now elim n].
  apply Rltb_true in Hx. now rewrite Hx.
Qed.


Lemma py_div_some (x y : R) : y <> 0 -> Py.div x y = Some (x / y).
Proof.
  intros Hy. unfold Py.div, NP.Req0b.
  destruct (Req_dec_T y 0); [contradiction | reflexivity].
Qed.

Lemma py_div_none (x : R) : Py.div x 0 = None.
Proof.
  unfold Py.div, NP.Req0b.
  destruct (Req_dec_T 0 0) as [_ | n]; [reflexivity | now elim n].
Qed.

Lemma two_pi_nonzero (a : R) : a <> 0 -> 2 * PI * a <> 0.
Proof.
  intros Ha. pose proof PI_RGT_0 as Hpi.
  apply Rmult_integral_contrapositive_currified; [lra | assumption].
Qed.

Lemma two_pi_pos (a : R) : 0 < a -> 0 < 2 * PI * a.
Proof.
  intros Ha. pose proof PI_RGT_0 as Hpi.
  apply Rmult_lt_0_compat; lra.
Qed.

(** ** Geometry *)

Lemma distance_nonneg (x1 y1 x2 y2 : R) : 0 <= distance x1 y1 x2 y2.
Proof. unfold distance. apply sqrt_pos. Qed.

Lemma distance_sym (x1 y1 x2 y2 : R) : distance x1 y1 x2 y2 = distance x2 y2 x1 y1.
Proof. unfold distance. f_equal. ring. Qed.

Lemma distance_zero_iff (x1 y1 x2 y2 : R) :
  distance x1 y1 x2 y2 = 0 <-> x1 = x2 /\ y1 = y2.
Proof.
  unfold distance. cbv zeta. split.
  - intros H.
    pose proof (Rle_0_sqr (x1 - x2)) as Hx. pose proof (Rle_0_sqr (y1 - y2)) as Hy.
    unfold Rsqr in Hx, Hy.
    apply sqrt_eq_0 in H; [| lra].
    assert (Hx0 : (x1 - x2) * (x1 - x2) = 0) by lra.
    assert (Hy0 : (y1 - y2) * (y1 - y2) = 0) by lra.
    apply Rsqr_0_uniq in Hx0. apply Rsqr_0_uniq in Hy0. split; lra.
  - intros [-> ->]. replace ((x2 - x2) * (x2 - x2) + (y2 - y2) * (y2 - y2)) with 0 by ring.
    apply sqrt_0.
Qed.

Lemma norm_is_distance (cx cy x y : R) : norm (cx - x, cy - y) = distance cx cy x y.
Proof. reflexivity. Qed.

(** ** [compute_speed] *)

Section SpeedFacts.

Context {S : Type}.

Lemma compute_speed_inside (e : Env S) (G d : R) :
  r e <> 0 -> d <= r e ->
  compute_speed e G d = Some (Fin (G / (2 * PI * r e * r e) * d)).
Proof.
  intros Hr Hd. unfold compute_speed.
  apply Rleb_true in Hd. rewrite Hd.
  rewrite py_div_some; [reflexivity |].
  apply Rmult_integral_contrapositive_currified; [| assumption].
  now apply two_pi_nonzero.
Qed.

Lemma compute_speed_outside (e : Env S) (G d : R) :
  d <> 0 -> r e < d ->
  compute_speed e G d = Some (Fin (G / (2 * PI * d))).
Proof.
  intros Hd0 Hd. unfold compute_speed.
  apply Rleb_false in Hd. rewrite Hd.
  f_equal. apply div_finite. now apply two_pi_nonzero.
Qed.

Lemma compute_speed_profile (e : Env S) (G d : R) :
  0 < d -> compute_speed e G d = Some (Fin (speed_profile (r e) G d)).
Proof.
  intros Hd. unfold speed_profile.
  destruct (Rle_dec d (r e)) as [Hle | Hgt].
  - rewrite compute_speed_inside; [| lra | assumption].
    replace (2 * PI * r e * r e) with (2 * PI * (r e * r e)) by ring.
    reflexivity.
  - apply compute_speed_outside; lra.
Qed.

(** With a nonzero core radius [compute_speed] does not raise. *)
Lemma compute_speed_returns (e : Env S) (G d : R) :
  r e <> 0 -> exists s : float64, compute_speed e G d = Some s.
Proof.
  intros Hr. unfold compute_speed. destruct (NP.Rleb d (r e)).
  - rewrite py_div_some; [eexists; reflexivity |].
    apply Rmult_integral_contrapositive_currified; [| assumption].
    now apply two_pi_nonzero.
  - eexists. reflexivity.
Qed.

End SpeedFacts.

(** C4.  With a positive core radius, at every distance [d] (so at
    every [d >= 0]) [compute_speed] is the linear ramp
    [Gamma/(2 pi radius^2) * d] for [d <= radius] and the decay
    [Gamma/(2 pi d)] for [d > radius], and the two expressions have the
    same value at [d = radius]. *)
Theorem compute_speed_piecewise {S : Type} (e : Env S) (G d : R) :
  0 < r e ->
  (d <= r e -> compute_speed e G d = Some (Fin (G / (2 * PI * (r e * r e)) * d))) /\
  (r e < d -> compute_speed e G d = Some (Fin (G / (2 * PI * d)))) /\
  G / (2 * PI * (r e * r e)) * r e = G / (2 * PI * r e).
Proof.
  intros Hr. pose proof PI_RGT_0 as Hpi. repeat split.
  - intros Hle. rewrite compute_speed_inside; [| lra | assumption].
    replace (2 * PI * r e * r e) with (2 * PI * (r e * r e)) by ring.
    reflexivity.
  - intros Hlt. apply compute_speed_outside; lra.
  - field. split; lra.
Qed.

Lemma compute_speed_piecewise_witness :
  0 < r (tape_env []) /\
  compute_speed (tape_env []) 7 (1/4)
    = Some (Fin (7 / (2 * PI * (1/2 * (1/2))) * (1/4))) /\
  compute_speed (tape_env []) 7 1 = Some (Fin (7 / (2 * PI * 1))) /\
  7 / (2 * PI * (1/2 * (1/2))) * (1/2) = 7 / (2 * PI * (1/2)).
Proof.
  assert (Hr : 0 < r (tape_env [])) by (simpl; lra).
  split; [exact Hr |].
  split; [| split].
  - apply (proj1 (compute_speed_piecewise (tape_env []) 7 (1/4) Hr)). simpl. lra.
  - apply (proj1 (proj2 (compute_speed_piecewise (tape_env []) 7 1 Hr))). simpl. lra.
  - exact (proj2 (proj2 (compute_speed_piecewise (tape_env []) 7 1 Hr))).
Defined.

(** ** The frame transform of [get_observation] *)

Lemma get_observation_goal {S : Type} (e : Env S) (reflections : list (vec * R)) :
  snd (get_observation e reflections) = world_point_to_body (robot e) (goal e).
Proof. reflexivity. Qed.

Lemma get_observation_sonar {S : Type} (e : Env S) (reflections : list (vec * R)) :
  snd (fst (get_observation e reflections)) =
  map (fun point => (world_point_to_body (robot e) (fst point), snd point)) reflections.
Proof. reflexivity. Qed.

Lemma rotation_orthogonal (theta a : R) :
  (cos theta * cos theta + sin theta * sin theta) * a = a.
Proof.
  pose proof (sin2_cos2 theta) as H. unfold Rsqr in H.
  replace (cos theta * cos theta + sin theta * sin theta) with 1 by lra.
  ring.
Qed.

(** C6.  For every heading and position of the robot, the world-to-body
    map applied by [get_observation] ([transpose(R_wr)] and
    [-transpose(R_wr) * t_wr]) undoes the body-to-world map and is undone
    by it: a point sent through one and then the other comes back
    unchanged. *)
Theorem world_to_body_inverse (rb : Robot) (pt : vec) :
  world_point_to_body rb (body_point_to_world rb pt) = pt /\
  body_point_to_world rb (world_point_to_body rb pt) = pt.
Proof.
  destruct pt as [a b].
  unfold world_point_to_body, body_point_to_world, get_robot_transform,
    transpose, mat_neg, mat_vec, vadd.
  cbn [fst snd].
  set (c := cos (robot_theta rb)). set (s := sin (robot_theta rb)).
  set (x := robot_x rb). set (y := robot_y rb).
  pose proof (rotation_orthogonal (robot_theta rb) a) as Ha.
  pose proof (rotation_orthogonal (robot_theta rb) b) as Hb.
  pose proof (rotation_orthogonal (robot_theta rb) x) as Hx.
  pose proof (rotation_orthogonal (robot_theta rb) y) as Hy.
  fold c s in Ha, Hb, Hx, Hy.
  split; f_equal.
  - transitivity ((c * c + s * s) * a); [ring | exact Ha].
  - transitivity ((c * c + s * s) * b); [ring | exact Hb].
  - transitivity ((c * c + s * s) * a - (c * c + s * s) * x + x); [ring | lra].
  - transitivity ((c * c + s * s) * b - (c * c + s * s) * y + y); [ring | lra].
Qed.

(** ** Lists of accepted entities *)

Section OrderedPairs.

Context {A : Type} (Rel : A -> A -> Prop).

Lemma ForallOrdPairs_snoc (l : list A) (c : A) :
  ForallOrdPairs Rel l -> Forall (fun a => Rel a c) l ->
  ForallOrdPairs Rel (l ++ [c]).
Proof.
  induction 1 as [| a l Ha Hl IH]; intros Hc; simpl.
  - constructor; constructor.
  - inversion Hc as [| ? ? Hac Hlc]; subst. constructor.
    + apply Forall_app. split; [assumption | constructor; [assumption | constructor]].
    + apply IH. assumption.
Qed.

Lemma ForallOrdPairs_nth_lt (l : list A) :
  ForallOrdPairs Rel l ->
  forall (i j : nat) (a b : A),
    (i < j)%nat -> nth_error l i = Some a -> nth_error l j = Some b -> Rel a b.
Proof.
  induction 1 as [| x l Hx Hl IH]; intros i j a b Hij Hi Hj.
  - destruct i; discriminate.
  - destruct j as [| j]; [lia |]. simpl in Hj.
    destruct i as [| i]; simpl in Hi.
    + injection Hi as <-. rewrite Forall_forall in Hx.
      apply Hx. eapply nth_error_In; eassumption.
    + apply (IH i j); [lia | assumption | assumption].
Qed.

Lemma ForallOrdPairs_nth (l : list A) :
  (forall a b, Rel a b -> Rel b a) ->
  ForallOrdPairs Rel l ->
  forall (i j : nat) (a b : A),
    i <> j -> nth_error l i = Some a -> nth_error l j = Some b -> Rel a b.
Proof.
  intros Hsym Hl i j a b Hij Hi Hj.
  destruct (Nat.lt_ge_cases i j) as [Hlt | Hge].
  - eapply ForallOrdPairs_nth_lt; eassumption.
  - apply Hsym. eapply (ForallOrdPairs_nth_lt l Hl j i); [lia | eassumption | eassumption].
Qed.

End OrderedPairs.

Lemma ForallOrdPairs_weaken {A : Type} (R1 R2 : A -> A -> Prop) (l : list A) :
  (forall a b, R1 a b -> R2 a b) -> ForallOrdPairs R1 l -> ForallOrdPairs R2 l.
Proof.
  intros Himp. induction 1 as [| a l Ha Hl IH]; constructor.
  - eapply Forall_impl; [| exact Ha]. intros b. apply Himp.
  - exact IH.
Qed.

(** ** The two checks as pairwise conditions *)

Section CheckFacts.

Context {S : Type}.

Lemma check_core_loop_true (e : Env S) (cs : list Core) (c : Core) :
  check_core_loop e cs c = Some true <->
  Forall (fun ci => check_core_pair e ci c = Some true) cs.
Proof.
  induction cs as [| ci cs IH]; simpl.
  - split; [constructor | reflexivity].
  - destruct (check_core_pair e ci c) as [[|] |] eqn:E.
    + rewrite IH. split.
      * intros H. constructor; [exact E | assumption].
      * intros H. inversion H; assumption.
    + split; [discriminate |]. intros H. inversion H; congruence.
    + split; [discriminate |]. intros H. inversion H; congruence.
Qed.

(** With nonzero parameters no division of [check_core] raises. *)
Lemma check_core_pair_returns (e : Env S) (ci cj : Core) :
  nonzero_params e -> exists b : bool, check_core_pair e ci cj = Some b.
Proof.
  intros [Hr Hv]. unfold check_core_pair.
  destruct (Bool.eqb (clockwise ci) (clockwise cj)).
  - rewrite !py_div_some by (now apply two_pi_nonzero).
    destruct (NP.Rltb _ _); eexists; reflexivity.
  - rewrite py_div_some by (now apply two_pi_nonzero).
    destruct (NP.gt _ _); eexists; reflexivity.
Qed.

Lemma check_core_loop_returns (e : Env S) (cs : list Core) (c : Core) :
  nonzero_params e -> exists b : bool, check_core_loop e cs c = Some b.
Proof.
  intros Hnz. induction cs as [| ci cs IH]; simpl.
  - eexists. reflexivity.
  - destruct (check_core_pair_returns e ci c Hnz) as [[|] ->].
    + exact IH.
    + eexists. reflexivity.
Qed.

Lemma check_obstacle_cores_true (e : Env S) (cs : list Core) (o : Obstacle) :
  check_obstacle_cores e cs o = true <-> clear_of_cores e cs o.
Proof.
  unfold clear_of_cores. induction cs as [| c cs IH]; simpl.
  - split; [constructor | reflexivity].
  - fold (core_obstacle_distance c o).
    destruct (NP.Rleb (core_obstacle_distance c o) (r e + obs_r o)) eqn:E.
    + split; [discriminate |]. intros H. inversion H as [| ? ? Hc _]; subst.
      apply Rleb_true in E. lra.
    + rewrite IH. apply Rleb_false in E. split.
      * intros H. constructor; assumption.
      * intros H. inversion H; assumption.
Qed.

Lemma check_obstacle_obstacles_true (os : list Obstacle) (o : Obstacle) :
  check_obstacle_obstacles os o = true <->
  Forall (fun o' => obstacles_apart o' o) os.
Proof.
  unfold obstacles_apart. induction os as [| o' os IH]; simpl.
  - split; [constructor | reflexivity].
  - fold (obstacle_distance o' o).
    destruct (NP.Rleb (obstacle_distance o' o) (obs_r o' + obs_r o)) eqn:E.
    + split; [discriminate |]. intros H. inversion H as [| ? ? Hc _]; subst.
      apply Rleb_true in E. lra.
    + rewrite IH. apply Rleb_false in E. split.
      * intros H. constructor; assumption.
      * intros H. inversion H; assumption.
Qed.

Lemma check_obstacle_true (e : Env S) (o : Obstacle) :
  check_obstacle e o = true <->
  check_obstacle_cores e (cores e) o = true /\
  check_obstacle_obstacles (obstacles e) o = true.
Proof.
  unfold check_obstacle.
  destruct (check_obstacle_cores e (cores e) o).
  - split; [intros H; split; [reflexivity | exact H] | intros [_ H]; exact H].
  - split; [discriminate | intros [H _]; discriminate].
Qed.

End CheckFacts.

(** ** The rejection loops *)

Section LoopFacts.

Context {S : Type} `{RS : RandomState S}.

(** One unfolding of each loop, with the candidate named. *)
Lemma cores_loop_step (fuel : nat) (e : Env S) (n : Z) :
  cores_loop (Datatypes.S fuel) e n =
  let c := fst (core_candidate e) in
  let e1 := with_rd e (snd (core_candidate e)) in
  match check_core e1 c with
  | None => Raised
  | Some true =>
      if (n - 1 =? 0)%Z then Returned (with_cores e1 (cores e ++ [c]))
      else cores_loop fuel (with_cores e1 (cores e ++ [c])) (n - 1)
  | Some false =>
      if (n =? 0)%Z then Returned e1 else cores_loop fuel e1 n
  end.
Proof.
  simpl. destruct (core_candidate e) as [c s']. simpl.
  destruct (check_core (with_rd e s') c) as [[|] |]; reflexivity.
Qed.

Lemma obstacles_loop_step (fuel : nat) (e : Env S) (n : Z) :
  obstacles_loop (Datatypes.S fuel) e n =
  let o := fst (obstacle_candidate e) in
  let e1 := with_rd e (snd (obstacle_candidate e)) in
  if check_obstacle e1 o then
    (if (n - 1 =? 0)%Z then Returned (with_obstacles e1 (obstacles e ++ [o]))
     else obstacles_loop fuel (with_obstacles e1 (obstacles e ++ [o])) (n - 1))
  else
    (if (n =? 0)%Z then Returned e1 else obstacles_loop fuel e1 n).
Proof.
  simpl. destruct (obstacle_candidate e) as [o s']. simpl.
  destruct (check_obstacle (with_rd e s') o); reflexivity.
Qed.

(** A property kept by a rejected and by an accepted candidate holds
    when the loop is left. *)
Lemma cores_loop_invariant (I : Env S -> Prop) :
  (forall e, I e -> I (with_rd e (snd (core_candidate e)))) ->
  (forall e, I e ->
     check_core (with_rd e (snd (core_candidate e))) (fst (core_candidate e))
       = Some true ->
     I (with_cores (with_rd e (snd (core_candidate e)))
                   (cores e ++ [fst (core_candidate e)]))) ->
  forall (fuel : nat) (e : Env S) (n : Z) (e' : Env S),
    I e -> cores_loop fuel e n = Returned e' -> I e'.
Proof.
  intros Hrej Hacc. induction fuel as [| fuel IH]; intros e n e' He Hrun.
  - discriminate.
  - rewrite cores_loop_step in Hrun. cbv zeta in Hrun.
    destruct (check_core _ _) as [[|] |] eqn:Hchk.
    + specialize (Hacc e He Hchk).
      destruct (n - 1 =? 0)%Z.
      * injection Hrun as <-. exact Hacc.
      * exact (IH _ _ _ Hacc Hrun).
    + specialize (Hrej e He).
      destruct (n =? 0)%Z.
      * injection Hrun as <-. exact Hrej.
      * exact (IH _ _ _ Hrej Hrun).
    + discriminate.
Qed.

Lemma obstacles_loop_invariant (I : Env S -> Prop) :
  (forall e, I e -> I (with_rd e (snd (obstacle_candidate e)))) ->
  (forall e, I e ->
     check_obstacle (with_rd e (snd (obstacle_candidate e))) (fst (obstacle_candidate e)) = true ->
     I (with_obstacles (with_rd e (snd (obstacle_candidate e)))
                       (obstacles e ++ [fst (obstacle_candidate e)]))) ->
  forall (fuel : nat) (e : Env S) (n : Z) (e' : Env S),
    I e -> obstacles_loop fuel e n = Returned e' -> I e'.
Proof.
  intros Hrej Hacc. induction fuel as [| fuel IH]; intros e n e' He Hrun.
  - discriminate.
  - rewrite obstacles_loop_step in Hrun. cbv zeta in Hrun.
    destruct (check_obstacle _ _) eqn:Hchk.
    + specialize (Hacc e He Hchk).
      destruct (n - 1 =? 0)%Z.
      * injection Hrun as <-. exact Hacc.
      * exact (IH _ _ _ Hacc Hrun).
    + specialize (Hrej e He).
      destruct (n =? 0)%Z.
      * injection Hrun as <-. exact Hrej.
      * exact (IH _ _ _ Hrej Hrun).
Qed.

(** With nonzero parameters the first loop does not raise; the second
    never does. *)
Lemma cores_loop_not_raised (fuel : nat) (e : Env S) (n : Z) :
  nonzero_params e -> cores_loop fuel e n <> Raised.
Proof.
  revert e n. induction fuel as [| fuel IH]; intros e n Hnz.
  - discriminate.
  - rewrite cores_loop_step. cbv zeta.
    destruct (check_core_loop_returns (with_rd e (snd (core_candidate e)))
                (cores e) (fst (core_candidate e)) Hnz) as [b Hb].
    unfold check_core. simpl cores. rewrite Hb. destruct b.
    + destruct (n - 1 =? 0)%Z; [discriminate | apply IH; exact Hnz].
    + destruct (n =? 0)%Z; [discriminate | apply IH; exact Hnz].
Qed.

Lemma obstacles_loop_not_raised (fuel : nat) (e : Env S) (n : Z) :
  obstacles_loop fuel e n <> Raised.
Proof.
  revert e n. induction fuel as [| fuel IH]; intros e n.
  - discriminate.
  - rewrite obstacles_loop_step. cbv zeta.
    destruct (check_obstacle _ _).
    + destruct (n - 1 =? 0)%Z; [discriminate | apply IH].
    + destruct (n =? 0)%Z; [discriminate | apply IH].
Qed.

(** The loop is left exactly when the count has been used up. *)
Lemma cores_loop_count (fuel : nat) (e : Env S) (n : Z) (e' : Env S) :
  cores_loop fuel e n = Returned e' ->
  Z.of_nat (length (cores e')) = (Z.of_nat (length (cores e)) + n)%Z.
Proof.
  revert e n. induction fuel as [| fuel IH]; intros e n Hrun.
  - discriminate.
  - rewrite cores_loop_step in Hrun. cbv zeta in Hrun.
    destruct (check_core _ _) as [[|] |]; [| | discriminate].
    + destruct (n - 1 =? 0)%Z eqn:Hn.
      * injection Hrun as <-. apply Z.eqb_eq in Hn. simpl.
        rewrite length_app. simpl. lia.
      * apply IH in Hrun. simpl in Hrun. rewrite length_app in Hrun.
        simpl in Hrun. lia.
    + destruct (n =? 0)%Z eqn:Hn.
      * injection Hrun as <-. apply Z.eqb_eq in Hn. simpl. lia.
      * apply IH in Hrun. simpl in Hrun. lia.
Qed.

Lemma obstacles_loop_count (fuel : nat) (e : Env S) (n : Z) (e' : Env S) :
  obstacles_loop fuel e n = Returned e' ->
  Z.of_nat (length (obstacles e')) = (Z.of_nat (length (obstacles e)) + n)%Z.
Proof.
  revert e n. induction fuel as [| fuel IH]; intros e n Hrun.
  - discriminate.
  - rewrite obstacles_loop_step in Hrun. cbv zeta in Hrun.
    destruct (check_obstacle _ _).
    + destruct (n - 1 =? 0)%Z eqn:Hn.
      * injection Hrun as <-. apply Z.eqb_eq in Hn. simpl.
        rewrite length_app. simpl. lia.
      * apply IH in Hrun. simpl in Hrun. rewrite length_app in Hrun.
        simpl in Hrun. lia.
    + destruct (n =? 0)%Z eqn:Hn.
      * injection Hrun as <-. apply Z.eqb_eq in Hn. simpl. lia.
      * apply IH in Hrun. simpl in Hrun. lia.
Qed.

(** More iterations do not change the result of a loop that is left. *)
Lemma cores_loop_more_fuel (fuel : nat) (e : Env S) (n : Z) (e' : Env S) :
  cores_loop fuel e n = Returned e' ->
  forall fuel' : nat, (fuel <= fuel')%nat -> cores_loop fuel' e n = Returned e'.
Proof.
  revert e n. induction fuel as [| fuel IH]; intros e n Hrun fuel' Hle.
  - discriminate.
  - destruct fuel' as [| fuel']; [lia |].
    rewrite cores_loop_step in *. cbv zeta in *.
    destruct (check_core _ _) as [[|] |]; [| | discriminate].
    + destruct (n - 1 =? 0)%Z; [assumption | apply IH; [assumption | lia]].
    + destruct (n =? 0)%Z; [assumption | apply IH; [assumption | lia]].
Qed.

Lemma obstacles_loop_more_fuel (fuel : nat) (e : Env S) (n : Z) (e' : Env S) :
  obstacles_loop fuel e n = Returned e' ->
  forall fuel' : nat, (fuel <= fuel')%nat -> obstacles_loop fuel' e n = Returned e'.
Proof.
  revert e n. induction fuel as [| fuel IH]; intros e n Hrun fuel' Hle.
  - discriminate.
  - destruct fuel' as [| fuel']; [lia |].
    rewrite obstacles_loop_step in *. cbv zeta in *.
    destruct (check_obstacle _ _).
    + destruct (n - 1 =? 0)%Z; [assumption | apply IH; [assumption | lia]].
    + destruct (n =? 0)%Z; [assumption | apply IH; [assumption | lia]].
Qed.

End LoopFacts.

(** ** What [reset] establishes *)

Section ResetFacts.

Context {S : Type} `{RS : RandomState S} `{KD : KDTree}.

Lemma same_params_refl (e : Env S) : same_params e e.
Proof. repeat split. Qed.

Lemma cores_loop_accepted (fuel : nat) (e : Env S) (n : Z) (e' : Env S) :
  accepted_cores e -> cores_loop fuel e n = Returned e' -> accepted_cores e'.
Proof.
  apply (cores_loop_invariant accepted_cores).
  - intros x Hx. exact Hx.
  - intros x Hx Hchk. unfold accepted_cores.
    apply ForallOrdPairs_snoc; [exact Hx |].
    apply check_core_loop_true in Hchk. exact Hchk.
Qed.

Lemma cores_loop_frame (fuel : nat) (e : Env S) (n : Z) (e' : Env S) :
  cores_loop fuel e n = Returned e' ->
  same_params e e' /\ obstacles e' = obstacles e /\
  core_centers e' = core_centers e /\ robot e' = robot e.
Proof.
  apply (cores_loop_invariant
           (fun x => same_params e x /\ obstacles x = obstacles e /\
                     core_centers x = core_centers e /\ robot x = robot e)).
  - intros x Hx. exact Hx.
  - intros x Hx _. exact Hx.
  - repeat split.
Qed.

Lemma obstacles_loop_accepted (fuel : nat) (e : Env S) (n : Z) (e' : Env S) :
  accepted_obstacles e -> obstacles_loop fuel e n = Returned e' ->
  accepted_obstacles e'.
Proof.
  apply (obstacles_loop_invariant accepted_obstacles).
  - intros x Hx. exact Hx.
  - intros x [Hc Ho] Hchk. apply check_obstacle_true in Hchk.
    destruct Hchk as [Hchk_c Hchk_o]. split.
    + apply Forall_app. split; [exact Hc |].
      apply check_obstacle_cores_true in Hchk_c.
      constructor; [exact Hchk_c | constructor].
    + apply ForallOrdPairs_snoc; [exact Ho |].
      apply check_obstacle_obstacles_true in Hchk_o. exact Hchk_o.
Qed.

Lemma obstacles_loop_frame (fuel : nat) (e : Env S) (n : Z) (e' : Env S) :
  obstacles_loop fuel e n = Returned e' ->
  same_params e e' /\ cores e' = cores e /\
  core_centers e' = core_centers e /\ robot e' = robot e.
Proof.
  apply (obstacles_loop_invariant
           (fun x => same_params e x /\ cores x = cores e /\
                     core_centers x = core_centers e /\ robot x = robot e)).
  - intros x Hx. exact Hx.
  - intros x Hx _. exact Hx.
  - repeat split.
Qed.

(** The stages of a [reset] that returns. *)
Lemma reset_returned (fuel : nat) (e : Env S) (nc no : Z) (e' : Env S) :
  reset fuel e nc no = Returned e' ->
  exists (e1 e2 : Env S) (current_v : vec64),
    cores_loop fuel (with_obstacles (with_cores e []) []) nc = Returned e1 /\
    cores e1 <> [] /\
    obstacles_loop fuel (with_core_centers e1 (map center_of (cores e1))) no
      = Returned e2 /\
    get_velocity e2 (fst (initial e2)) (snd (initial e2)) = Some current_v /\
    e' = with_robot e2
           (set_state (robot e2) (fst (initial e2)) (snd (initial e2)) current_v).
Proof.
  unfold reset. intros H.
  destruct (cores_loop fuel _ nc) as [e1 | |] eqn:H1; try discriminate.
  destruct (cores e1) as [| c0 cs] eqn:Hcs; [discriminate |].
  destruct (obstacles_loop fuel _ no) as [e2 | |] eqn:H2; try discriminate.
  destruct (get_velocity e2 _ _) as [v |] eqn:Hv; [| discriminate].
  injection H as <-. exists e1, e2, v. rewrite Hcs.
  repeat split; try assumption. discriminate.
Qed.

Lemma check_core_pair_params (a b : Env S) (ci cj : Core) :
  same_params a b -> check_core_pair b ci cj = check_core_pair a ci cj.
Proof.
  intros (_ & _ & Hr & Hv & Hp & _). unfold check_core_pair.
  rewrite Hr, Hv, Hp. reflexivity.
Qed.

Lemma accepted_cores_params (a b : Env S) :
  same_params a b -> cores b = cores a -> accepted_cores a -> accepted_cores b.
Proof.
  intros Hp Hc Ha. unfold accepted_cores in *. rewrite Hc.
  eapply ForallOrdPairs_weaken; [| exact Ha].
  intros ci cj Hij. cbv beta. rewrite (check_core_pair_params a b); assumption.
Qed.

Lemma accepted_obstacles_params (a b : Env S) :
  same_params a b -> cores b = cores a -> obstacles b = obstacles a ->
  accepted_obstacles a -> accepted_obstacles b.
Proof.
  intros (_ & _ & Hr & _) Hc Ho [H1 H2]. unfold accepted_obstacles in *.
  rewrite Hc, Ho. split; [| exact H2].
  eapply Forall_impl; [| exact H1].
  intros o. unfold clear_of_cores. rewrite Hr. trivial.
Qed.

Lemma same_params_trans (a b c : Env S) :
  same_params a b -> same_params b c -> same_params a c.
Proof.
  unfold same_params. intros H1 H2.
  destruct H1 as (?&?&?&?&?&?&?&?&?). destruct H2 as (?&?&?&?&?&?&?&?&?).
  repeat split; congruence.
Qed.

(** After a [reset] that returns: the parameters are those it started
    with, every core and every obstacle was accepted by its check, the
    index holds the centers of the cores, and the counts asked for were
    reached. *)
Lemma reset_sound (fuel : nat) (e : Env S) (nc no : Z) (e' : Env S) :
  reset fuel e nc no = Returned e' ->
  same_params e e' /\ accepted_cores e' /\ accepted_obstacles e' /\
  core_centers e' = map center_of (cores e') /\
  Z.of_nat (length (cores e')) = nc /\
  Z.of_nat (length (obstacles e')) = no.
Proof.
  intros H. apply reset_returned in H.
  destruct H as (e1 & e2 & v & H1 & _ & H2 & _ & ->).
  pose proof (cores_loop_frame _ _ _ _ H1) as (Hp1 & Ho1 & _ & _).
  pose proof (cores_loop_count _ _ _ _ H1) as Hn1.
  assert (Hacc1 : accepted_cores e1).
  { eapply cores_loop_accepted; [| exact H1]. constructor. }
  pose proof (obstacles_loop_frame _ _ _ _ H2) as (Hp2 & Hc2 & Hk2 & _).
  pose proof (obstacles_loop_count _ _ _ _ H2) as Hn2.
  assert (Hacc2 : accepted_obstacles e2).
  { eapply obstacles_loop_accepted; [| exact H2].
    unfold accepted_obstacles. simpl. rewrite Ho1. simpl.
    split; constructor. }
  simpl in Hc2, Hk2, Hn1, Hn2, Ho1. rewrite Ho1 in Hn2. simpl in Hn2.
  assert (Hp1' : same_params e e1) by exact Hp1.
  assert (Hp2' : same_params e1 e2) by exact Hp2.
  assert (Hp : same_params e e2) by (eapply same_params_trans; eassumption).
  split; [exact Hp |].
  split; [apply (accepted_cores_params e1 _ Hp2' Hc2 Hacc1) |].
  split; [exact Hacc2 |].
  split; [simpl; rewrite Hk2, Hc2; reflexivity |].
  split; simpl; [rewrite Hc2 |]; lia.
Qed.

End ResetFacts.

(** ** The pairwise conditions behind [check_core] *)

Section PairFacts.

Context {S : Type}.

Lemma check_core_pair_sym (e : Env S) (ci cj : Core) :
  check_core_pair e ci cj = check_core_pair e cj ci.
Proof.
  unfold check_core_pair.
  rewrite (distance_sym (core_x ci) (core_y ci) (core_x cj) (core_y cj)).
  rewrite (Rmax_comm (Gamma ci) (Gamma cj)), (Rmin_comm (Gamma ci) (Gamma cj)).
  replace (Bool.eqb (clockwise ci) (clockwise cj))
    with (Bool.eqb (clockwise cj) (clockwise ci))
    by (destruct (clockwise ci), (clockwise cj); reflexivity).
  destruct (Bool.eqb (clockwise cj) (clockwise ci)); [| reflexivity].
  unfold Py.div. destruct (NP.Req0b (2 * PI * v_rel_max e)); [reflexivity |].
  rewrite (Rplus_comm (Gamma ci / _)). reflexivity.
Qed.

(** An accepted pair of the same rotation sense: the division by
    [v_rel_max] did not raise and the cores are far enough apart. *)
Lemma check_core_pair_same (e : Env S) (ci cj : Core) :
  clockwise ci = clockwise cj ->
  (check_core_pair e ci cj = Some true <->
   v_rel_max e <> 0 /\
   boundary e ci + boundary e cj <= core_distance ci cj).
Proof.
  intros Hdir. unfold check_core_pair, boundary, core_distance.
  rewrite Hdir, Bool.eqb_reflx.
  destruct (Req_dec (v_rel_max e) 0) as [Hv | Hv].
  - rewrite Hv, Rmult_0_r, py_div_none.
    split; [discriminate | intros [H _]; now elim H].
  - rewrite !py_div_some by (now apply two_pi_nonzero).
    destruct (NP.Rltb _ _) eqn:E.
    + apply Rltb_true in E. split; [discriminate | intros [_ H]; lra].
    + apply Rltb_false in E. split; [intros _; split; assumption | reflexivity].
Qed.

(** A pair of opposite rotation senses whose stronger core has a
    positive strength: at distance [2r] the quotient is [+inf] and the
    pair is refused; elsewhere the pair is accepted exactly when the
    compared speeds are in order. *)
Lemma check_core_pair_opposite_touching (e : Env S) (ci cj : Core) :
  r e <> 0 -> clockwise ci <> clockwise cj ->
  0 < Rmax (Gamma ci) (Gamma cj) ->
  core_distance ci cj - 2 * r e = 0 ->
  check_core_pair e ci cj = Some false.
Proof.
  intros Hr Hdir Hpos Hd. unfold check_core_pair.
  fold (core_distance ci cj). rewrite Hd.
  replace (Bool.eqb (clockwise ci) (clockwise cj)) with false
    by (destruct (clockwise ci), (clockwise cj); simpl; congruence).
  rewrite Rmult_0_r, (div_by_zero_pos _ Hpos).
  rewrite py_div_some by (now apply two_pi_nonzero).
  reflexivity.
Qed.

Lemma check_core_pair_opposite (e : Env S) (ci cj : Core) :
  r e <> 0 -> clockwise ci <> clockwise cj ->
  core_distance ci cj - 2 * r e <> 0 ->
  (check_core_pair e ci cj = Some true <->
   Rmax (Gamma ci) (Gamma cj) / (2 * PI * (core_distance ci cj - 2 * r e))
   <= p e * (Rmin (Gamma ci) (Gamma cj) / (2 * PI * r e))).
Proof.
  intros Hr Hdir Hd. unfold check_core_pair.
  fold (core_distance ci cj).
  replace (Bool.eqb (clockwise ci) (clockwise cj)) with false
    by (destruct (clockwise ci), (clockwise cj); simpl; congruence).
  rewrite py_div_some, div_finite by (now apply two_pi_nonzero).
  unfold NP.gt. simpl. destruct (NP.Rltb _ _) eqn:E.
  - apply Rltb_true in E. split; [discriminate | lra].
  - apply Rltb_false in E. split; [intros _; exact E | reflexivity].
Qed.

Lemma obstacles_apart_sym (o1 o2 : Obstacle) :
  obstacles_apart o1 o2 -> obstacles_apart o2 o1.
Proof.
  unfold obstacles_apart, obstacle_distance. intros H.
  rewrite distance_sym. lra.
Qed.

End PairFacts.

Section PlacementInvariants.

Context {S : Type} `{RS : RandomState S} `{KD : KDTree}.

Lemma accepted_cores_nth (e : Env S) (i j : nat) (ci cj : Core) :
  accepted_cores e -> i <> j ->
  nth_error (cores e) i = Some ci -> nth_error (cores e) j = Some cj ->
  check_core_pair e ci cj = Some true.
Proof.
  intros Hacc Hij Hi Hj.
  apply (ForallOrdPairs_nth (fun a b => check_core_pair e a b = Some true) (cores e))
    with (i := i) (j := j); try assumption.
  intros a b Hab. rewrite check_core_pair_sym. exact Hab.
Qed.

End PlacementInvariants.

(** C1.  After a [reset] that returns (any stream state, so any seed,
    and any counts), two distinct cores with the same rotation sense lie
    at a distance of at least [boundary i + boundary j], with
    [boundary c = Gamma c / (2 pi v_rel_max)]. *)
Theorem same_sense_cores_apart
    {S : Type} `{RS : RandomState S} `{KD : KDTree}
    (fuel : nat) (e : Env S) (num_cores num_obs : Z) (e' : Env S) :
  reset fuel e num_cores num_obs = Returned e' ->
  forall (i j : nat) (ci cj : Core),
    i <> j ->
    nth_error (cores e') i = Some ci -> nth_error (cores e') j = Some cj ->
    clockwise ci = clockwise cj ->
    v_rel_max e' <> 0 /\
    boundary e' ci + boundary e' cj <= core_distance ci cj.
Proof.
  intros Hrun i j ci cj Hij Hi Hj Hdir.
  apply reset_sound in Hrun. destruct Hrun as (_ & Hacc & _).
  apply (check_core_pair_same e' ci cj Hdir).
  eapply accepted_cores_nth; eassumption.
Qed.

(** C3.  After a [reset] that returns, every obstacle is farther than
    [r + o.r] from every core center, and two distinct obstacles are
    farther apart than the sum of their radii; both strictly. *)
Theorem obstacles_clear
    {S : Type} `{RS : RandomState S} `{KD : KDTree}
    (fuel : nat) (e : Env S) (num_cores num_obs : Z) (e' : Env S) :
  reset fuel e num_cores num_obs = Returned e' ->
  (forall (c : Core) (o : Obstacle),
     In c (cores e') -> In o (obstacles e') ->
     r e' + obs_r o < core_obstacle_distance c o) /\
  (forall (i j : nat) (o1 o2 : Obstacle),
     i <> j ->
     nth_error (obstacles e') i = Some o1 -> nth_error (obstacles e') j = Some o2 ->
     obs_r o1 + obs_r o2 < obstacle_distance o1 o2).
Proof.
  intros Hrun. apply reset_sound in Hrun.
  destruct Hrun as (_ & _ & [Hclear Hapart] & _). split.
  - intros c o Hc Ho. rewrite Forall_forall in Hclear.
    specialize (Hclear o Ho). unfold clear_of_cores in Hclear.
    rewrite Forall_forall in Hclear. apply Hclear. exact Hc.
  - intros i j o1 o2 Hij Hi Hj.
    apply (ForallOrdPairs_nth obstacles_apart (obstacles e')) with (i := i) (j := j);
      try assumption.
    intros a b. apply obstacles_apart_sym.
Qed.

(** ** What the loops can draw *)

Section DrawFacts.

Context {S : Type} `{RS : RandomState S} `{KD : KDTree}.

Hypothesis stream_ok : RandomState_ok.

Lemma uniform_in_uniform (low high : R) (s : S) :
  in_uniform low high (fst (uniform low high s)).
Proof.
  unfold uniform, in_uniform. pose proof (stream_ok s) as Hu.
  destruct (random_sample s) as [u s']. simpl in *.
  exists u. split; [exact Hu | reflexivity].
Qed.

Lemma core_candidate_drawable (e : Env S) :
  drawable_core e (fst (core_candidate e)).
Proof.
  unfold core_candidate, drawable_core.
  pose proof (uniform_in_uniform 0 (width e) (rd e)) as Hx.
  destruct (uniform 0 (width e) (rd e)) as [cx s1].
  pose proof (uniform_in_uniform 0 (height e) s1) as Hy.
  destruct (uniform 0 (height e) s1) as [cy s2].
  destruct (binomial s2) as [direction s3].
  pose proof (uniform_in_uniform (fst (v_range e)) (snd (v_range e)) s3) as Hv.
  destruct (uniform (fst (v_range e)) (snd (v_range e)) s3) as [v_edge s4].
  simpl in *. repeat split; try assumption.
  exists v_edge. split; [assumption | reflexivity].
Qed.

Lemma obstacle_candidate_drawable (e : Env S) :
  drawable_obstacle e (fst (obstacle_candidate e)).
Proof.
  unfold obstacle_candidate, drawable_obstacle.
  pose proof (uniform_in_uniform 0 (width e) (rd e)) as Hx.
  destruct (uniform 0 (width e) (rd e)) as [ox s1].
  pose proof (uniform_in_uniform 0 (height e) s1) as Hy.
  destruct (uniform 0 (height e) s1) as [oy s2].
  pose proof (uniform_in_uniform (fst (obs_r_range e)) (snd (obs_r_range e)) s2) as Hr.
  destruct (uniform (fst (obs_r_range e)) (snd (obs_r_range e)) s2) as [rad s3].
  simpl in *. repeat split; assumption.
Qed.

Lemma cores_loop_drawable (fuel : nat) (e : Env S) (n : Z) (e' : Env S) :
  Forall (drawable_core e) (cores e) ->
  cores_loop fuel e n = Returned e' ->
  Forall (drawable_core e') (cores e').
Proof.
  apply (cores_loop_invariant (fun x => Forall (drawable_core x) (cores x))).
  - intros x Hx. exact Hx.
  - intros x Hx _. apply Forall_app. split; [exact Hx |].
    constructor; [| constructor]. apply (core_candidate_drawable x).
Qed.

Lemma obstacles_loop_drawable (fuel : nat) (e : Env S) (n : Z) (e' : Env S) :
  Forall (drawable_obstacle e) (obstacles e) ->
  obstacles_loop fuel e n = Returned e' ->
  Forall (drawable_obstacle e') (obstacles e').
Proof.
  apply (obstacles_loop_invariant (fun x => Forall (drawable_obstacle x) (obstacles x))).
  - intros x Hx. exact Hx.
  - intros x Hx _. apply Forall_app. split; [exact Hx |].
    constructor; [| constructor]. apply (obstacle_candidate_drawable x).
Qed.

Lemma drawable_core_params (a b : Env S) (c : Core) :
  same_params a b -> drawable_core a c -> drawable_core b c.
Proof.
  intros (Hw & Hh & Hr & _ & _ & Hv & _). unfold drawable_core.
  rewrite Hw, Hh, Hr, Hv. trivial.
Qed.

Lemma drawable_obstacle_params (a b : Env S) (o : Obstacle) :
  same_params a b -> drawable_obstacle a o -> drawable_obstacle b o.
Proof.
  intros (Hw & Hh & _ & _ & _ & _ & Ho & _). unfold drawable_obstacle.
  rewrite Hw, Hh, Ho. trivial.
Qed.

Lemma reset_drawable (fuel : nat) (e : Env S) (nc no : Z) (e' : Env S) :
  reset fuel e nc no = Returned e' ->
  Forall (drawable_core e') (cores e') /\
  Forall (drawable_obstacle e') (obstacles e').
Proof.
  intros H. apply reset_returned in H.
  destruct H as (e1 & e2 & v & H1 & _ & H2 & _ & ->).
  assert (Hd1 : Forall (drawable_core e1) (cores e1)).
  { eapply cores_loop_drawable; [| exact H1]. constructor. }
  pose proof (cores_loop_frame _ _ _ _ H1) as (_ & Ho1 & _ & _).
  pose proof (obstacles_loop_frame _ _ _ _ H2) as (Hp2 & Hc2 & _ & _).
  assert (Hp2' : same_params e1 e2) by exact Hp2.
  assert (Hd2 : Forall (drawable_obstacle e2) (obstacles e2)).
  { eapply obstacles_loop_drawable; [| exact H2].
    simpl. simpl in Ho1. rewrite Ho1. constructor. }
  simpl in Hc2. split; simpl.
  - rewrite Hc2. eapply Forall_impl; [| exact Hd1].
    intros c Hc. exact (drawable_core_params e1 _ c Hp2' Hc).
  - exact Hd2.
Qed.

(** A [reset] that returns ends with a placement of the counts asked
    for. *)
Lemma reset_placement (fuel : nat) (e : Env S) (nc no : Z) (e' : Env S) :
  reset fuel e nc no = Returned e' ->
  placement e' (cores e') (obstacles e') /\
  Z.of_nat (length (cores e')) = nc /\ Z.of_nat (length (obstacles e')) = no.
Proof.
  intros H. pose proof (reset_drawable _ _ _ _ _ H) as [Hdc Hdo].
  apply reset_sound in H. destruct H as (_ & Hac & [Hc Ho] & _ & Hnc & Hno).
  unfold placement. repeat split; assumption.
Qed.

Lemma drawable_core_strength (e : Env S) (c : Core) :
  0 < r e -> 0 < fst (v_range e) -> 0 < snd (v_range e) ->
  drawable_core e c -> 0 < Gamma c.
Proof.
  intros Hr Hlo Hhi (_ & _ & v & (u & Hu & Hv) & HG).
  rewrite HG. apply Rmult_lt_0_compat; [now apply two_pi_pos |].
  rewrite Hv. nra.
Qed.

End DrawFacts.

(** C2.  After a [reset] that returns, for two distinct cores with
    opposite rotation senses, with [Gamma_l] and [Gamma_s] the larger and
    the smaller strength and [d] the distance of the centers:
    [Gamma_l / (2 pi (d - 2r)) <= p * Gamma_s / (2 pi r)], and [d] is not
    [2r].  The core radius and the bounds of the speed range are
    positive and the raw draws lie in [0, 1). *)
Theorem opposite_sense_cores_bounded
    {S : Type} `{RS : RandomState S} `{KD : KDTree}
    (fuel : nat) (e : Env S) (num_cores num_obs : Z) (e' : Env S) :
  RandomState_ok ->
  0 < r e -> 0 < fst (v_range e) -> 0 < snd (v_range e) ->
  reset fuel e num_cores num_obs = Returned e' ->
  forall (i j : nat) (ci cj : Core),
    i <> j ->
    nth_error (cores e') i = Some ci -> nth_error (cores e') j = Some cj ->
    clockwise ci <> clockwise cj ->
    let Gamma_l := Rmax (Gamma ci) (Gamma cj) in
    let Gamma_s := Rmin (Gamma ci) (Gamma cj) in
    let d := core_distance ci cj in
    d - 2 * r e' <> 0 /\
    Gamma_l / (2 * PI * (d - 2 * r e')) <= p e' * Gamma_s / (2 * PI * r e').
Proof.
  intros Hok Hr Hlo Hhi Hrun i j ci cj Hij Hi Hj Hdir Gamma_l Gamma_s d.
  pose proof (reset_drawable Hok _ _ _ _ _ Hrun) as [Hdraw _].
  apply reset_sound in Hrun. destruct Hrun as (Hp & Hacc & _).
  destruct Hp as (_ & _ & Hr' & _ & _ & Hv' & _).
  assert (Hrpos : 0 < r e') by (rewrite Hr'; exact Hr).
  assert (HGi : 0 < Gamma ci).
  { rewrite Forall_forall in Hdraw.
    apply (drawable_core_strength e' ci); rewrite ?Hv'; try assumption.
    apply Hdraw. eapply nth_error_In; eassumption. }
  assert (Hpair : check_core_pair e' ci cj = Some true)
    by (eapply accepted_cores_nth; eassumption).
  assert (Hd : d - 2 * r e' <> 0).
  { intros Hd0.
    rewrite (check_core_pair_opposite_touching e' ci cj) in Hpair;
      try assumption; try discriminate; try lra.
    pose proof (Rmax_l (Gamma ci) (Gamma cj)). lra. }
  split; [exact Hd |].
  apply (check_core_pair_opposite e' ci cj) in Hpair; try assumption; try lra.
  replace (p e' * Gamma_s / (2 * PI * r e'))
    with (p e' * (Gamma_s / (2 * PI * r e'))) by (unfold Rdiv; ring).
  exact Hpair.
Qed.

(** ** The velocity field *)

Lemma vsum_permutation (l l' : list vec) : Permutation l l' -> vsum l = vsum l'.
Proof.
  induction 1 as [| a l l' _ IH | a b l | l l' l'' _ IH1 _ IH2]; simpl.
  - reflexivity.
  - rewrite IH. reflexivity.
  - unfold vadd. simpl. f_equal; ring.
  - congruence.
Qed.

Lemma map_nth_seq {A : Type} (d : A) (l : list A) :
  map (fun i => nth i l d) (seq 0 (length l)) = l.
Proof.
  induction l as [| a l IH]; simpl; [reflexivity |].
  f_equal. rewrite <- seq_shift, map_map. exact IH.
Qed.

Section VelocityFacts.

Context {S : Type} `{KD : KDTree}.

(** The occlusion check hands nothing to the loop over the cores: with
    or without it the loop body computes the same state. *)
Lemma velocity_step_filter_free (e : Env S) (x y : R) (c : Core)
    (st : list vec64 * vec64) :
  velocity_step e x y c st = velocity_step_unfiltered e x y c st.
Proof.
  destruct st as [v_radial_set v_velocity].
  unfold velocity_step, velocity_step_unfiltered.
  destruct (occlusion_loop (core_x c - x, core_y c - y) v_radial_set).
  reflexivity.
Qed.

Lemma velocity_loop_filter_free (e : Env S) (x y : R) (idx : list nat)
    (st : list vec64 * vec64) :
  velocity_loop e x y idx st = velocity_loop_unfiltered e x y idx st.
Proof.
  revert st. induction idx as [| i idx IH]; intros st; simpl.
  - reflexivity.
  - destruct (nth_error (cores e) i) as [c |]; [| reflexivity].
    rewrite velocity_step_filter_free.
    destruct (velocity_step_unfiltered e x y c st) as [st' |]; [apply IH | reflexivity].
Qed.

Lemma get_velocity_filter_free (e : Env S) (x y : R) :
  get_velocity e x y = get_velocity_unfiltered e x y.
Proof.
  unfold get_velocity, get_velocity_unfiltered.
  destruct (list_of (query (core_centers e) (x, y) (length (cores e))))
    as [idx |]; [| reflexivity].
  rewrite velocity_loop_filter_free. reflexivity.
Qed.

(** [get_velocity] once the query has handed back an array. *)
Lemma get_velocity_indices (e : Env S) (x y : R) (idx : list nat) :
  query (core_centers e) (x, y) (length (cores e)) = Indices idx ->
  get_velocity e x y =
  match velocity_loop e x y idx ([], (Fin 0, Fin 0)) with
  | Some (_, v_velocity) => Some v_velocity
  | None => None
  end.
Proof. intros Hq. unfold get_velocity. rewrite Hq. reflexivity. Qed.

(** A bare index is not iterable: [list(idx)] raises. *)
Lemma get_velocity_index (e : Env S) (x y : R) (i : nat) :
  query (core_centers e) (x, y) (length (cores e)) = Index i ->
  get_velocity e x y = None.
Proof. intros Hq. unfold get_velocity. rewrite Hq. reflexivity. Qed.

Lemma norm_pos_off_center (c : Core) (x y : R) :
  center_of c <> (x, y) -> 0 < norm (core_x c - x, core_y c - y).
Proof.
  intros Hne. rewrite norm_is_distance.
  pose proof (distance_nonneg (core_x c) (core_y c) x y) as Hnn.
  destruct (Req_dec (distance (core_x c) (core_y c) x y) 0) as [H0 | H0]; [| lra].
  apply distance_zero_iff in H0. destruct H0 as [Hx Hy].
  elim Hne. unfold center_of. rewrite Hx, Hy. reflexivity.
Qed.

(** Away from the center of the core, one pass of the loop body adds the
    core's contribution to a finite accumulator. *)
Lemma velocity_step_finite (e : Env S) (x y : R) (c : Core)
    (vs : list vec64) (a : vec) :
  center_of c <> (x, y) ->
  exists vs' : list vec64,
    velocity_step e x y c (vs, (Fin (fst a), Fin (snd a))) =
    Some (vs', (Fin (fst (vadd a (contribution e x y c))),
                Fin (snd (vadd a (contribution e x y c))))).
Proof.
  intros Hne. pose proof (norm_pos_off_center c x y Hne) as Hd.
  rewrite velocity_step_filter_free. unfold velocity_step_unfiltered.
  cbv zeta. cbn [fst snd].
  rewrite !div_finite by lra.
  rewrite (compute_speed_profile e (Gamma c) _ Hd).
  eexists. unfold contribution, rotation_of, vadd, vadd64, vscale64, mat_vec64, mat_vec.
  destruct (clockwise c); cbn [fst snd NP.add NP.mul]; reflexivity.
Qed.



Lemma velocity_step_returns (e : Env S) (x y : R) (c : Core)
    (st : list vec64 * vec64) :
  r e <> 0 -> exists st' : list vec64 * vec64, velocity_step e x y c st = Some st'.
Proof.
  intros Hr. rewrite velocity_step_filter_free. unfold velocity_step_unfiltered.
  destruct st as [vs v]. cbv zeta.
  destruct (compute_speed_returns e (Gamma c)
              (norm (core_x c - x, core_y c - y)) Hr) as [speed ->].
  eexists. reflexivity.
Qed.


(** The loop over a list of valid indices, none of them a core centered
    at the query point: the accumulator grows by the contributions of
    the cores visited. *)
Lemma velocity_loop_finite (e : Env S) (x y : R) (idx : list nat) :
  Forall (fun i => (i < length (cores e))%nat) idx ->
  (forall c, In c (cores e) -> center_of c <> (x, y)) ->
  forall (vs : list vec64) (a : vec),
  exists vs' : list vec64,
    velocity_loop e x y idx (vs, (Fin (fst a), Fin (snd a))) =
    Some (vs',
          (Fin (fst (vadd a (vsum (map (fun i => contribution e x y (nth i (cores e) no_core)) idx)))),
           Fin (snd (vadd a (vsum (map (fun i => contribution e x y (nth i (cores e) no_core)) idx)))))).
Proof.
  intros Hidx Hoff. induction idx as [| i idx IH]; intros vs a;
    cbn [velocity_loop map vsum fold_right].
  - exists vs. unfold vadd. simpl. rewrite !Rplus_0_r. reflexivity.
  - inversion Hidx as [| ? ? Hi Hrest]; subst.
    destruct (nth_error (cores e) i) as [c |] eqn:Hc.
    + rewrite (nth_error_nth _ _ no_core Hc).
      assert (Hin : In c (cores e)) by (eapply nth_error_In; eassumption).
      destruct (velocity_step_finite e x y c vs a (Hoff c Hin)) as [vs1 Hstep].
      unfold vec64 in *. rewrite Hstep.
      destruct (IH Hrest vs1 (vadd a (contribution e x y c))) as [vs2 ->].
      exists vs2. fold (vsum (map (fun i => contribution e x y (nth i (cores e) no_core)) idx)).
      unfold vadd. cbn [fst snd]. rewrite !Rplus_assoc. reflexivity.
    + apply nth_error_None in Hc. lia.
Qed.

Lemma ranking_of_cores (e : Env S) (q : vec) :
  KDTree_ok ->
  core_centers e = map center_of (cores e) ->
  (2 <= length (cores e))%nat ->
  exists idx : list nat,
    query (core_centers e) q (length (cores e)) = Indices idx /\
    Permutation idx (seq 0 (length (cores e))).
Proof.
  intros [_ Hok] Hidx Htwo.
  assert (Hlen : length (core_centers e) = length (cores e))
    by (rewrite Hidx, length_map; reflexivity).
  rewrite <- Hlen. apply Hok. lia.
Qed.

Lemma ranking_in_range (n : nat) (idx : list nat) :
  Permutation idx (seq 0 n) -> Forall (fun i => (i < n)%nat) idx.
Proof.
  intros Hperm. apply Forall_forall. intros i Hi.
  apply (Permutation_in _ Hperm) in Hi.
  apply in_seq in Hi. lia.
Qed.

(** Over a single core the query hands back a bare index and
    [list(idx)] raises, whatever the query point. *)
Lemma get_velocity_single_core (e : Env S) (x y : R) :
  KDTree_ok ->
  core_centers e = map center_of (cores e) ->
  length (cores e) = 1%nat ->
  get_velocity e x y = None.
Proof.
  intros [Hone _] Hidx Hlen.
  apply (get_velocity_index e x y 0).
  rewrite Hidx, Hlen.
  destruct (cores e) as [| c [| c' cs]]; try discriminate.
  cbn [map]. apply Hone.
Qed.

(** Off the core centers [get_velocity] is the sum of the
    contributions. *)
Lemma get_velocity_sum (e : Env S) (x y : R) :
  KDTree_ok ->
  core_centers e = map center_of (cores e) ->
  (2 <= length (cores e))%nat ->
  (forall c, In c (cores e) -> center_of c <> (x, y)) ->
  get_velocity e x y =
  Some (Fin (fst (velocity_sum e x y)), Fin (snd (velocity_sum e x y))).
Proof.
  intros Hok Hidx Htwo Hoff.
  destruct (ranking_of_cores e (x, y) Hok Hidx Htwo) as (idx & Hq & Hperm).
  rewrite (get_velocity_indices e x y idx Hq).
  pose proof (ranking_in_range _ _ Hperm) as Hrange.
  destruct (velocity_loop_finite e x y _ Hrange Hoff [] (0, 0)) as [vs' Hloop].
  cbn [fst snd] in Hloop. rewrite Hloop.
  assert (Hsum : vsum (map (fun i => contribution e x y (nth i (cores e) no_core)) idx)
                 = velocity_sum e x y).
  { unfold velocity_sum.
    transitivity
      (vsum (map (contribution e x y)
                 (map (fun i => nth i (cores e) no_core) (seq 0 (length (cores e)))))).
    - rewrite map_map. apply vsum_permutation. apply Permutation_map.
      exact Hperm.
    - rewrite map_nth_seq. reflexivity. }
  rewrite Hsum. unfold vadd. cbn [fst snd]. rewrite !Rplus_0_l. reflexivity.
Qed.


(** With a nonzero core radius the loop meets neither an index out of
    range nor a zero divisor that raises: [get_velocity] returns. *)
Lemma get_velocity_returns (e : Env S) (x y : R) :
  KDTree_ok -> r e <> 0 ->
  core_centers e = map center_of (cores e) ->
  (2 <= length (cores e))%nat ->
  exists v : vec64, get_velocity e x y = Some v.
Proof.
  intros Hok Hr Hidx Htwo.
  destruct (ranking_of_cores e (x, y) Hok Hidx Htwo) as (idx & Hq & Hperm).
  rewrite (get_velocity_indices e x y idx Hq).
  pose proof (ranking_in_range _ _ Hperm) as Hrange.
  clear Hperm Hq. revert Hrange.
  generalize ((@nil vec64), (Fin 0, Fin 0)).
  induction idx as [| i idx IH]; intros st Hrange; cbn [velocity_loop].
  - destruct st as [vs v]. exists v. reflexivity.
  - inversion Hrange as [| ? ? Hi Hrest]; subst.
    destruct (nth_error (cores e) i) as [ci |] eqn:Hci;
      [| apply nth_error_None in Hci; lia].
    destruct (velocity_step_returns e x y ci st Hr) as [st' ->].
    apply IH. exact Hrest.
Qed.

End VelocityFacts.

(** ** The recorded stream and the brute-force index keep their contracts *)

Lemma tape_stream_ok : @RandomState_ok tape TapeRandomState.
Proof.
  intros t. destruct t as [| k t]; simpl.
  - lra.
  - pose proof (Z.mod_pos_bound k 100 ltac:(lia)) as [Hlo Hhi].
    apply IZR_le in Hlo. apply IZR_lt in Hhi.
    unfold Rdiv. split; lra.
Qed.

Lemma rank_insert_permutation (d : R) (i : nat) (l : list (R * nat)) :
  Permutation (rank_insert d i l) ((d, i) :: l).
Proof.
  induction l as [| [d' j] l IH]; simpl.
  - apply Permutation_refl.
  - destruct (NP.Rleb d d').
    + apply Permutation_refl.
    + eapply Permutation_trans; [apply perm_skip; exact IH | apply perm_swap].
Qed.

Lemma rank_permutation (l : list (R * nat)) : Permutation (rank l) l.
Proof.
  induction l as [| [d i] l IH]; simpl.
  - apply Permutation_refl.
  - eapply Permutation_trans; [apply rank_insert_permutation |].
    apply perm_skip. exact IH.
Qed.

Lemma map_snd_combine {A B : Type} (l : list A) (l' : list B) :
  length l = length l' -> map snd (combine l l') = l'.
Proof.
  revert l'. induction l as [| a l IH]; intros [| b l'] Hlen; simpl in *;
    try reflexivity; try discriminate.
  f_equal. apply IH. lia.
Qed.

Lemma brute_query_all (pts : list vec) (q : vec) :
  Permutation (brute_query pts q (length pts)) (seq 0 (length pts)).
Proof.
  unfold brute_query.
  set (ds := map (fun pt => distance (fst pt) (snd pt) (fst q) (snd q)) pts).
  assert (Hlen : length ds = length (seq 0 (length pts)))
    by (unfold ds; rewrite length_map, length_seq; reflexivity).
  assert (Hperm : Permutation (map snd (rank (combine ds (seq 0 (length pts)))))
                              (seq 0 (length pts))).
  { rewrite <- (map_snd_combine ds (seq 0 (length pts)) Hlen) at 2.
    apply Permutation_map. apply rank_permutation. }
  rewrite firstn_all2; [exact Hperm |].
  rewrite (Permutation_length Hperm), length_seq. lia.
Qed.

Lemma brute_index_ok : @KDTree_ok BruteKDTree.
Proof.
  split.
  - intros pt q. reflexivity.
  - intros pts q Htwo. exists (brute_query pts q (length pts)).
    split; [| apply brute_query_all].
    cbn [query BruteKDTree]. unfold brute_result.
    destruct (length pts) as [| [| n]]; [lia | lia | reflexivity].
Qed.

(** ** [reset] does not raise *)

Section ResetOutcome.

Context {S : Type} `{RS : RandomState S} `{KD : KDTree}.

Lemma cores_loop_nonempty (fuel : nat) (e : Env S) (n : Z) (e' : Env S) :
  cores e = [] -> cores_loop fuel e n = Returned e' -> cores e' <> [].
Proof.
  intros Hnil Hrun. destruct fuel as [| fuel]; [discriminate |].
  rewrite cores_loop_step in Hrun. cbv zeta in Hrun.
  assert (Hchk : check_core (with_rd e (snd (core_candidate e)))
                            (fst (core_candidate e)) = Some true).
  { unfold check_core. simpl. rewrite Hnil. reflexivity. }
  rewrite Hchk in Hrun.
  destruct (n - 1 =? 0)%Z.
  - injection Hrun as <-. simpl. rewrite Hnil. discriminate.
  - revert Hrun.
    apply (cores_loop_invariant (fun x => cores x <> [])).
    + intros x Hx. exact Hx.
    + intros x Hx _. simpl. intros Happ. apply app_eq_nil in Happ.
      destruct Happ as [_ Habs]. discriminate.
    + simpl. rewrite Hnil. discriminate.
Qed.

Lemma loops_keep_radius (fuel : nat) (e : Env S) (nc no : Z) (e1 e2 : Env S) :
  cores_loop fuel (with_obstacles (with_cores e []) []) nc = Returned e1 ->
  obstacles_loop fuel (with_core_centers e1 (map center_of (cores e1))) no
    = Returned e2 ->
  r e2 = r e.
Proof.
  intros H1 H2.
  pose proof (cores_loop_frame _ _ _ _ H1) as ((_ & _ & Hr1 & _) & _).
  pose proof (obstacles_loop_frame _ _ _ _ H2) as ((_ & _ & Hr2 & _) & _).
  simpl in Hr1, Hr2. congruence.
Qed.

(** The first loop of [reset] leaves as many cores as were asked for. *)
Lemma reset_cores_count (fuel : nat) (e : Env S) (nc : Z) (e1 : Env S) :
  cores_loop fuel (with_obstacles (with_cores e []) []) nc = Returned e1 ->
  Z.of_nat (length (cores e1)) = nc.
Proof.
  intros H1. pose proof (cores_loop_count _ _ _ _ H1) as Hcount.
  simpl in Hcount. lia.
Qed.

(** With nonzero parameters [reset] raises only in its closing call of
    [get_velocity], after both loops have placed all that was asked. *)
Lemma reset_raised (fuel : nat) (e : Env S) (nc no : Z) :
  nonzero_params e -> reset fuel e nc no = Raised ->
  exists e1 e2 : Env S,
    cores_loop fuel (with_obstacles (with_cores e []) []) nc = Returned e1 /\
    obstacles_loop fuel (with_core_centers e1 (map center_of (cores e1))) no
      = Returned e2 /\
    get_velocity e2 (fst (initial e2)) (snd (initial e2)) = None.
Proof.
  intros Hnz. unfold reset.
  destruct (cores_loop fuel _ nc) as [e1 | |] eqn:H1; try discriminate.
  - assert (Hne : cores e1 <> [])
      by (apply (cores_loop_nonempty _ _ _ _ (eq_refl : cores (with_obstacles (with_cores e []) []) = []) H1)).
    destruct (cores e1) as [| c0 cs] eqn:Hcs; [now elim Hne |].
    destruct (obstacles_loop fuel _ no) as [e2 | |] eqn:H2; try discriminate.
    + destruct (get_velocity e2 _ _) as [v |] eqn:Hv; [discriminate |].
      intros _. exists e1, e2. rewrite Hcs. auto.
    + exfalso. exact (obstacles_loop_not_raised _ _ _ H2).
  - exfalso.
    exact (cores_loop_not_raised fuel (with_obstacles (with_cores e []) []) nc Hnz H1).
Qed.

(** With an index that ranks every core, nonzero parameters and a
    number of cores other than one, [reset] either returns or is still
    drawing candidates. *)
Lemma reset_not_raised (fuel : nat) (e : Env S) (nc no : Z) :
  KDTree_ok -> nonzero_params e -> nc <> 1%Z -> reset fuel e nc no <> Raised.
Proof.
  intros Hok Hnz Hnc Hraised.
  destruct (reset_raised fuel e nc no Hnz Hraised) as (e1 & e2 & H1 & H2 & Hv).
  pose proof (obstacles_loop_frame _ _ _ _ H2) as (_ & Hc2 & Hk2 & _).
  simpl in Hc2, Hk2.
  assert (Hidx : core_centers e2 = map center_of (cores e2))
    by (rewrite Hk2, Hc2; reflexivity).
  assert (Hr2 : r e2 <> 0)
    by (rewrite (loops_keep_radius _ _ _ _ _ _ H1 H2); apply Hnz).
  assert (Hne : cores e1 <> [])
    by (apply (cores_loop_nonempty _ _ _ _ (eq_refl : cores (with_obstacles (with_cores e []) []) = []) H1)).
  assert (Htwo : (2 <= length (cores e2))%nat).
  { pose proof (reset_cores_count _ _ _ _ H1) as Hcount.
    rewrite Hc2. destruct (cores e1) as [| c0 [| c1 cs]]; cbn [length] in *;
      [congruence | lia | lia]. }
  destruct (get_velocity_returns e2 (fst (initial e2)) (snd (initial e2))
              Hok Hr2 Hidx Htwo) as [v Hv'].
  congruence.
Qed.

(** Asked for exactly one core, [reset] cannot return: once both loops
    are through, the closing [get_velocity] raises. *)
Lemma reset_single_core (fuel : nat) (e : Env S) (no : Z) (e' : Env S) :
  KDTree_ok -> reset fuel e 1 no <> Returned e'.
Proof.
  intros Hok H.
  destruct (reset_returned _ _ _ _ _ H) as (e1 & e2 & v & H1 & Hne & H2 & Hv & _).
  pose proof (obstacles_loop_frame _ _ _ _ H2) as (_ & Hc2 & Hk2 & _).
  simpl in Hc2, Hk2.
  assert (Hidx : core_centers e2 = map center_of (cores e2))
    by (rewrite Hk2, Hc2; reflexivity).
  pose proof (reset_cores_count _ _ _ _ H1) as Hcount.
  assert (Hone : length (cores e2) = 1%nat) by (rewrite Hc2; lia).
  rewrite (get_velocity_single_core e2 _ _ Hok Hidx Hone) in Hv.
  discriminate.
Qed.

(** So a [reset] that returns has placed two cores or more. *)
Lemma reset_two_cores (fuel : nat) (e : Env S) (nc no : Z) (e' : Env S) :
  KDTree_ok -> reset fuel e nc no = Returned e' ->
  (2 <= length (cores e'))%nat.
Proof.
  intros Hok H.
  assert (Hnc : nc <> 1%Z).
  { intros ->. exact (reset_single_core fuel e no e' Hok H). }
  destruct (reset_returned _ _ _ _ _ H) as (e1 & e2 & v & H1 & Hne & H2 & _ & ->).
  pose proof (obstacles_loop_frame _ _ _ _ H2) as (_ & Hc2 & _ & _).
  pose proof (reset_cores_count _ _ _ _ H1) as Hcount.
  simpl in Hc2. simpl. rewrite Hc2.
  destruct (cores e1) as [| c0 [| c1 cs]]; cbn [length] in *;
    [congruence | lia | lia].
Qed.

(** A [reset] that returns gives the same result with more iterations
    granted. *)
Lemma reset_more_fuel (fuel : nat) (e : Env S) (nc no : Z) (e' : Env S) :
  reset fuel e nc no = Returned e' ->
  forall fuel' : nat, (fuel <= fuel')%nat -> reset fuel' e nc no = Returned e'.
Proof.
  intros H fuel' Hle. pose proof (reset_returned _ _ _ _ _ H) as
    (e1 & e2 & v & H1 & Hne & H2 & Hv & ->).
  unfold reset.
  rewrite (cores_loop_more_fuel _ _ _ _ H1 fuel' Hle).
  destruct (cores e1) as [| c0 cs] eqn:Hcs; [now elim Hne |].
  rewrite (obstacles_loop_more_fuel _ _ _ _ H2 fuel' Hle).
  rewrite Hv. reflexivity.
Qed.

(** The converse of [reset_returned]. *)
Lemma reset_stages (fuel : nat) (e : Env S) (nc no : Z) (e1 e2 : Env S) :
  KDTree_ok -> r e <> 0 -> nc <> 1%Z ->
  cores_loop fuel (with_obstacles (with_cores e []) []) nc = Returned e1 ->
  obstacles_loop fuel (with_core_centers e1 (map center_of (cores e1))) no
    = Returned e2 ->
  exists v : vec64,
    reset fuel e nc no =
    Returned (with_robot e2
                (set_state (robot e2) (fst (initial e2)) (snd (initial e2)) v)).
Proof.
  intros Hok Hr Hnc H1 H2. unfold reset. rewrite H1.
  assert (Hne : cores e1 <> [])
    by (apply (cores_loop_nonempty _ _ _ _ (eq_refl : cores (with_obstacles (with_cores e []) []) = []) H1)).
  pose proof (obstacles_loop_frame _ _ _ _ H2) as (_ & Hc2 & Hk2 & _).
  simpl in Hc2, Hk2.
  assert (Hidx : core_centers e2 = map center_of (cores e2))
    by (rewrite Hk2, Hc2; reflexivity).
  assert (Hr2 : r e2 <> 0)
    by (rewrite (loops_keep_radius _ _ _ _ _ _ H1 H2); exact Hr).
  assert (Htwo : (2 <= length (cores e2))%nat).
  { pose proof (reset_cores_count _ _ _ _ H1) as Hcount.
    rewrite Hc2. destruct (cores e1) as [| c0 [| c1 cs]]; cbn [length] in *;
      [congruence | lia | lia]. }
  destruct (get_velocity_returns e2 (fst (initial e2)) (snd (initial e2))
              Hok Hr2 Hidx Htwo) as [v Hv].
  exists v. destruct (cores e1) as [| c0 cs] eqn:Hcs; [now elim Hne |].
  rewrite H2, Hv. reflexivity.
Qed.

End ResetOutcome.

(** ** A recorded run of [reset] *)

Lemma distance_horizontal (x1 x2 y : R) : distance x1 y x2 y = Rabs (x1 - x2).
Proof.
  unfold distance. cbv zeta.
  replace ((x1 - x2) * (x1 - x2) + (y - y) * (y - y)) with (Rsqr (x1 - x2))
    by (unfold Rsqr; ring).
  apply sqrt_Rsqr_abs.
Qed.

Lemma tape_uniform (low high : R) (k : Z) (t : tape) :
  uniform low high (k :: t) = (low + (high - low) * (IZR (k mod 100) / 100), t).
Proof. reflexivity. Qed.

Lemma scene_core_candidate (k1 k2 k3 k4 : Z) (t : tape) (cs : list Core)
    (os : list Obstacle) (cen : list vec) (rb : Robot) :
  core_candidate (scene (k1 :: k2 :: k3 :: k4 :: t) cs os cen rb) =
  (mkCore (0 + (50 - 0) * (IZR (k1 mod 100) / 100))
          (0 + (50 - 0) * (IZR (k2 mod 100) / 100))
          (Z.odd k3)
          (2 * PI * (1/2) * (5 + (10 - 5) * (IZR (k4 mod 100) / 100))),
   t).
Proof. reflexivity. Qed.

Lemma scene_obstacle_candidate (k1 k2 k3 : Z) (t : tape) (cs : list Core)
    (os : list Obstacle) (cen : list vec) (rb : Robot) :
  obstacle_candidate (scene (k1 :: k2 :: k3 :: t) cs os cen rb) =
  (mkObstacle (0 + (50 - 0) * (IZR (k1 mod 100) / 100))
              (0 + (50 - 0) * (IZR (k2 mod 100) / 100))
              (1 + (5 - 1) * (IZR (k3 mod 100) / 100)),
   t).
Proof. reflexivity. Qed.

(** One accepted candidate of either loop on a recorded stream. *)
Lemma scene_core_accepted (fuel : nat) (k1 k2 k3 k4 : Z) (t : tape)
    (cs : list Core) (os : list Obstacle) (cen : list vec) (rb : Robot)
    (n : Z) (c : Core) :
  fst (core_candidate (scene (k1 :: k2 :: k3 :: k4 :: t) cs os cen rb)) = c ->
  Forall (fun ci => check_core_pair (scene t cs os cen rb) ci c = Some true) cs ->
  cores_loop (Datatypes.S fuel) (scene (k1 :: k2 :: k3 :: k4 :: t) cs os cen rb) n =
  if (n - 1 =? 0)%Z then Returned (scene t (cs ++ [c]) os cen rb)
  else cores_loop fuel (scene t (cs ++ [c]) os cen rb) (n - 1).
Proof.
  intros Hc Hchk. rewrite cores_loop_step. cbv zeta.
  rewrite Hc. rewrite scene_core_candidate. cbn [snd].
  assert (H : check_core (with_rd (scene (k1 :: k2 :: k3 :: k4 :: t) cs os cen rb) t) c
              = Some true).
  { unfold check_core. apply check_core_loop_true. exact Hchk. }
  rewrite H. reflexivity.
Qed.

Lemma scene_obstacle_accepted (fuel : nat) (k1 k2 k3 : Z) (t : tape)
    (cs : list Core) (os : list Obstacle) (cen : list vec) (rb : Robot)
    (n : Z) (o : Obstacle) :
  fst (obstacle_candidate (scene (k1 :: k2 :: k3 :: t) cs os cen rb)) = o ->
  clear_of_cores (scene t cs os cen rb) cs o ->
  Forall (fun o' => obstacles_apart o' o) os ->
  obstacles_loop (Datatypes.S fuel) (scene (k1 :: k2 :: k3 :: t) cs os cen rb) n =
  if (n - 1 =? 0)%Z then Returned (scene t cs (os ++ [o]) cen rb)
  else obstacles_loop fuel (scene t cs (os ++ [o]) cen rb) (n - 1).
Proof.
  intros Ho Hc Hos. rewrite obstacles_loop_step. cbv zeta.
  rewrite Ho. rewrite scene_obstacle_candidate. cbn [snd].
  assert (H : check_obstacle (with_rd (scene (k1 :: k2 :: k3 :: t) cs os cen rb) t) o = true).
  { apply check_obstacle_true. split.
    - apply check_obstacle_cores_true. exact Hc.
    - apply check_obstacle_obstacles_true. exact Hos. }
  rewrite H. reflexivity.
Qed.

Ltac tape_digits :=
  repeat match goal with
         | |- context [(?k mod 100)%Z] =>
             let v := eval vm_compute in (k mod 100)%Z in
             change (k mod 100)%Z with v
         end.

(** Distances between entities that share their ordinate. *)
Ltac horizontal :=
  cbv [core_distance core_obstacle_distance obstacle_distance
       core_x core_y obs_x obs_y obs_r r scene
       demo_c1 demo_c2 demo_c3 demo_o1 demo_o2 overlap_c2];
  rewrite ?distance_horizontal;
  unfold Rabs;
  repeat match goal with
         | |- context [Rcase_abs ?a] => destruct (Rcase_abs a)
         end;
  try lra.

Section SceneChecks.

Variables (t : tape) (cs : list Core) (os : list Obstacle)
          (cen : list vec) (rb : Robot).

Lemma scene_same_sense_ok (ci cj : Core) :
  Gamma ci = demo_strength -> Gamma cj = demo_strength ->
  clockwise ci = clockwise cj ->
  10 <= core_distance ci cj ->
  check_core_pair (scene t cs os cen rb) ci cj = Some true.
Proof.
  intros Hi Hj Hdir Hd. pose proof PI_RGT_0 as Hpi.
  apply check_core_pair_same; [exact Hdir |]. split; [simpl; lra |].
  unfold boundary. rewrite Hi, Hj. unfold demo_strength. simpl.
  replace (2 * PI * (1 / 2) * 5 / (2 * PI * (1 / 2))) with 5 by (field; lra).
  lra.
Qed.

Lemma scene_opposite_sense_ok (ci cj : Core) :
  Gamma ci = demo_strength -> Gamma cj = demo_strength ->
  clockwise ci <> clockwise cj ->
  2 <= core_distance ci cj ->
  check_core_pair (scene t cs os cen rb) ci cj = Some true.
Proof.
  intros Hi Hj Hdir Hd. pose proof PI_RGT_0 as Hpi.
  apply check_core_pair_opposite; [simpl; lra | exact Hdir | simpl; lra |].
  rewrite Hi, Hj, Rmax_left, Rmin_left by lra. unfold demo_strength. simpl.
  set (d := core_distance ci cj) in *.
  replace (4 / 5 * (2 * PI * (1 / 2) * 5 / (2 * PI * (1 / 2)))) with 4
    by (field; lra).
  replace (2 * PI * (1 / 2) * 5 / (2 * PI * (d - 2 * (1 / 2))))
    with (5 / (2 * (d - 1))) by (field; lra).
  apply (Rmult_le_reg_r (2 * (d - 1))); [lra |].
  unfold Rdiv. rewrite Rmult_assoc, Rinv_l by lra. lra.
Qed.

(** Opposite cores nearer than [2r], down to coinciding centers, pass
    the check as well: the compared speed is negative. *)
Lemma scene_opposite_sense_overlapping (ci cj : Core) :
  Gamma ci = demo_strength -> Gamma cj = demo_strength ->
  clockwise ci <> clockwise cj ->
  core_distance ci cj < 1 ->
  check_core_pair (scene t cs os cen rb) ci cj = Some true.
Proof.
  intros Hi Hj Hdir Hd. pose proof PI_RGT_0 as Hpi.
  apply check_core_pair_opposite; [simpl; lra | exact Hdir | simpl; lra |].
  rewrite Hi, Hj, Rmax_left, Rmin_left by lra. unfold demo_strength. simpl.
  set (d := core_distance ci cj) in *.
  replace (4 / 5 * (2 * PI * (1 / 2) * 5 / (2 * PI * (1 / 2)))) with 4
    by (field; lra).
  replace (2 * PI * (1 / 2) * 5 / (2 * PI * (d - 2 * (1 / 2))))
    with (- (5 / (2 * (1 - d)))) by (field; lra).
  assert (0 < 5 / (2 * (1 - d))); [| lra].
  apply Rdiv_lt_0_compat; lra.
Qed.

End SceneChecks.

Lemma scene_nonzero_params (t : tape) (cs : list Core) (os : list Obstacle)
    (cen : list vec) (rb : Robot) :
  nonzero_params (scene t cs os cen rb).
Proof. split; simpl; lra. Qed.

Lemma demo_cores_loop (rb : Robot) :
  cores_loop 5 (scene demo_tape [] [] [] rb) 3 =
  Returned (scene [80; 0; 0; 90; 0; 25]%Z [demo_c1; demo_c2; demo_c3] [] [] rb).
Proof.
  unfold demo_tape.
  rewrite (scene_core_accepted _ _ _ _ _ _ _ _ _ _ _ demo_c1).
  2: { rewrite scene_core_candidate. unfold demo_c1, demo_strength. cbn [fst].
       f_equal; tape_digits; try reflexivity; try lra. }
  2: { constructor. }
  cbn [Z.sub Z.eqb Z.pos_sub Z.succ_double Z.pred_double Z.double
       Pos.pred_double app].
  rewrite (scene_core_accepted _ _ _ _ _ _ _ _ _ _ _ demo_c2).
  2: { rewrite scene_core_candidate. unfold demo_c2, demo_strength. cbn [fst].
       f_equal; tape_digits; try reflexivity; try lra. }
  2: { repeat constructor.
       apply scene_same_sense_ok; try reflexivity. horizontal. }
  cbn [Z.sub Z.eqb Z.pos_sub Z.succ_double Z.pred_double Z.double
       Pos.pred_double app].
  rewrite (scene_core_accepted _ _ _ _ _ _ _ _ _ _ _ demo_c3).
  2: { rewrite scene_core_candidate. unfold demo_c3, demo_strength. cbn [fst].
       f_equal; tape_digits; try reflexivity; try lra. }
  2: { repeat constructor;
         (apply scene_opposite_sense_ok; [reflexivity | reflexivity | discriminate |]);
         horizontal. }
  reflexivity.
Qed.

Lemma demo_obstacles_loop (cen : list vec) (rb : Robot) :
  obstacles_loop 5
    (scene [80; 0; 0; 90; 0; 25]%Z [demo_c1; demo_c2; demo_c3] [] cen rb) 2 =
  Returned (scene [] [demo_c1; demo_c2; demo_c3] [demo_o1; demo_o2] cen rb).
Proof.
  rewrite (scene_obstacle_accepted _ _ _ _ _ _ _ _ _ _ demo_o1).
  2: { rewrite scene_obstacle_candidate. unfold demo_o1. cbn [fst].
       f_equal; tape_digits; try reflexivity; try lra. }
  2: { unfold clear_of_cores. repeat constructor; horizontal. }
  2: { constructor. }
  cbn [Z.sub Z.eqb Z.pos_sub Z.succ_double Z.pred_double Z.double
       Pos.pred_double app].
  rewrite (scene_obstacle_accepted _ _ _ _ _ _ _ _ _ _ demo_o2).
  2: { rewrite scene_obstacle_candidate. unfold demo_o2. cbn [fst].
       f_equal; tape_digits; try reflexivity; try lra. }
  2: { unfold clear_of_cores. repeat constructor; horizontal. }
  2: { repeat constructor. unfold obstacles_apart. horizontal. }
  reflexivity.
Qed.

(** The recorded run returns, with the three cores and the two
    obstacles of the tape, whatever the robot was before. *)
Lemma demo_reset_any_robot (rb : Robot) :
  reset 5 (scene demo_tape [] [] [] rb) 3 2 =
  Returned (scene [] [demo_c1; demo_c2; demo_c3] [demo_o1; demo_o2]
                  [(0, 0); (25, 0); (10, 0)]
                  (mkRobot 5 5 (robot_theta rb) (robot_velocity rb))).
Proof.
  destruct (reset_stages 5 (scene demo_tape [] [] [] rb) 3 2 _ _ brute_index_ok
              (proj1 (scene_nonzero_params _ _ _ _ _)) ltac:(discriminate)
              (demo_cores_loop rb) (demo_obstacles_loop _ _)) as [v Hv].
  rewrite Hv. reflexivity.
Qed.

Lemma demo_reset : reset 5 (tape_env demo_tape) 3 2 = Returned demo_result.
Proof. apply demo_reset_any_robot. Qed.

Lemma demo_seed_tape : tape_of_seed demo_seed = demo_tape.
Proof. vm_compute. reflexivity. Qed.

Lemma same_sense_cores_apart_witness :
  reset 5 (tape_env demo_tape) 3 2 = Returned demo_result /\
  boundary demo_result demo_c1 + boundary demo_result demo_c2
    <= core_distance demo_c1 demo_c2.
Proof.
  split; [exact demo_reset |].
  apply (same_sense_cores_apart 5 (tape_env demo_tape) 3 2 demo_result demo_reset
           0%nat 1%nat demo_c1 demo_c2);
    [discriminate | reflexivity | reflexivity | reflexivity].
Defined.

Lemma opposite_sense_cores_bounded_witness :
  (@RandomState_ok tape TapeRandomState /\
   0 < r (tape_env demo_tape) /\
   0 < fst (v_range (tape_env demo_tape)) /\
   0 < snd (v_range (tape_env demo_tape)) /\
   reset 5 (tape_env demo_tape) 3 2 = Returned demo_result) /\
  core_distance demo_c1 demo_c3 - 2 * r demo_result <> 0 /\
  Rmax (Gamma demo_c1) (Gamma demo_c3)
    / (2 * PI * (core_distance demo_c1 demo_c3 - 2 * r demo_result))
  <= p demo_result * Rmin (Gamma demo_c1) (Gamma demo_c3) / (2 * PI * r demo_result).
Proof.
  assert (Hr : 0 < r (tape_env demo_tape)) by (simpl; lra).
  assert (Hlo : 0 < fst (v_range (tape_env demo_tape))) by (simpl; lra).
  assert (Hhi : 0 < snd (v_range (tape_env demo_tape))) by (simpl; lra).
  split.
  { split; [apply tape_stream_ok |].
    split; [exact Hr |]. split; [exact Hlo |]. split; [exact Hhi | exact demo_reset]. }
  apply (opposite_sense_cores_bounded 5 (tape_env demo_tape) 3 2 demo_result
           tape_stream_ok Hr Hlo Hhi demo_reset 0%nat 2%nat demo_c1 demo_c3);
    [discriminate | reflexivity | reflexivity | discriminate].
Defined.

Lemma obstacles_clear_witness :
  reset 5 (tape_env demo_tape) 3 2 = Returned demo_result /\
  r demo_result + obs_r demo_o1 < core_obstacle_distance demo_c2 demo_o1 /\
  obs_r demo_o1 + obs_r demo_o2 < obstacle_distance demo_o1 demo_o2.
Proof.
  split; [exact demo_reset |].
  destruct (obstacles_clear 5 (tape_env demo_tape) 3 2 demo_result demo_reset)
    as [Hcores Hobs].
  split.
  - apply Hcores; simpl; tauto.
  - apply (Hobs 0%nat 1%nat); [discriminate | reflexivity | reflexivity].
Defined.

(** ** [get_velocity]: the sum, the dead filter, the core centers *)

(** The occlusion check does fire: a stored direction that points the
    same way as the new one makes the inner body end by [continue]. *)
Lemma occlusion_body_continues :
  occlusion_body (1, 0) (Fin 1, Fin 0) = Continue.
Proof.
  unfold occlusion_body, NP.gt. cbn [fst snd NP.mul NP.add NP.lt].
  assert (H : NP.Rltb 0 (1 * 1 + 0 * 0) = true) by (apply Rltb_true; lra).
  rewrite H. reflexivity.
Qed.

(** C5.  [get_velocity] returns, at every point, what it would return
    with the occlusion check removed: the check never keeps a core out
    of the sum.  With the index holding the centers of the cores: over
    two cores or more, at a point that is the center of none of them,
    it returns the sum over all the cores of
    rotation * unit(core - point) * speed; over exactly one core the
    query hands back a bare index, [list(idx)] raises and nothing is
    returned, at whatever point. *)
Theorem get_velocity_is_sum {S : Type} `{KD : KDTree} (e : Env S) :
  KDTree_ok ->
  core_centers e = map center_of (cores e) ->
  (forall x y : R, get_velocity e x y = get_velocity_unfiltered e x y) /\
  ((2 <= length (cores e))%nat ->
   forall x y : R,
     (forall c, In c (cores e) -> center_of c <> (x, y)) ->
     get_velocity e x y =
       Some (Fin (fst (velocity_sum e x y)), Fin (snd (velocity_sum e x y)))) /\
  (length (cores e) = 1%nat ->
   forall x y : R, get_velocity e x y = None).
Proof.
  intros Hok Hidx. split; [| split].
  - intros x y. apply get_velocity_filter_free.
  - intros Htwo x y Hoff. apply get_velocity_sum; assumption.
  - intros Hone x y. apply get_velocity_single_core; assumption.
Qed.

Lemma demo_off_centers :
  forall c, In c (cores demo_result) -> center_of c <> (5, 5).
Proof.
  intros c Hc. simpl in Hc.
  destruct Hc as [<- | [<- | [<- | []]]]; unfold center_of; simpl;
    intros H; injection H as H1 H2; lra.
Qed.

Lemma get_velocity_is_sum_witness :
  (@KDTree_ok BruteKDTree /\
   core_centers demo_result = map center_of (cores demo_result) /\
   (2 <= length (cores demo_result))%nat /\
   (forall c, In c (cores demo_result) -> center_of c <> (5, 5))) /\
  get_velocity demo_result 5 5 =
    Some (Fin (fst (velocity_sum demo_result 5 5)),
          Fin (snd (velocity_sum demo_result 5 5))) /\
  get_velocity (with_scene (tape_env []) [demo_c1]) 5 5 = None.
Proof.
  assert (Hidx : core_centers demo_result = map center_of (cores demo_result))
    by reflexivity.
  assert (Htwo : (2 <= length (cores demo_result))%nat) by (simpl; lia).
  split; [split; [apply brute_index_ok
                 | split; [exact Hidx | split; [exact Htwo | exact demo_off_centers]]] |].
  split.
  - exact (proj1 (proj2 (get_velocity_is_sum demo_result brute_index_ok Hidx))
             Htwo 5 5 demo_off_centers).
  - exact (proj2 (proj2 (get_velocity_is_sum (with_scene (tape_env []) [demo_c1])
                           brute_index_ok eq_refl))
             eq_refl 5 5).
Defined.




(** ** Determinism of the generation *)

Section Determinism.

Context {S : Type} `{RS : RandomState S} `{KD : KDTree}.

Lemma core_candidate_same (a b : Env S) :
  rd b = rd a -> same_params a b -> core_candidate b = core_candidate a.
Proof.
  intros Hrd (Hw & Hh & Hr & _ & _ & Hv & _). unfold core_candidate.
  rewrite Hrd, Hw, Hh, Hr, Hv. reflexivity.
Qed.

Lemma obstacle_candidate_same (a b : Env S) :
  rd b = rd a -> same_params a b -> obstacle_candidate b = obstacle_candidate a.
Proof.
  intros Hrd (Hw & Hh & _ & _ & _ & _ & Ho & _). unfold obstacle_candidate.
  rewrite Hrd, Hw, Hh, Ho. reflexivity.
Qed.

Lemma check_core_loop_same (a b : Env S) (cs : list Core) (c : Core) :
  same_params a b -> check_core_loop b cs c = check_core_loop a cs c.
Proof.
  intros Hp. induction cs as [| ci cs IH]; simpl; [reflexivity |].
  rewrite (check_core_pair_params a b ci c Hp), IH. reflexivity.
Qed.

Lemma check_obstacle_cores_same (a b : Env S) (cs : list Core) (o : Obstacle) :
  r b = r a -> check_obstacle_cores b cs o = check_obstacle_cores a cs o.
Proof.
  intros Hr. induction cs as [| c cs IH]; simpl; [reflexivity |].
  rewrite Hr, IH. reflexivity.
Qed.

Lemma same_scenario_step (a b : Env S) (s : S) :
  same_scenario a b -> same_scenario (with_rd a s) (with_rd b s).
Proof.
  intros (_ & Hp & Hc & Ho). repeat split; try assumption; apply Hp.
Qed.

Lemma cores_loop_same (fuel : nat) (a b : Env S) (n : Z) :
  same_scenario a b -> same_outcome (cores_loop fuel a n) (cores_loop fuel b n).
Proof.
  revert a b n. induction fuel as [| fuel IH]; intros a b n Hab; [exact I |].
  destruct Hab as (Hrd & Hp & Hc & Ho).
  rewrite !cores_loop_step. cbv zeta.
  rewrite (core_candidate_same a b Hrd Hp).
  set (c := fst (core_candidate a)). set (s := snd (core_candidate a)).
  assert (Hchk : check_core (with_rd b s) c = check_core (with_rd a s) c).
  { unfold check_core. simpl. rewrite Hc. apply check_core_loop_same. exact Hp. }
  rewrite Hchk, Hc.
  assert (Hacc : same_scenario (with_cores (with_rd a s) (cores a ++ [c]))
                               (with_cores (with_rd b s) (cores a ++ [c]))).
  { repeat split; try assumption; apply Hp. }
  assert (Hrej : same_scenario (with_rd a s) (with_rd b s)).
  { repeat split; try assumption; apply Hp. }
  destruct (check_core (with_rd a s) c) as [[|] |].
  - destruct (n - 1 =? 0)%Z; [exact Hacc | apply IH; exact Hacc].
  - destruct (n =? 0)%Z; [exact Hrej | apply IH; exact Hrej].
  - exact I.
Qed.

Lemma obstacles_loop_same (fuel : nat) (a b : Env S) (n : Z) :
  same_scenario a b ->
  same_outcome (obstacles_loop fuel a n) (obstacles_loop fuel b n).
Proof.
  revert a b n. induction fuel as [| fuel IH]; intros a b n Hab; [exact I |].
  destruct Hab as (Hrd & Hp & Hc & Ho).
  rewrite !obstacles_loop_step. cbv zeta.
  rewrite (obstacle_candidate_same a b Hrd Hp).
  set (o := fst (obstacle_candidate a)). set (s := snd (obstacle_candidate a)).
  assert (Hchk : check_obstacle (with_rd b s) o = check_obstacle (with_rd a s) o).
  { unfold check_obstacle. simpl. rewrite Hc, Ho.
    rewrite (check_obstacle_cores_same (with_rd a s) (with_rd b s)); [reflexivity |].
    apply Hp. }
  rewrite Hchk, Ho.
  assert (Hacc : same_scenario (with_obstacles (with_rd a s) (obstacles a ++ [o]))
                               (with_obstacles (with_rd b s) (obstacles a ++ [o]))).
  { repeat split; try assumption; apply Hp. }
  assert (Hrej : same_scenario (with_rd a s) (with_rd b s)).
  { repeat split; try assumption; apply Hp. }
  destruct (check_obstacle (with_rd a s) o).
  - destruct (n - 1 =? 0)%Z; [exact Hacc | apply IH; exact Hacc].
  - destruct (n =? 0)%Z; [exact Hrej | apply IH; exact Hrej].
Qed.

(** The field depends on the cores, on the points of the index and on
    the core radius only. *)
Lemma velocity_loop_same (a b : Env S) (x y : R) (idx : list nat)
    (st : list vec64 * vec64) :
  cores b = cores a -> r b = r a ->
  velocity_loop b x y idx st = velocity_loop a x y idx st.
Proof.
  intros Hc Hr. revert st. induction idx as [| i idx IH]; intros st;
    cbn [velocity_loop]; [reflexivity |].
  rewrite Hc. destruct (nth_error (cores a) i) as [c |]; [| reflexivity].
  assert (Hstep : velocity_step b x y c st = velocity_step a x y c st).
  { destruct st as [vs v]. unfold velocity_step, compute_speed.
    rewrite Hr. reflexivity. }
  rewrite Hstep. destruct (velocity_step a x y c st); [apply IH | reflexivity].
Qed.

Lemma get_velocity_same (a b : Env S) (x y : R) :
  cores b = cores a -> core_centers b = core_centers a -> r b = r a ->
  get_velocity b x y = get_velocity a x y.
Proof.
  intros Hc Hk Hr. unfold get_velocity.
  rewrite Hc, Hk.
  destruct (list_of (query (core_centers a) (x, y) (length (cores a))))
    as [idx |]; [| reflexivity].
  rewrite (velocity_loop_same a b); [reflexivity | assumption | assumption].
Qed.

(** Two runs of [reset] from the same stream state and the same
    parameters, whatever else the two environments held and however
    many iterations each was granted, end with the same scenario. *)
Lemma reset_same (f1 f2 : nat) (a b : Env S) (nc no : Z) (e1 e2 : Env S) :
  rd b = rd a -> same_params a b ->
  reset f1 a nc no = Returned e1 -> reset f2 b nc no = Returned e2 ->
  same_scenario e1 e2 /\ core_centers e2 = core_centers e1.
Proof.
  intros Hrd Hp Ha Hb.
  apply (reset_more_fuel _ _ _ _ _) with (fuel' := Nat.max f1 f2) in Ha; [| lia].
  apply (reset_more_fuel _ _ _ _ _) with (fuel' := Nat.max f1 f2) in Hb; [| lia].
  set (f := Nat.max f1 f2) in *.
  pose proof (reset_sound _ _ _ _ _ Ha) as (_ & _ & _ & Hka & _).
  pose proof (reset_sound _ _ _ _ _ Hb) as (_ & _ & _ & Hkb & _).
  apply reset_returned in Ha. destruct Ha as (a1 & a2 & va & Ha1 & _ & Ha2 & _ & Hea).
  apply reset_returned in Hb. destruct Hb as (b1 & b2 & vb & Hb1 & _ & Hb2 & _ & Heb).
  assert (H0 : same_scenario (with_obstacles (with_cores a []) [])
                             (with_obstacles (with_cores b []) [])).
  { repeat split; try assumption; apply Hp. }
  pose proof (cores_loop_same f _ _ nc H0) as H1.
  rewrite Ha1, Hb1 in H1. simpl in H1.
  assert (H1' : same_scenario (with_core_centers a1 (map center_of (cores a1)))
                              (with_core_centers b1 (map center_of (cores b1)))).
  { destruct H1 as (? & Hp1 & ? & ?). repeat split; try assumption; apply Hp1. }
  pose proof (obstacles_loop_same f _ _ no H1') as H2.
  rewrite Ha2, Hb2 in H2. simpl in H2.
  assert (H2' : same_scenario e1 e2).
  { subst e1 e2. destruct H2 as (? & Hp2 & ? & ?).
    repeat split; try assumption; apply Hp2. }
  split; [exact H2' |].
  destruct H2' as (_ & _ & Hc & _). rewrite Hka, Hkb, Hc. reflexivity.
Qed.

End Determinism.

(** C7.  Two generations from the same seed with the same parameters
    and the same counts produce the same sequence of cores and the same
    sequence of obstacles (positions, senses, strengths, radii, order),
    and every later [get_velocity] query gives the same result. *)
Theorem generation_deterministic
    {S : Type} `{RS : RandomState S} `{KD : KDTree}
    (seed : Z) (a b : Env S) (num_cores num_obs : Z)
    (f1 f2 : nat) (e1 e2 : Env S) :
  rd a = RandomState_init seed -> rd b = RandomState_init seed ->
  same_params a b ->
  reset f1 a num_cores num_obs = Returned e1 ->
  reset f2 b num_cores num_obs = Returned e2 ->
  cores e1 = cores e2 /\ obstacles e1 = obstacles e2 /\
  forall x y : R, get_velocity e1 x y = get_velocity e2 x y.
Proof.
  intros Ha Hb Hp H1 H2.
  assert (Hrd : rd b = rd a) by congruence.
  destruct (reset_same f1 f2 a b num_cores num_obs e1 e2 Hrd Hp H1 H2)
    as ((_ & Hpe & Hc & Ho) & Hk).
  split; [symmetry; exact Hc |]. split; [symmetry; exact Ho |].
  intros x y. symmetry. apply get_velocity_same; try assumption. apply Hpe.
Qed.

Lemma generation_deterministic_witness :
  exists e1 e2 : Env tape,
    (reset 5 (Env_fields demo_seed (mkRobot 0 0 0 (0, 0))) 3 2 = Returned e1 /\
     reset 7 (Env_fields demo_seed (mkRobot 1 2 3 (4, 5))) 3 2 = Returned e2) /\
    cores e1 = cores e2 /\ obstacles e1 = obstacles e2 /\
    forall x y : R, get_velocity e1 x y = get_velocity e2 x y.
Proof.
  assert (Hfields : forall rb, Env_fields demo_seed rb = scene demo_tape [] [] [] rb).
  { intros rb. unfold Env_fields, scene. simpl RandomState_init.
    rewrite demo_seed_tape. reflexivity. }
  pose proof (demo_reset_any_robot (mkRobot 0 0 0 (0, 0))) as H1.
  pose proof (reset_more_fuel _ _ _ _ _ (demo_reset_any_robot (mkRobot 1 2 3 (4, 5)))
                7%nat ltac:(lia)) as H2.
  rewrite <- Hfields in H1, H2.
  eexists. eexists. split; [split; [exact H1 | exact H2] |].
  apply (generation_deterministic demo_seed
           (Env_fields demo_seed (mkRobot 0 0 0 (0, 0)))
           (Env_fields demo_seed (mkRobot 1 2 3 (4, 5))) 3 2 5 7 _ _
           eq_refl eq_refl);
    [repeat split | exact H1 | exact H2].
Defined.

(** ** Infeasible configurations *)

Section Infeasible.

Context {S : Type} `{RS : RandomState S} `{KD : KDTree}.

Lemma same_params_sym (a b : Env S) : same_params a b -> same_params b a.
Proof.
  unfold same_params. intros (?&?&?&?&?&?&?&?&?). repeat split; congruence.
Qed.

Lemma placement_params (a b : Env S) (cs : list Core) (os : list Obstacle) :
  same_params a b -> placement a cs os -> placement b cs os.
Proof.
  intros Hp (Hdc & Hac & Hdo & Hcl & Hap). unfold placement.
  split; [| split; [| split; [| split]]].
  - eapply Forall_impl; [| exact Hdc]. intros c. apply drawable_core_params. exact Hp.
  - eapply ForallOrdPairs_weaken; [| exact Hac].
    intros ci cj Hij. cbv beta. rewrite (check_core_pair_params a b); assumption.
  - eapply Forall_impl; [| exact Hdo]. intros o. apply drawable_obstacle_params. exact Hp.
  - eapply Forall_impl; [| exact Hcl]. intros o. unfold clear_of_cores.
    destruct Hp as (_ & _ & -> & _). trivial.
  - exact Hap.
Qed.

(** A [reset] that returns shows the configuration feasible. *)
Lemma reset_returned_feasible (fuel : nat) (e : Env S) (nc no : Z) (e' : Env S) :
  RandomState_ok ->
  reset fuel e nc no = Returned e' -> feasible e nc no.
Proof.
  intros Hok Hrun.
  pose proof (reset_placement Hok _ _ _ _ _ Hrun) as (Hpl & Hnc & Hno).
  apply reset_sound in Hrun. destruct Hrun as (Hp & _).
  exists (cores e'), (obstacles e'). split; [| split; assumption].
  apply (placement_params e' e); [apply same_params_sym; exact Hp | exact Hpl].
Qed.

(** Two loops that are both through show the configuration feasible,
    whatever happens after them. *)
Lemma loops_feasible (fuel : nat) (e : Env S) (nc no : Z) (e1 e2 : Env S) :
  RandomState_ok ->
  cores_loop fuel (with_obstacles (with_cores e []) []) nc = Returned e1 ->
  obstacles_loop fuel (with_core_centers e1 (map center_of (cores e1))) no
    = Returned e2 ->
  feasible e nc no.
Proof.
  intros Hok H1 H2.
  pose proof (cores_loop_frame _ _ _ _ H1) as (Hp1 & Ho1 & _ & _).
  pose proof (cores_loop_count _ _ _ _ H1) as Hn1.
  assert (Hacc1 : accepted_cores e1).
  { eapply cores_loop_accepted; [| exact H1]. constructor. }
  assert (Hd1 : Forall (drawable_core e1) (cores e1)).
  { eapply (cores_loop_drawable Hok); [| exact H1]. constructor. }
  pose proof (obstacles_loop_frame _ _ _ _ H2) as (Hp2 & Hc2 & _ & _).
  pose proof (obstacles_loop_count _ _ _ _ H2) as Hn2.
  assert (Hacc2 : accepted_obstacles e2).
  { eapply obstacles_loop_accepted; [| exact H2].
    unfold accepted_obstacles. simpl. rewrite Ho1. simpl.
    split; constructor. }
  assert (Hd2 : Forall (drawable_obstacle e2) (obstacles e2)).
  { eapply (obstacles_loop_drawable Hok); [| exact H2].
    simpl. simpl in Ho1. rewrite Ho1. constructor. }
  simpl in Hc2, Hn1, Hn2, Ho1. rewrite Ho1 in Hn2. simpl in Hn2.
  assert (Hp1' : same_params e e1) by exact Hp1.
  assert (Hp2' : same_params e1 e2) by exact Hp2.
  assert (Hp : same_params e e2) by (eapply same_params_trans; eassumption).
  exists (cores e2), (obstacles e2).
  split; [| split; [rewrite Hc2 |]; lia].
  apply (placement_params e2 e); [apply same_params_sym; exact Hp |].
  destruct Hacc2 as [Hcl Hap].
  unfold placement. split; [| split; [| split; [| split]]].
  - rewrite Hc2. eapply Forall_impl; [| exact Hd1].
    intros c Hc. exact (drawable_core_params e1 _ c Hp2' Hc).
  - exact (accepted_cores_params e1 _ Hp2' Hc2 Hacc1).
  - exact Hd2.
  - exact Hcl.
  - exact Hap.
Qed.

(** On an infeasible configuration [reset] is still drawing candidates
    after any number of iterations. *)
Lemma reset_infeasible_running (e : Env S) (nc no : Z) :
  RandomState_ok -> nonzero_params e -> ~ feasible e nc no ->
  forall fuel : nat, reset fuel e nc no = Running.
Proof.
  intros Hok Hnz Hinf fuel.
  destruct (reset fuel e nc no) as [e' | |] eqn:Hrun.
  - elim Hinf. eapply reset_returned_feasible; eassumption.
  - elim Hinf.
    destruct (reset_raised fuel e nc no Hnz Hrun) as (e1 & e2 & H1 & H2 & _).
    exact (loops_feasible fuel e nc no e1 e2 Hok H1 H2).
  - reflexivity.
Qed.

End Infeasible.

Lemma distance_le_bound (x1 y1 x2 y2 b : R) :
  0 <= b ->
  (x1 - x2) * (x1 - x2) + (y1 - y2) * (y1 - y2) <= b * b ->
  distance x1 y1 x2 y2 <= b.
Proof.
  intros Hb Hsq. unfold distance. cbv zeta.
  rewrite <- (sqrt_square b Hb). apply sqrt_le_1_alt. exact Hsq.
Qed.

Lemma crowded_nonzero_params (t : tape) : nonzero_params (crowded_env t).
Proof. split; simpl; lra. Qed.

Lemma crowded_infeasible (t : tape) : ~ feasible (crowded_env t) 1 1.
Proof.
  intros (cs & os & (Hdc & _ & Hdo & Hcl & _) & Hnc & Hno).
  destruct cs as [| c [| c' cs]]; simpl in Hnc; try lia.
  destruct os as [| o [| o' os]]; simpl in Hno; try lia.
  inversion Hdc as [| ? ? Hc _]; subst.
  inversion Hdo as [| ? ? Ho _]; subst.
  inversion Hcl as [| ? ? Hclear _]; subst.
  inversion Hclear as [| ? ? Hfar _]; subst.
  destruct Hc as ((u1 & Hu1 & Hx) & (u2 & Hu2 & Hy) & _).
  destruct Ho as ((u3 & Hu3 & Hox) & (u4 & Hu4 & Hoy) & (u5 & Hu5 & Hor)).
  simpl in Hx, Hy, Hox, Hoy, Hor, Hfar.
  assert (Hd : core_obstacle_distance c o <= 100).
  { unfold core_obstacle_distance. apply distance_le_bound; [lra |].
    rewrite Hx, Hy, Hox, Hoy. nra. }
  lra.
Qed.

(** C8, as the specification has it, fails: with obstacle radii of 100
    in the 50 x 50 map one core and one obstacle cannot both be placed,
    and [reset] is still in its rejection loop after any number of
    iterations; it neither returns nor fails. *)
Lemma reset_hangs_when_infeasible :
  ~ feasible (crowded_env demo_tape) 1 1 /\
  forall fuel : nat, reset fuel (crowded_env demo_tape) 1 1 = Running.
Proof.
  split; [apply crowded_infeasible |].
  apply reset_infeasible_running;
    [apply tape_stream_ok | apply crowded_nonzero_params | apply crowded_infeasible].
Qed.

(** C8, amended.  The rejection loops have no retry budget and no
    failure of their own.  With parameters [r] and [v_rel_max] that are
    not zero, after any number of iterations [reset] is still drawing
    candidates, or has returned with all the requested cores and
    obstacles placed, or has raised in its closing call of
    [get_velocity], after both loops had placed all that was asked for;
    and on an infeasible configuration it is still drawing candidates
    after any number of iterations. *)
Theorem reset_has_no_retry_budget
    {S : Type} `{RS : RandomState S} `{KD : KDTree}
    (e : Env S) (num_cores num_obs : Z) :
  RandomState_ok -> nonzero_params e ->
  (forall fuel : nat,
     reset fuel e num_cores num_obs = Running \/
     (exists e' : Env S,
        reset fuel e num_cores num_obs = Returned e' /\
        placement e' (cores e') (obstacles e') /\
        Z.of_nat (length (cores e')) = num_cores /\
        Z.of_nat (length (obstacles e')) = num_obs) \/
     (reset fuel e num_cores num_obs = Raised /\
      feasible e num_cores num_obs /\
      exists e1 e2 : Env S,
        cores_loop fuel (with_obstacles (with_cores e []) []) num_cores
          = Returned e1 /\
        obstacles_loop fuel (with_core_centers e1 (map center_of (cores e1))) num_obs
          = Returned e2 /\
        get_velocity e2 (fst (initial e2)) (snd (initial e2)) = None)) /\
  (~ feasible e num_cores num_obs ->
   forall fuel : nat, reset fuel e num_cores num_obs = Running).
Proof.
  intros Hok Hnz. split.
  - intros fuel. destruct (reset fuel e num_cores num_obs) as [e' | |] eqn:Hrun.
    + right. left. exists e'. split; [reflexivity |].
      apply (reset_placement Hok _ _ _ _ _ Hrun).
    + right. right. split; [reflexivity |].
      destruct (reset_raised fuel e num_cores num_obs Hnz Hrun)
        as (e1 & e2 & H1 & H2 & Hv).
      split; [exact (loops_feasible fuel e num_cores num_obs e1 e2 Hok H1 H2) |].
      exists e1, e2. auto.
    + left. reflexivity.
  - apply reset_infeasible_running; assumption.
Qed.

Lemma reset_has_no_retry_budget_witness :
  (@RandomState_ok tape TapeRandomState /\
   nonzero_params (crowded_env []) /\ ~ feasible (crowded_env []) 1 1) /\
  reset 1000 (crowded_env []) 1 1 = Running.
Proof.
  split.
  { split; [apply tape_stream_ok |].
    split; [apply crowded_nonzero_params | apply crowded_infeasible]. }
  exact (proj2 (reset_has_no_retry_budget (crowded_env []) 1 1
                  tape_stream_ok (crowded_nonzero_params []))
               (crowded_infeasible []) 1000%nat).
Defined.

(** ** Opposite cores nearer than two radii *)

Lemma overlap_cores_loop (rb : Robot) :
  cores_loop 5 (scene overlap_tape [] [] [] rb) 2 =
  Returned (scene [80; 0; 0]%Z [demo_c1; overlap_c2] [] [] rb).
Proof.
  unfold overlap_tape.
  rewrite (scene_core_accepted _ _ _ _ _ _ _ _ _ _ _ demo_c1).
  2: { rewrite scene_core_candidate. unfold demo_c1, demo_strength. cbn [fst].
       f_equal; tape_digits; try reflexivity; try lra. }
  2: { constructor. }
  cbn [Z.sub Z.eqb Z.pos_sub Z.succ_double Z.pred_double Z.double
       Pos.pred_double app].
  rewrite (scene_core_accepted _ _ _ _ _ _ _ _ _ _ _ overlap_c2).
  2: { rewrite scene_core_candidate. unfold overlap_c2, demo_strength. cbn [fst].
       f_equal; tape_digits; try reflexivity; try lra. }
  2: { repeat constructor.
       apply scene_opposite_sense_overlapping;
         [reflexivity | reflexivity | discriminate |].
       horizontal. }
  reflexivity.
Qed.

Lemma overlap_obstacles_loop (cen : list vec) (rb : Robot) :
  obstacles_loop 5 (scene [80; 0; 0]%Z [demo_c1; overlap_c2] [] cen rb) 1 =
  Returned (scene [] [demo_c1; overlap_c2] [demo_o1] cen rb).
Proof.
  rewrite (scene_obstacle_accepted _ _ _ _ _ _ _ _ _ _ demo_o1).
  2: { rewrite scene_obstacle_candidate. unfold demo_o1. cbn [fst].
       f_equal; tape_digits; try reflexivity; try lra. }
  2: { unfold clear_of_cores. repeat constructor; horizontal. }
  2: { constructor. }
  reflexivity.
Qed.

(** The second recorded run returns with the two opposite cores on the
    same point. *)
Lemma overlap_reset : reset 5 (tape_env overlap_tape) 2 1 = Returned overlap_result.
Proof.
  destruct (reset_stages 5 (tape_env overlap_tape) 2 1 _ _ brute_index_ok
              (proj1 (scene_nonzero_params _ _ _ _ _)) ltac:(discriminate)
              (overlap_cores_loop _) (overlap_obstacles_loop _ _)) as [v Hv].
  rewrite Hv. reflexivity.
Qed.

Lemma overlap_distance : core_distance demo_c1 overlap_c2 = 0.
Proof.
  unfold core_distance. apply distance_zero_iff. split; reflexivity.
Qed.

(** C10.  In the opposite-rotation branch of [check_core], for cores of
    positive strength, a positive core radius and [p >= 0]: at distance
    [d = 2r] the divisor [2 pi (d - 2r)] is zero and the quotient is
    infinite; at distance [d < 2r] the speed
    [Gamma_l / (2 pi (d - 2r))] is negative, the comparison passes and
    the candidate is accepted.  [reset] does place two cores of opposite
    senses on the very same point: the second recorded run returns
    with them. *)
Theorem opposite_cores_may_overlap {S : Type} (e : Env S) (ci cj : Core) :
  0 < r e -> 0 <= p e -> 0 < Gamma ci -> 0 < Gamma cj ->
  clockwise ci <> clockwise cj ->
  let Gamma_l := Rmax (Gamma ci) (Gamma cj) in
  let d := core_distance ci cj in
  (d = 2 * r e ->
   2 * PI * (d - 2 * r e) = 0 /\
   NP.div Gamma_l (2 * PI * (d - 2 * r e)) = PInf) /\
  (d < 2 * r e ->
   Gamma_l / (2 * PI * (d - 2 * r e)) < 0 /\
   check_core (with_cores e [ci]) cj = Some true) /\
  (exists e' : Env tape,
     reset 5 (tape_env overlap_tape) 2 1 = Returned e' /\
     cores e' = [demo_c1; overlap_c2] /\
     clockwise demo_c1 <> clockwise overlap_c2 /\
     core_distance demo_c1 overlap_c2 = 0).
Proof.
  intros Hr Hp Hi Hj Hdir Gamma_l d. pose proof PI_RGT_0 as Hpi.
  assert (Hl : 0 < Gamma_l).
  { unfold Gamma_l. pose proof (Rmax_l (Gamma ci) (Gamma cj)). lra. }
  assert (Hs : 0 < Rmin (Gamma ci) (Gamma cj)).
  { apply Rmin_glb_lt; assumption. }
  split; [| split].
  - intros Hd. rewrite Hd, Rminus_diag, Rmult_0_r.
    split; [reflexivity | apply div_by_zero_pos; exact Hl].
  - intros Hd.
    assert (HD : 2 * PI * (d - 2 * r e) < 0) by nra.
    assert (Hneg : Gamma_l / (2 * PI * (d - 2 * r e)) < 0).
    { unfold Rdiv. pose proof (Rinv_lt_0_compat _ HD) as Hinv. nra. }
    split; [exact Hneg |].
    unfold check_core. simpl.
    assert (Hpair : check_core_pair (with_cores e [ci]) ci cj = Some true).
    { apply check_core_pair_opposite; [simpl; lra | exact Hdir | simpl; fold d; lra |].
      simpl. fold d. fold Gamma_l.
      assert (0 <= p e * (Rmin (Gamma ci) (Gamma cj) / (2 * PI * r e))); [| lra].
      apply Rmult_le_pos; [exact Hp |].
      apply Rlt_le. apply Rdiv_lt_0_compat; [exact Hs | now apply two_pi_pos]. }
    rewrite Hpair. reflexivity.
  - exists overlap_result. split; [exact overlap_reset |].
    split; [reflexivity |]. split; [discriminate | exact overlap_distance].
Qed.

Lemma opposite_cores_may_overlap_witness :
  (0 < r (tape_env []) /\ 0 <= p (tape_env []) /\
   0 < Gamma demo_c1 /\ 0 < Gamma overlap_c2 /\
   clockwise demo_c1 <> clockwise overlap_c2 /\
   core_distance demo_c1 overlap_c2 < 2 * r (tape_env [])) /\
  Rmax (Gamma demo_c1) (Gamma overlap_c2)
    / (2 * PI * (core_distance demo_c1 overlap_c2 - 2 * r (tape_env []))) < 0 /\
  check_core (with_cores (tape_env []) [demo_c1]) overlap_c2 = Some true.
Proof.
  pose proof PI_RGT_0 as Hpi.
  assert (Hr : 0 < r (tape_env [])) by (simpl; lra).
  assert (Hp : 0 <= p (tape_env [])) by (simpl; lra).
  assert (Hi : 0 < Gamma demo_c1) by (unfold demo_c1, demo_strength; simpl; lra).
  assert (Hj : 0 < Gamma overlap_c2) by (unfold overlap_c2, demo_strength; simpl; lra).
  assert (Hdir : clockwise demo_c1 <> clockwise overlap_c2) by discriminate.
  assert (Hd : core_distance demo_c1 overlap_c2 < 2 * r (tape_env []))
    by (rewrite overlap_distance; simpl; lra).
  split; [repeat split; assumption |].
  exact (proj1 (proj2 (opposite_cores_may_overlap (tape_env []) demo_c1 overlap_c2
                         Hr Hp Hi Hj Hdir)) Hd).
Defined.

(** * Further properties of the code *)

(** ** [reset]: counts, index, requests that cannot be met *)

Section ResetCounts.

Context {S : Type} `{RS : RandomState S} `{KD : KDTree}.

Lemma reset_cores_nonempty (fuel : nat) (e : Env S) (nc no : Z) (e' : Env S) :
  reset fuel e nc no = Returned e' -> cores e' <> [].
Proof.
  intros H. apply reset_returned in H.
  destruct H as (e1 & e2 & v & _ & Hne & H2 & _ & ->).
  pose proof (obstacles_loop_frame _ _ _ _ H2) as (_ & Hc2 & _).
  simpl in Hc2. simpl. rewrite Hc2. exact Hne.
Qed.

(** With a negative count left, neither loop is ever left. *)
Lemma cores_loop_negative (fuel : nat) (e : Env S) (n : Z) (e' : Env S) :
  (n < 0)%Z -> cores_loop fuel e n <> Returned e'.
Proof.
  revert e n. induction fuel as [| fuel IH]; intros e n Hn; [discriminate |].
  rewrite cores_loop_step. cbv zeta.
  destruct (check_core _ _) as [[|] |]; [| | discriminate].
  - destruct (n - 1 =? 0)%Z eqn:E; [apply Z.eqb_eq in E; lia | apply IH; lia].
  - destruct (n =? 0)%Z eqn:E; [apply Z.eqb_eq in E; lia | apply IH; lia].
Qed.

Lemma obstacles_loop_negative (fuel : nat) (e : Env S) (n : Z) :
  (n < 0)%Z -> obstacles_loop fuel e n = Running.
Proof.
  revert e n. induction fuel as [| fuel IH]; intros e n Hn; [reflexivity |].
  rewrite obstacles_loop_step. cbv zeta.
  destruct (check_obstacle _ _).
  - destruct (n - 1 =? 0)%Z eqn:E; [apply Z.eqb_eq in E; lia | apply IH; lia].
  - destruct (n =? 0)%Z eqn:E; [apply Z.eqb_eq in E; lia | apply IH; lia].
Qed.

Lemma cores_loop_nothing_asked (fuel : nat) (e : Env S) (n : Z) (e' : Env S) :
  cores e = [] -> (n <= 0)%Z -> cores_loop fuel e n <> Returned e'.
Proof.
  intros Hnil Hn. destruct fuel as [| fuel]; [discriminate |].
  rewrite cores_loop_step. cbv zeta.
  assert (Hchk : check_core (with_rd e (snd (core_candidate e)))
                            (fst (core_candidate e)) = Some true).
  { unfold check_core. simpl. rewrite Hnil. reflexivity. }
  rewrite Hchk.
  destruct (n - 1 =? 0)%Z eqn:E; [apply Z.eqb_eq in E; lia |].
  apply cores_loop_negative. lia.
Qed.

End ResetCounts.

(** X1.  A [reset] that returns has placed exactly the numbers of cores
    and of obstacles it was asked for, at least one core, and has left
    the parameters as they were. *)
Theorem reset_places_requested_counts
    {S : Type} `{RS : RandomState S} `{KD : KDTree}
    (fuel : nat) (e : Env S) (num_cores num_obs : Z) (e' : Env S) :
  reset fuel e num_cores num_obs = Returned e' ->
  Z.of_nat (length (cores e')) = num_cores /\
  Z.of_nat (length (obstacles e')) = num_obs /\
  (1 <= num_cores)%Z /\ (0 <= num_obs)%Z /\
  same_params e e'.
Proof.
  intros H. pose proof (reset_cores_nonempty _ _ _ _ _ H) as Hne.
  apply reset_sound in H. destruct H as (Hp & _ & _ & _ & Hnc & Hno).
  repeat split; try assumption; try apply Hp.
  - destruct (cores e'); [now elim Hne | simpl in Hnc; lia].
  - lia.
Qed.

Lemma reset_places_requested_counts_witness :
  reset 5 (tape_env demo_tape) 3 2 = Returned demo_result /\
  Z.of_nat (length (cores demo_result)) = 3%Z /\
  Z.of_nat (length (obstacles demo_result)) = 2%Z.
Proof.
  split; [exact demo_reset |].
  pose proof (reset_places_requested_counts 5 (tape_env demo_tape) 3 2 demo_result
                demo_reset) as (H1 & H2 & _).
  split; assumption.
Defined.

(** X2.  After a [reset] that returns the index holds the centers of
    the new cores, and a query at a point that is the center of none of
    them returns the sum of their contributions. *)
Theorem reset_then_get_velocity
    {S : Type} `{RS : RandomState S} `{KD : KDTree}
    (fuel : nat) (e : Env S) (num_cores num_obs : Z) (e' : Env S) (x y : R) :
  KDTree_ok ->
  reset fuel e num_cores num_obs = Returned e' ->
  (forall c, In c (cores e') -> center_of c <> (x, y)) ->
  core_centers e' = map center_of (cores e') /\
  get_velocity e' x y =
    Some (Fin (fst (velocity_sum e' x y)), Fin (snd (velocity_sum e' x y))).
Proof.
  intros Hok H Hoff.
  pose proof (reset_two_cores _ _ _ _ _ Hok H) as Htwo.
  apply reset_sound in H.
  destruct H as (_ & _ & _ & Hidx & _).
  split; [exact Hidx | apply get_velocity_sum; assumption].
Qed.

Lemma reset_then_get_velocity_witness :
  (@KDTree_ok BruteKDTree /\
   reset 5 (tape_env demo_tape) 3 2 = Returned demo_result /\
   (forall c, In c (cores demo_result) -> center_of c <> (5, 5))) /\
  get_velocity demo_result 5 5 =
    Some (Fin (fst (velocity_sum demo_result 5 5)),
          Fin (snd (velocity_sum demo_result 5 5))).
Proof.
  split; [split; [apply brute_index_ok | split; [exact demo_reset | exact demo_off_centers]] |].
  exact (proj2 (reset_then_get_velocity 5 (tape_env demo_tape) 3 2 demo_result 5 5
                  brute_index_ok demo_reset demo_off_centers)).
Defined.

(** X3.  Asked for no core, or for a negative number of cores, [reset]
    never returns: the first candidate is always accepted, the count
    drops below zero and is never zero again.  With nonzero [r] and
    [v_rel_max] it is still in its first loop after any number of
    iterations. *)
Theorem reset_without_cores_never_returns
    {S : Type} `{RS : RandomState S} `{KD : KDTree}
    (e : Env S) (num_cores num_obs : Z) :
  (num_cores <= 0)%Z -> nonzero_params e ->
  forall fuel : nat, reset fuel e num_cores num_obs = Running.
Proof.
  intros Hn Hnz fuel. unfold reset.
  destruct (cores_loop fuel (with_obstacles (with_cores e []) []) num_cores)
    as [e1 | |] eqn:H1.
  - exfalso.
    exact (cores_loop_nothing_asked fuel (with_obstacles (with_cores e []) [])
             num_cores e1 eq_refl Hn H1).
  - exfalso.
    exact (cores_loop_not_raised fuel (with_obstacles (with_cores e []) [])
             num_cores Hnz H1).
  - reflexivity.
Qed.

Lemma reset_without_cores_never_returns_witness :
  ((0 <= 0)%Z /\ nonzero_params (tape_env demo_tape)) /\
  reset 100 (tape_env demo_tape) 0 5 = Running.
Proof.
  split; [split; [lia | apply scene_nonzero_params] |].
  exact (reset_without_cores_never_returns (tape_env demo_tape) 0 5
           ltac:(lia) (scene_nonzero_params _ _ _ _ _) 100%nat).
Defined.

(** X4.  The obstacle loop asked for zero obstacles: it is left after
    the first candidate when that candidate is rejected, with no
    obstacle placed; when the first candidate is accepted the count
    drops to -1 and the loop is never left.  Asked for a negative
    number it is never left either. *)
Theorem obstacles_loop_zero_request
    {S : Type} `{RS : RandomState S} (e : Env S) :
  let o := fst (obstacle_candidate e) in
  let e1 := with_rd e (snd (obstacle_candidate e)) in
  (check_obstacle e1 o = false ->
   forall fuel : nat, obstacles_loop (Datatypes.S fuel) e 0 = Returned e1) /\
  (check_obstacle e1 o = true ->
   forall fuel : nat, obstacles_loop fuel e 0 = Running) /\
  (forall (n : Z) (fuel : nat), (n < 0)%Z -> obstacles_loop fuel e n = Running).
Proof.
  intros o e1. split; [| split].
  - intros Hchk fuel. rewrite obstacles_loop_step. cbv zeta.
    fold o e1. rewrite Hchk. reflexivity.
  - intros Hchk [| fuel]; [reflexivity |].
    rewrite obstacles_loop_step. cbv zeta. fold o e1. rewrite Hchk.
    change (0 - 1 =? 0)%Z with false. cbv iota.
    apply obstacles_loop_negative. lia.
  - intros n fuel Hn. apply obstacles_loop_negative. exact Hn.
Qed.

Lemma scene_collision (t : tape) (cen : list vec) (rb : Robot) :
  check_obstacle (scene t [demo_c1] [] cen rb) (mkObstacle 0 0 1) = false.
Proof.
  destruct (check_obstacle _ _) eqn:E; [| reflexivity].
  apply check_obstacle_true in E. destruct E as [E _].
  apply check_obstacle_cores_true in E. inversion E as [| ? ? Hfar _]; subst.
  revert Hfar. horizontal.
Qed.

Lemma scene_no_collision (t : tape) (cen : list vec) (rb : Robot) :
  check_obstacle (scene t [demo_c1] [] cen rb) demo_o1 = true.
Proof.
  apply check_obstacle_true. split.
  - apply check_obstacle_cores_true. unfold clear_of_cores.
    repeat constructor; horizontal.
  - reflexivity.
Qed.

Lemma obstacles_loop_zero_request_witness :
  obstacles_loop 1 (scene [0; 0; 0]%Z [demo_c1] [] [] (mkRobot 0 0 0 (0, 0))) 0
    = Returned (scene [] [demo_c1] [] [] (mkRobot 0 0 0 (0, 0))) /\
  obstacles_loop 100 (scene [80; 0; 0]%Z [demo_c1] [] [] (mkRobot 0 0 0 (0, 0))) 0
    = Running.
Proof.
  split.
  - pose proof (obstacles_loop_zero_request
                  (scene [0; 0; 0]%Z [demo_c1] [] [] (mkRobot 0 0 0 (0, 0)))) as H.
    cbv zeta in H. rewrite scene_obstacle_candidate in H. cbn [fst snd] in H.
    destruct H as (H & _). rewrite H; [reflexivity |].
    replace (mkObstacle (0 + (50 - 0) * (IZR (0 mod 100) / 100))
                        (0 + (50 - 0) * (IZR (0 mod 100) / 100))
                        (1 + (5 - 1) * (IZR (0 mod 100) / 100)))
      with (mkObstacle 0 0 1)
      by (f_equal; tape_digits; lra).
    exact (scene_collision [] [] (mkRobot 0 0 0 (0, 0))).
  - pose proof (obstacles_loop_zero_request
                  (scene [80; 0; 0]%Z [demo_c1] [] [] (mkRobot 0 0 0 (0, 0)))) as H.
    cbv zeta in H. rewrite scene_obstacle_candidate in H. cbn [fst snd] in H.
    destruct H as (_ & H & _). apply H.
    replace (mkObstacle (0 + (50 - 0) * (IZR (80 mod 100) / 100))
                        (0 + (50 - 0) * (IZR (0 mod 100) / 100))
                        (1 + (5 - 1) * (IZR (0 mod 100) / 100)))
      with demo_o1
      by (unfold demo_o1; f_equal; tape_digits; lra).
    exact (scene_no_collision [] [] (mkRobot 0 0 0 (0, 0))).
Defined.

(** ** [reset]: where the entities lie and how strong they are *)

Section ResetRanges.

Context {S : Type} `{RS : RandomState S} `{KD : KDTree}.

Lemma in_uniform_bounds (low high v : R) :
  low <= high -> in_uniform low high v -> low <= v <= high.
Proof. intros Hle (u & Hu & ->). split; nra. Qed.

Lemma in_uniform_below (low high v : R) :
  low < high -> in_uniform low high v -> low <= v < high.
Proof. intros Hle (u & Hu & ->). split; nra. Qed.

End ResetRanges.

(** X5.  With a stream of draws in [0, 1) and a map of positive width
    and height, every core and every obstacle of a [reset] that returns
    has its center inside the map: [0 <= x < width], [0 <= y < height]. *)
Theorem reset_positions_in_domain
    {S : Type} `{RS : RandomState S} `{KD : KDTree}
    (fuel : nat) (e : Env S) (num_cores num_obs : Z) (e' : Env S) :
  RandomState_ok -> 0 < width e -> 0 < height e ->
  reset fuel e num_cores num_obs = Returned e' ->
  (forall c, In c (cores e') ->
     0 <= core_x c < width e' /\ 0 <= core_y c < height e') /\
  (forall o, In o (obstacles e') ->
     0 <= obs_x o < width e' /\ 0 <= obs_y o < height e').
Proof.
  intros Hok Hw Hh Hrun.
  pose proof (reset_drawable Hok _ _ _ _ _ Hrun) as [Hdc Hdo].
  apply reset_sound in Hrun. destruct Hrun as ((Hw' & Hh' & _) & _).
  rewrite <- Hw' in Hw. rewrite <- Hh' in Hh.
  rewrite Forall_forall in Hdc, Hdo. split.
  - intros c Hc. destruct (Hdc c Hc) as (Hx & Hy & _).
    split; apply in_uniform_below; assumption.
  - intros o Ho. destruct (Hdo o Ho) as (Hx & Hy & _).
    split; apply in_uniform_below; assumption.
Qed.

Lemma reset_positions_in_domain_witness :
  (@RandomState_ok tape TapeRandomState /\
   0 < width (tape_env demo_tape) /\ 0 < height (tape_env demo_tape) /\
   reset 5 (tape_env demo_tape) 3 2 = Returned demo_result) /\
  0 <= core_x demo_c2 < width demo_result /\
  0 <= obs_x demo_o2 < width demo_result.
Proof.
  assert (Hw : 0 < width (tape_env demo_tape)) by (simpl; lra).
  assert (Hh : 0 < height (tape_env demo_tape)) by (simpl; lra).
  split.
  { split; [apply tape_stream_ok |]. split; [exact Hw |].
    split; [exact Hh | exact demo_reset]. }
  destruct (reset_positions_in_domain 5 (tape_env demo_tape) 3 2 demo_result
              tape_stream_ok Hw Hh demo_reset) as [Hc Ho].
  split.
  - apply (Hc demo_c2). simpl. tauto.
  - apply (Ho demo_o2). simpl. tauto.
Defined.

(** X6.  With a positive core radius and an ordered speed range, every
    core of a [reset] that returns has a strength
    [Gamma = 2 pi r v] for an edge speed [v] within [v_range], and
    [compute_speed] gives that speed back at the edge of the core:
    [compute_speed(Gamma, r) = v]. *)
Theorem reset_edge_speeds_in_range
    {S : Type} `{RS : RandomState S} `{KD : KDTree}
    (fuel : nat) (e : Env S) (num_cores num_obs : Z) (e' : Env S) :
  RandomState_ok -> 0 < r e -> fst (v_range e) <= snd (v_range e) ->
  reset fuel e num_cores num_obs = Returned e' ->
  forall c, In c (cores e') ->
    exists v : R,
      fst (v_range e') <= v <= snd (v_range e') /\
      Gamma c = 2 * PI * r e' * v /\
      compute_speed e' (Gamma c) (r e') = Some (Fin v).
Proof.
  intros Hok Hr Hle Hrun c Hc. pose proof PI_RGT_0 as Hpi.
  pose proof (reset_drawable Hok _ _ _ _ _ Hrun) as [Hdc _].
  apply reset_sound in Hrun. destruct Hrun as ((_ & _ & Hr' & _ & _ & Hv' & _) & _).
  rewrite <- Hr' in Hr. rewrite <- Hv' in Hle.
  rewrite Forall_forall in Hdc. destruct (Hdc c Hc) as (_ & _ & v & Hv & HG).
  exists v. split; [apply in_uniform_bounds; assumption |].
  split; [exact HG |].
  rewrite compute_speed_inside; [| lra | lra].
  rewrite HG. do 2 f_equal. field. split; lra.
Qed.

Lemma reset_edge_speeds_in_range_witness :
  (@RandomState_ok tape TapeRandomState /\
   0 < r (tape_env demo_tape) /\
   fst (v_range (tape_env demo_tape)) <= snd (v_range (tape_env demo_tape)) /\
   reset 5 (tape_env demo_tape) 3 2 = Returned demo_result) /\
  exists v : R,
    fst (v_range demo_result) <= v <= snd (v_range demo_result) /\
    Gamma demo_c3 = 2 * PI * r demo_result * v /\
    compute_speed demo_result (Gamma demo_c3) (r demo_result) = Some (Fin v).
Proof.
  assert (Hr : 0 < r (tape_env demo_tape)) by (simpl; lra).
  assert (Hle : fst (v_range (tape_env demo_tape)) <= snd (v_range (tape_env demo_tape)))
    by (simpl; lra).
  split.
  { split; [apply tape_stream_ok |]. split; [exact Hr |].
    split; [exact Hle | exact demo_reset]. }
  apply (reset_edge_speeds_in_range 5 (tape_env demo_tape) 3 2 demo_result
           tape_stream_ok Hr Hle demo_reset demo_c3).
  simpl. tauto.
Defined.

(** X7.  With an ordered radius range, every obstacle of a [reset] that
    returns has its radius within [obs_r_range]. *)
Theorem reset_obstacle_radii_in_range
    {S : Type} `{RS : RandomState S} `{KD : KDTree}
    (fuel : nat) (e : Env S) (num_cores num_obs : Z) (e' : Env S) :
  RandomState_ok -> fst (obs_r_range e) <= snd (obs_r_range e) ->
  reset fuel e num_cores num_obs = Returned e' ->
  forall o, In o (obstacles e') ->
    fst (obs_r_range e') <= obs_r o <= snd (obs_r_range e').
Proof.
  intros Hok Hle Hrun o Ho.
  pose proof (reset_drawable Hok _ _ _ _ _ Hrun) as [_ Hdo].
  apply reset_sound in Hrun.
  destruct Hrun as ((_ & _ & _ & _ & _ & _ & Ho' & _) & _).
  rewrite <- Ho' in Hle.
  rewrite Forall_forall in Hdo. destruct (Hdo o Ho) as (_ & _ & Hr).
  apply in_uniform_bounds; assumption.
Qed.

Lemma reset_obstacle_radii_in_range_witness :
  (@RandomState_ok tape TapeRandomState /\
   fst (obs_r_range (tape_env demo_tape)) <= snd (obs_r_range (tape_env demo_tape)) /\
   reset 5 (tape_env demo_tape) 3 2 = Returned demo_result) /\
  fst (obs_r_range demo_result) <= obs_r demo_o2 <= snd (obs_r_range demo_result).
Proof.
  assert (Hle : fst (obs_r_range (tape_env demo_tape))
                <= snd (obs_r_range (tape_env demo_tape))) by (simpl; lra).
  split; [split; [apply tape_stream_ok | split; [exact Hle | exact demo_reset]] |].
  apply (reset_obstacle_radii_in_range 5 (tape_env demo_tape) 3 2 demo_result
           tape_stream_ok Hle demo_reset demo_o2).
  simpl. tauto.
Defined.

(** ** [reset]: how far apart the cores are *)

Section Separation.

Context {S : Type} `{RS : RandomState S} `{KD : KDTree}.

(** What a [reset] that returns gives for two of its cores. *)
Lemma reset_core_pair (fuel : nat) (e : Env S) (nc no : Z) (e' : Env S)
    (i j : nat) (ci cj : Core) :
  RandomState_ok ->
  reset fuel e nc no = Returned e' ->
  i <> j ->
  nth_error (cores e') i = Some ci -> nth_error (cores e') j = Some cj ->
  check_core_pair e' ci cj = Some true /\
  drawable_core e' ci /\ drawable_core e' cj /\ same_params e e'.
Proof.
  intros Hok Hrun Hij Hi Hj.
  pose proof (reset_drawable Hok _ _ _ _ _ Hrun) as [Hdc _].
  apply reset_sound in Hrun. destruct Hrun as (Hp & Hacc & _).
  rewrite Forall_forall in Hdc.
  split; [eapply accepted_cores_nth; eassumption |].
  split; [apply Hdc; eapply nth_error_In; eassumption |].
  split; [apply Hdc; eapply nth_error_In; eassumption | exact Hp].
Qed.

End Separation.

(** X8.  With positive [r] and [v_rel_max] and an ordered speed range,
    two distinct cores of the same rotation sense of a [reset] that
    returns are at least [2 r v_low / v_rel_max] apart, [v_low] being
    the lower end of [v_range]. *)
Theorem same_sense_minimum_separation
    {S : Type} `{RS : RandomState S} `{KD : KDTree}
    (fuel : nat) (e : Env S) (num_cores num_obs : Z) (e' : Env S) :
  RandomState_ok ->
  0 < r e -> 0 < v_rel_max e -> fst (v_range e) <= snd (v_range e) ->
  reset fuel e num_cores num_obs = Returned e' ->
  forall (i j : nat) (ci cj : Core),
    i <> j ->
    nth_error (cores e') i = Some ci -> nth_error (cores e') j = Some cj ->
    clockwise ci = clockwise cj ->
    2 * r e * fst (v_range e) / v_rel_max e <= core_distance ci cj.
Proof.
  intros Hok Hr Hvm Hle Hrun i j ci cj Hij Hi Hj Hdir.
  pose proof PI_RGT_0 as Hpi.
  destruct (reset_core_pair fuel e num_cores num_obs e' i j ci cj Hok Hrun Hij Hi Hj)
    as (Hpair & Hdi & Hdj & Hp).
  destruct Hp as (_ & _ & Hr' & Hvm' & _ & Hv' & _).
  apply (check_core_pair_same e' ci cj Hdir) in Hpair. destruct Hpair as [_ Hsep].
  destruct Hdi as (_ & _ & vi & Hvi & HGi).
  destruct Hdj as (_ & _ & vj & Hvj & HGj).
  rewrite Hv' in Hvi, Hvj.
  apply (in_uniform_bounds _ _ _ Hle) in Hvi.
  apply (in_uniform_bounds _ _ _ Hle) in Hvj.
  unfold boundary in Hsep. rewrite HGi, HGj, Hr', Hvm' in Hsep.
  assert (Hb : forall v, 2 * PI * r e * v / (2 * PI * v_rel_max e)
                         = r e * v / v_rel_max e)
    by (intros v; field; split; lra).
  rewrite !Hb in Hsep.
  assert (Hinv : 0 < / v_rel_max e) by (apply Rinv_0_lt_compat; exact Hvm).
  unfold Rdiv in *.
  assert (r e * fst (v_range e) * / v_rel_max e <= r e * vi * / v_rel_max e)
    by (apply Rmult_le_compat_r; [lra | apply Rmult_le_compat_l; lra]).
  assert (r e * fst (v_range e) * / v_rel_max e <= r e * vj * / v_rel_max e)
    by (apply Rmult_le_compat_r; [lra | apply Rmult_le_compat_l; lra]).
  lra.
Qed.

Lemma same_sense_minimum_separation_witness :
  (@RandomState_ok tape TapeRandomState /\
   0 < r (tape_env demo_tape) /\ 0 < v_rel_max (tape_env demo_tape) /\
   fst (v_range (tape_env demo_tape)) <= snd (v_range (tape_env demo_tape)) /\
   reset 5 (tape_env demo_tape) 3 2 = Returned demo_result) /\
  2 * r (tape_env demo_tape) * fst (v_range (tape_env demo_tape))
    / v_rel_max (tape_env demo_tape) <= core_distance demo_c1 demo_c2.
Proof.
  assert (Hr : 0 < r (tape_env demo_tape)) by (simpl; lra).
  assert (Hvm : 0 < v_rel_max (tape_env demo_tape)) by (simpl; lra).
  assert (Hle : fst (v_range (tape_env demo_tape)) <= snd (v_range (tape_env demo_tape)))
    by (simpl; lra).
  split.
  { split; [apply tape_stream_ok |]. split; [exact Hr |]. split; [exact Hvm |].
    split; [exact Hle | exact demo_reset]. }
  apply (same_sense_minimum_separation 5 (tape_env demo_tape) 3 2 demo_result
           tape_stream_ok Hr Hvm Hle demo_reset 0%nat 1%nat demo_c1 demo_c2);
    [discriminate | reflexivity | reflexivity | reflexivity].
Defined.

(** X9.  With positive [r], [p] and speed range, two distinct cores of
    opposite rotation senses of a [reset] that returns are either
    nearer than [2r] or at least [2r + r/p] apart: no distance in
    between is ever accepted. *)
Theorem opposite_sense_forbidden_band
    {S : Type} `{RS : RandomState S} `{KD : KDTree}
    (fuel : nat) (e : Env S) (num_cores num_obs : Z) (e' : Env S) :
  RandomState_ok ->
  0 < r e -> 0 < p e -> 0 < fst (v_range e) -> 0 < snd (v_range e) ->
  reset fuel e num_cores num_obs = Returned e' ->
  forall (i j : nat) (ci cj : Core),
    i <> j ->
    nth_error (cores e') i = Some ci -> nth_error (cores e') j = Some cj ->
    clockwise ci <> clockwise cj ->
    core_distance ci cj < 2 * r e \/ 2 * r e + r e / p e <= core_distance ci cj.
Proof.
  intros Hok Hr Hpp Hlo Hhi Hrun i j ci cj Hij Hi Hj Hdir.
  pose proof PI_RGT_0 as Hpi.
  destruct (reset_core_pair fuel e num_cores num_obs e' i j ci cj Hok Hrun Hij Hi Hj)
    as (Hpair & Hdi & Hdj & Hp).
  destruct Hp as (_ & _ & Hr' & _ & Hp' & Hv' & _).
  assert (HGi : 0 < Gamma ci)
    by (apply (drawable_core_strength e' ci); rewrite ?Hr', ?Hv'; assumption).
  assert (HGj : 0 < Gamma cj)
    by (apply (drawable_core_strength e' cj); rewrite ?Hr', ?Hv'; assumption).
  set (d := core_distance ci cj) in *.
  set (Gl := Rmax (Gamma ci) (Gamma cj)) in *.
  set (Gs := Rmin (Gamma ci) (Gamma cj)) in *.
  assert (HGs : 0 < Gs) by (apply Rmin_glb_lt; assumption).
  assert (HGls : Gs <= Gl).
  { unfold Gs, Gl. pose proof (Rmin_l (Gamma ci) (Gamma cj)).
    pose proof (Rmax_l (Gamma ci) (Gamma cj)). lra. }
  destruct (Rlt_dec d (2 * r e)) as [Hnear | Hfar]; [left; exact Hnear | right].
  assert (Hd : d - 2 * r e' <> 0).
  { intros Hd0.
    rewrite (check_core_pair_opposite_touching e' ci cj) in Hpair;
      try assumption; try discriminate; try lra. fold Gl. lra. }
  apply (check_core_pair_opposite e' ci cj) in Hpair; try assumption; try lra.
  fold d Gl Gs in Hpair. rewrite Hr', Hp' in Hpair. rewrite Hr' in Hd.
  assert (Hgap : 0 < d - 2 * r e) by lra.
  (* Gl / (2 pi (d - 2r)) <= p Gs / (2 pi r)  gives  Gl r <= p Gs (d - 2r) *)
  assert (Hcross : Gl * r e <= p e * Gs * (d - 2 * r e)).
  { assert (H1 : Gl / (2 * PI * (d - 2 * r e)) * (2 * PI * (d - 2 * r e) * r e)
                 = Gl * r e) by (field; lra).
    assert (H2 : p e * (Gs / (2 * PI * r e)) * (2 * PI * (d - 2 * r e) * r e)
                 = p e * Gs * (d - 2 * r e)) by (field; lra).
    rewrite <- H1, <- H2. apply Rmult_le_compat_r; [| exact Hpair].
    apply Rlt_le. apply Rmult_lt_0_compat; [| exact Hr].
    apply Rmult_lt_0_compat; lra. }
  assert (Hpg : 0 < p e * Gs) by (apply Rmult_lt_0_compat; assumption).
  assert (Hrp : r e / p e <= d - 2 * r e); [| lra].
  apply (Rmult_le_reg_l (p e * Gs)); [exact Hpg |].
  replace (p e * Gs * (r e / p e)) with (Gs * r e) by (field; lra).
  assert (Gs * r e <= Gl * r e) by (apply Rmult_le_compat_r; lra).
  lra.
Qed.

Lemma opposite_sense_forbidden_band_witness :
  (@RandomState_ok tape TapeRandomState /\
   0 < r (tape_env demo_tape) /\ 0 < p (tape_env demo_tape) /\
   0 < fst (v_range (tape_env demo_tape)) /\
   0 < snd (v_range (tape_env demo_tape)) /\
   reset 5 (tape_env demo_tape) 3 2 = Returned demo_result) /\
  (core_distance demo_c1 demo_c3 < 2 * r (tape_env demo_tape) \/
   2 * r (tape_env demo_tape) + r (tape_env demo_tape) / p (tape_env demo_tape)
     <= core_distance demo_c1 demo_c3).
Proof.
  assert (Hr : 0 < r (tape_env demo_tape)) by (simpl; lra).
  assert (Hp : 0 < p (tape_env demo_tape)) by (simpl; lra).
  assert (Hlo : 0 < fst (v_range (tape_env demo_tape))) by (simpl; lra).
  assert (Hhi : 0 < snd (v_range (tape_env demo_tape))) by (simpl; lra).
  split.
  { split; [apply tape_stream_ok |]. split; [exact Hr |]. split; [exact Hp |].
    split; [exact Hlo |]. split; [exact Hhi | exact demo_reset]. }
  apply (opposite_sense_forbidden_band 5 (tape_env demo_tape) 3 2 demo_result
           tape_stream_ok Hr Hp Hlo Hhi demo_reset 0%nat 2%nat demo_c1 demo_c3);
    [discriminate | reflexivity | reflexivity | discriminate].
Defined.

(** ** [check_core] and [compute_speed]: order, errors, bounds *)

Section CheckOrder.

Context {S : Type}.

Lemma check_core_loop_permutation (e : Env S) (cs cs' : list Core) (c : Core) :
  nonzero_params e -> Permutation cs cs' ->
  check_core_loop e cs c = check_core_loop e cs' c.
Proof.
  intros Hnz. induction 1 as [| a l l' _ IH | a b l | l l' l'' _ IH1 _ IH2]; simpl.
  - reflexivity.
  - rewrite IH. reflexivity.
  - destruct (check_core_pair_returns e a c Hnz) as [[|] ->];
      destruct (check_core_pair_returns e b c Hnz) as [[|] ->]; reflexivity.
  - congruence.
Qed.

Lemma check_core_pair_raises (e : Env S) (ci cj : Core) :
  check_core_pair e ci cj = None <->
  (clockwise ci = clockwise cj /\ v_rel_max e = 0) \/
  (clockwise ci <> clockwise cj /\ r e = 0).
Proof.
  pose proof PI_RGT_0 as Hpi. unfold check_core_pair.
  destruct (Bool.eqb (clockwise ci) (clockwise cj)) eqn:Heq.
  - apply Bool.eqb_prop in Heq.
    destruct (Req_dec (v_rel_max e) 0) as [Hv | Hv].
    + rewrite Hv, Rmult_0_r, py_div_none. split; [intros _; left; easy | reflexivity].
    + rewrite !py_div_some by (now apply two_pi_nonzero).
      split.
      * destruct (NP.Rltb _ _); discriminate.
      * intros [[_ H] | [H _]]; [now elim Hv | now elim H].
  - assert (Hne : clockwise ci <> clockwise cj).
    { intros H. rewrite H, Bool.eqb_reflx in Heq. discriminate. }
    destruct (Req_dec (r e) 0) as [Hr | Hr].
    + rewrite Hr, !Rmult_0_r, py_div_none. split; [intros _; right; easy | reflexivity].
    + rewrite py_div_some by (now apply two_pi_nonzero).
      split.
      * destruct (NP.gt _ _); discriminate.
      * intros [[H _] | [_ H]]; [now elim Hne | now elim Hr].
Qed.

End CheckOrder.

(** X10.  [check_core] does not depend on the order of things: checking
    [cj] against the single core [ci] gives what checking [ci] against
    the single core [cj] gives, and with nonzero [r] and [v_rel_max]
    the answer for a candidate is the same for every order of the list
    of cores. *)
Theorem check_core_order_independent {S : Type} (e : Env S) (c : Core) :
  (forall ci : Core,
     check_core (with_cores e [ci]) c = check_core (with_cores e [c]) ci) /\
  (nonzero_params e ->
   forall cs cs' : list Core,
     Permutation cs cs' ->
     check_core (with_cores e cs) c = check_core (with_cores e cs') c).
Proof.
  split.
  - intros ci. unfold check_core. simpl.
    change (check_core_pair (with_cores e [ci]) ci c)
      with (check_core_pair e ci c).
    change (check_core_pair (with_cores e [c]) c ci)
      with (check_core_pair e c ci).
    rewrite (check_core_pair_sym e ci c). reflexivity.
  - intros Hnz cs cs' Hperm. unfold check_core. simpl.
    rewrite (check_core_loop_same e (with_cores e cs)) by (repeat split).
    rewrite (check_core_loop_same e (with_cores e cs')) by (repeat split).
    apply check_core_loop_permutation; assumption.
Qed.

Lemma check_core_order_independent_witness :
  nonzero_params (tape_env []) /\
  check_core (with_cores (tape_env []) [demo_c1; demo_c2]) demo_c3 =
  check_core (with_cores (tape_env []) [demo_c2; demo_c1]) demo_c3.
Proof.
  split; [apply scene_nonzero_params |].
  apply (proj2 (check_core_order_independent (tape_env []) demo_c3)
           (scene_nonzero_params _ _ _ _ _)).
  apply perm_swap.
Defined.

(** X11.  [check_core] on a single existing core raises
    [ZeroDivisionError] exactly in two cases: the two cores turn the
    same way and [v_rel_max] is zero, or they turn opposite ways and
    [r] is zero. *)
Theorem check_core_raises_iff {S : Type} (e : Env S) (ci cj : Core) :
  check_core (with_cores e [ci]) cj = None <->
  (clockwise ci = clockwise cj /\ v_rel_max e = 0) \/
  (clockwise ci <> clockwise cj /\ r e = 0).
Proof.
  rewrite <- (check_core_pair_raises e ci cj).
  unfold check_core. simpl.
  change (check_core_pair (with_cores e [ci]) ci cj) with (check_core_pair e ci cj).
  destruct (check_core_pair e ci cj) as [[|] |]; split; intros; try discriminate;
    reflexivity.
Qed.

(** X12.  [compute_speed] raises [ZeroDivisionError] exactly when the
    core radius is zero and the distance is not positive; in every
    other case it returns. *)
Theorem compute_speed_raises_iff {S : Type} (e : Env S) (G d : R) :
  compute_speed e G d = None <-> r e = 0 /\ d <= 0.
Proof.
  unfold compute_speed. destruct (NP.Rleb d (r e)) eqn:E.
  - apply Rleb_true in E. destruct (Req_dec (r e) 0) as [Hr | Hr].
    + rewrite Hr, !Rmult_0_r, py_div_none. rewrite Hr in E.
      split; [intros _; split; [reflexivity | exact E] | reflexivity].
    + rewrite py_div_some.
      * split; [discriminate | intros [H _]; now elim Hr].
      * apply Rmult_integral_contrapositive_currified; [| assumption].
        now apply two_pi_nonzero.
  - apply Rleb_false in E. split; [discriminate |].
    intros [Hr Hd]. rewrite Hr in E. lra.
Qed.

(** X13.  With a positive core radius, a strength [Gamma >= 0] and a
    distance [d >= 0], the speed [compute_speed] returns lies between 0
    and the speed at the edge of the core, [Gamma / (2 pi r)]. *)
Theorem compute_speed_bounded {S : Type} (e : Env S) (G d : R) :
  0 < r e -> 0 <= G -> 0 <= d ->
  exists s : R,
    compute_speed e G d = Some (Fin s) /\ 0 <= s <= G / (2 * PI * r e).
Proof.
  intros Hr HG Hd. pose proof PI_RGT_0 as Hpi.
  assert (Hedge : 0 < 2 * PI * r e) by (now apply two_pi_pos).
  destruct (Rle_dec d (r e)) as [Hin | Hout].
  - rewrite compute_speed_inside by lra. eexists. split; [reflexivity |].
    replace (G / (2 * PI * r e * r e) * d) with (G / (2 * PI * r e) * (d / r e))
      by (field; lra).
    assert (H0 : 0 <= G / (2 * PI * r e))
      by (apply Rmult_le_pos; [exact HG | apply Rlt_le, Rinv_0_lt_compat; exact Hedge]).
    assert (H1 : 0 <= d / r e <= 1).
    { split.
      - apply Rmult_le_pos; [exact Hd | apply Rlt_le, Rinv_0_lt_compat; exact Hr].
      - apply (Rmult_le_reg_r (r e)); [exact Hr |].
        unfold Rdiv. rewrite Rmult_assoc, Rinv_l by lra. lra. }
    split; [apply Rmult_le_pos; lra | nra].
  - assert (Hdr : r e < d) by lra.
    rewrite compute_speed_outside by lra. eexists. split; [reflexivity |].
    assert (Hfar : 0 < 2 * PI * d) by (apply two_pi_pos; lra).
    split.
    + apply Rmult_le_pos; [exact HG | apply Rlt_le, Rinv_0_lt_compat; exact Hfar].
    + unfold Rdiv. apply Rmult_le_compat_l; [exact HG |].
      apply Rinv_le_contravar; [exact Hedge | nra].
Qed.

Lemma compute_speed_bounded_witness :
  (0 < r (tape_env []) /\ 0 <= 7 /\ 0 <= 3) /\
  exists s : R,
    compute_speed (tape_env []) 7 3 = Some (Fin s) /\
    0 <= s <= 7 / (2 * PI * r (tape_env [])).
Proof.
  assert (Hr : 0 < r (tape_env [])) by (simpl; lra).
  split; [split; [exact Hr | split; lra] |].
  exact (compute_speed_bounded (tape_env []) 7 3 Hr ltac:(lra) ltac:(lra)).
Defined.

(** ** [get_velocity]: errors, geometry of a contribution, composition *)

Section VelocityMore.

Context {S : Type} `{KD : KDTree}.

(** With a zero core radius the step for a core centered at the query
    point raises. *)
Lemma velocity_step_raises_at_center (e : Env S) (x y : R) (c : Core)
    (st : list vec64 * vec64) :
  r e = 0 -> center_of c = (x, y) -> velocity_step e x y c st = None.
Proof.
  intros Hr Hc. injection Hc as Hx Hy.
  rewrite velocity_step_filter_free. unfold velocity_step_unfiltered.
  destruct st as [vs v]. cbv zeta. cbn [fst snd].
  assert (Hn : norm (core_x c - x, core_y c - y) = 0).
  { rewrite norm_is_distance. apply distance_zero_iff. split; assumption. }
  rewrite Hn.
  assert (Hs : compute_speed e (Gamma c) 0 = None).
  { apply compute_speed_raises_iff. split; [exact Hr | lra]. }
  rewrite Hs. reflexivity.
Qed.

Lemma velocity_loop_raises_at_center (e : Env S) (x y : R) (c : Core) (k : nat)
    (idx : list nat) (st : list vec64 * vec64) :
  r e = 0 -> center_of c = (x, y) ->
  nth_error (cores e) k = Some c -> In k idx ->
  velocity_loop e x y idx st = None.
Proof.
  intros Hr Hc Hk. revert st.
  induction idx as [| i idx IH]; intros st Hin; [contradiction |].
  cbn [velocity_loop].
  destruct (nth_error (cores e) i) as [ci |] eqn:Hci; [| reflexivity].
  destruct Hin as [-> | Hin].
  - assert (ci = c) by congruence. subst ci.
    rewrite (velocity_step_raises_at_center e x y c st Hr Hc). reflexivity.
  - destruct (velocity_step e x y ci st) as [st' |]; [| reflexivity].
    apply IH. exact Hin.
Qed.

End VelocityMore.

(** X14.  With the index holding the centers of the cores, of which
    there is at least one, [get_velocity] raises in exactly two cases:
    there is exactly one core, whatever the query point (the query
    hands back a bare index and [list(idx)] raises); or the core radius
    is zero and the query point is the center of a core. *)
Theorem get_velocity_raises_iff {S : Type} `{KD : KDTree} (e : Env S) (x y : R) :
  KDTree_ok ->
  core_centers e = map center_of (cores e) ->
  cores e <> [] ->
  (get_velocity e x y = None <->
   length (cores e) = 1%nat \/
   (r e = 0 /\ exists c, In c (cores e) /\ center_of c = (x, y))).
Proof.
  intros Hok Hidx Hne.
  assert (Hlen : length (cores e) = 1%nat \/ (2 <= length (cores e))%nat).
  { destruct (cores e) as [| c0 [| c1 cs]]; cbn [length];
      [congruence | left; reflexivity | right; lia]. }
  split.
  - intros Hnone. destruct Hlen as [Hone | Htwo]; [left; exact Hone | right].
    destruct (Req_dec (r e) 0) as [Hr | Hr].
    + split; [exact Hr |].
      destruct (Classical_Prop.classic
                  (exists c, In c (cores e) /\ center_of c = (x, y)))
        as [Hex | Hnex]; [exact Hex | exfalso].
      assert (Hoff : forall c, In c (cores e) -> center_of c <> (x, y)).
      { intros c Hc Heq. apply Hnex. exists c. split; assumption. }
      rewrite (get_velocity_sum e x y Hok Hidx Htwo Hoff) in Hnone. discriminate.
    + exfalso. destruct (get_velocity_returns e x y Hok Hr Hidx Htwo) as [v Hv].
      rewrite Hv in Hnone. discriminate.
  - intros Hcase.
    destruct Hlen as [Hone | Htwo];
      [exact (get_velocity_single_core e x y Hok Hidx Hone) |].
    destruct Hcase as [Hone | (Hr & c & Hin & Hc)]; [lia |].
    destruct (ranking_of_cores e (x, y) Hok Hidx Htwo) as (idx & Hq & Hperm).
    rewrite (get_velocity_indices e x y idx Hq).
    destruct (In_nth_error _ _ Hin) as [k Hk].
    assert (Hkin : In k idx).
    { apply (Permutation_in _ (Permutation_sym Hperm)).
      apply in_seq. split; [lia |]. simpl. apply nth_error_Some. congruence. }
    rewrite (velocity_loop_raises_at_center e x y c k _ _ Hr Hc Hk Hkin).
    reflexivity.
Qed.

Lemma get_velocity_raises_iff_witness :
  (@KDTree_ok BruteKDTree /\
   core_centers demo_result = map center_of (cores demo_result) /\
   cores demo_result <> []) /\
  get_velocity demo_result 0 0 <> None /\
  get_velocity (with_scene (tape_env []) [demo_c3]) 0 0 = None.
Proof.
  assert (Hidx : core_centers demo_result = map center_of (cores demo_result))
    by reflexivity.
  assert (Hne : cores demo_result <> []) by discriminate.
  split; [split; [apply brute_index_ok | split; [exact Hidx | exact Hne]] |].
  split.
  - intros Hnone.
    apply (get_velocity_raises_iff demo_result 0 0 brute_index_ok Hidx Hne) in Hnone.
    destruct Hnone as [Hone | [Hr _]]; [discriminate | simpl in Hr; lra].
  - apply (get_velocity_raises_iff (with_scene (tape_env []) [demo_c3]) 0 0
             brute_index_ok eq_refl ltac:(discriminate)).
    left. reflexivity.
Defined.

(** X15.  One pass of the loop of [get_velocity] for a core that is not
    centered at the query point adds a finite vector [(a, b)] that is
    perpendicular to the direction towards the core, has the length
    [compute_speed] gives, and turns about the core in the sense of its
    flag: the moment [(x - cx) b - (y - cy) a] is [- d * speed] for a
    clockwise core and [d * speed] otherwise. *)
Theorem contribution_is_tangential {S : Type} (e : Env S) (x y : R) (c : Core)
    (v_radial_set : list vec64) :
  center_of c <> (x, y) ->
  let d := norm (core_x c - x, core_y c - y) in
  exists (vs : list vec64) (a b s : R),
    velocity_step e x y c (v_radial_set, (Fin 0, Fin 0)) = Some (vs, (Fin a, Fin b)) /\
    compute_speed e (Gamma c) d = Some (Fin s) /\
    a * (core_x c - x) + b * (core_y c - y) = 0 /\
    a * a + b * b = s * s /\
    (x - core_x c) * b - (y - core_y c) * a
      = (if clockwise c then - (d * s) else d * s).
Proof.
  intros Hne d. pose proof (norm_pos_off_center c x y Hne) as Hd. fold d in Hd.
  destruct (velocity_step_finite e x y c v_radial_set (0, 0) Hne) as [vs Hstep].
  cbn [fst snd] in Hstep.
  exists vs. eexists. eexists. exists (speed_profile (r e) (Gamma c) d).
  split; [exact Hstep |].
  split; [apply compute_speed_profile; exact Hd |].
  unfold contribution, vadd, mat_vec. cbn [fst snd]. fold d.
  set (s := speed_profile (r e) (Gamma c) d).
  set (qx := core_x c - x). set (qy := core_y c - y).
  assert (Hsq : qx * qx + qy * qy = d * d).
  { unfold d, norm. cbn [fst snd]. fold qx qy.
    rewrite sqrt_sqrt; [reflexivity |].
    pose proof (Rle_0_sqr qx) as H1. pose proof (Rle_0_sqr qy) as H2.
    unfold Rsqr in H1, H2. lra. }
  assert (Hunit : qx / d * (qx / d) + qy / d * (qy / d) = 1).
  { replace (qx / d * (qx / d) + qy / d * (qy / d))
      with ((qx * qx + qy * qy) / (d * d)) by (field; lra).
    rewrite Hsq. field. lra. }
  assert (Hdot : qx / d * qx + qy / d * qy = d).
  { replace (qx / d * qx + qy / d * qy) with ((qx * qx + qy * qy) / d)
      by (field; lra).
    rewrite Hsq. field. lra. }
  replace (x - core_x c) with (- qx) by (unfold qx; ring).
  replace (y - core_y c) with (- qy) by (unfold qy; ring).
  destruct (clockwise c); unfold rotation_of; cbn [fst snd].
  - split; [field; lra |]. split.
    + transitivity ((qx / d * (qx / d) + qy / d * (qy / d)) * (s * s)); [ring |].
      rewrite Hunit. ring.
    + transitivity (- ((qx / d * qx + qy / d * qy) * s)); [ring |].
      rewrite Hdot. ring.
  - split; [field; lra |]. split.
    + transitivity ((qx / d * (qx / d) + qy / d * (qy / d)) * (s * s)); [ring |].
      rewrite Hunit. ring.
    + transitivity ((qx / d * qx + qy / d * qy) * s); [ring |].
      rewrite Hdot. ring.
Qed.

Lemma contribution_is_tangential_witness :
  center_of demo_c1 <> (3, 4) /\
  exists (vs : list vec64) (a b s : R),
    velocity_step demo_result 3 4 demo_c1 ([], (Fin 0, Fin 0))
      = Some (vs, (Fin a, Fin b)) /\
    a * (core_x demo_c1 - 3) + b * (core_y demo_c1 - 4) = 0 /\
    a * a + b * b = s * s.
Proof.
  assert (Hne : center_of demo_c1 <> (3, 4)).
  { unfold center_of. simpl. intros H. injection H as H1 H2. lra. }
  split; [exact Hne |].
  destruct (contribution_is_tangential demo_result 3 4 demo_c1 [] Hne)
    as (vs & a & b & s & H1 & _ & H2 & H3 & _).
  exists vs, a, b, s. repeat split; assumption.
Defined.

Lemma vsum_app (l1 l2 : list vec) : vsum (l1 ++ l2) = vadd (vsum l1) (vsum l2).
Proof.
  induction l1 as [| a l1 IH]; simpl.
  - unfold vadd. simpl. destruct (vsum l2) as [u v]. simpl.
    f_equal; ring.
  - fold (vsum (l1 ++ l2)). fold (vsum l1). rewrite IH.
    unfold vadd. simpl. f_equal; ring.
Qed.

Section SceneField.

Context {S : Type} `{KD : KDTree}.

(** The field of the environment with the cores [cs] and a fresh
    index, off the centers of the cores. *)
Lemma scene_field (e : Env S) (cs : list Core) (x y : R) :
  KDTree_ok ->
  (2 <= length cs)%nat ->
  (forall c, In c cs -> center_of c <> (x, y)) ->
  get_velocity (with_scene e cs) x y =
  Some (Fin (fst (vsum (map (contribution e x y) cs))),
        Fin (snd (vsum (map (contribution e x y) cs)))).
Proof.
  intros Hok Htwo Hoff.
  rewrite (get_velocity_sum (with_scene e cs) x y Hok eq_refl Htwo Hoff).
  reflexivity.
Qed.

End SceneField.

(** X16.  The field of two groups of cores together is the sum of the
    fields of each group alone: for two groups of two cores or more
    each, at a point that is the center of no core, [get_velocity] over
    the cores [cs1 ++ cs2] returns the sum of what it returns over
    [cs1] and over [cs2] (each time with the index rebuilt over the
    cores in place). *)
Theorem get_velocity_superposition {S : Type} `{KD : KDTree}
    (e : Env S) (cs1 cs2 : list Core) (x y : R) :
  KDTree_ok -> (2 <= length cs1)%nat -> (2 <= length cs2)%nat ->
  (forall c, In c (cs1 ++ cs2) -> center_of c <> (x, y)) ->
  exists a1 b1 a2 b2 : R,
    get_velocity (with_scene e cs1) x y = Some (Fin a1, Fin b1) /\
    get_velocity (with_scene e cs2) x y = Some (Fin a2, Fin b2) /\
    get_velocity (with_scene e (cs1 ++ cs2)) x y = Some (Fin (a1 + a2), Fin (b1 + b2)).
Proof.
  intros Hok Hlen1 Hlen2 Hoff.
  assert (Hoff1 : forall c, In c cs1 -> center_of c <> (x, y))
    by (intros c Hc; apply Hoff, in_or_app; left; exact Hc).
  assert (Hoff2 : forall c, In c cs2 -> center_of c <> (x, y))
    by (intros c Hc; apply Hoff, in_or_app; right; exact Hc).
  assert (Hlen : (2 <= length (cs1 ++ cs2))%nat) by (rewrite length_app; lia).
  do 4 eexists.
  split; [apply (scene_field e cs1 x y Hok Hlen1 Hoff1) |].
  split; [apply (scene_field e cs2 x y Hok Hlen2 Hoff2) |].
  rewrite (scene_field e (cs1 ++ cs2) x y Hok Hlen Hoff).
  rewrite map_app, vsum_app. reflexivity.
Qed.

Lemma superposition_off_centers :
  forall c, In c ([demo_c1; demo_c2] ++ [demo_c3; overlap_c2]) ->
            center_of c <> (5, 5).
Proof.
  intros c Hc. simpl in Hc.
  destruct Hc as [<- | [<- | [<- | [<- | []]]]]; unfold center_of; simpl;
    intros H; injection H as H1 H2; lra.
Qed.

Lemma get_velocity_superposition_witness :
  (@KDTree_ok BruteKDTree /\
   (2 <= length [demo_c1; demo_c2])%nat /\
   (2 <= length [demo_c3; overlap_c2])%nat /\
   (forall c, In c ([demo_c1; demo_c2] ++ [demo_c3; overlap_c2]) ->
              center_of c <> (5, 5))) /\
  exists a1 b1 a2 b2 : R,
    get_velocity (with_scene (tape_env []) [demo_c1; demo_c2]) 5 5
      = Some (Fin a1, Fin b1) /\
    get_velocity (with_scene (tape_env []) [demo_c3; overlap_c2]) 5 5
      = Some (Fin a2, Fin b2) /\
    get_velocity (with_scene (tape_env [])
                    ([demo_c1; demo_c2] ++ [demo_c3; overlap_c2])) 5 5
      = Some (Fin (a1 + a2), Fin (b1 + b2)).
Proof.
  assert (H1 : (2 <= length [demo_c1; demo_c2])%nat) by (simpl; lia).
  assert (H2 : (2 <= length [demo_c3; overlap_c2])%nat) by (simpl; lia).
  split; [split; [apply brute_index_ok
                 | split; [exact H1 | split; [exact H2 | exact superposition_off_centers]]] |].
  exact (get_velocity_superposition (tape_env []) [demo_c1; demo_c2]
           [demo_c3; overlap_c2] 5 5
           brute_index_ok H1 H2 superposition_off_centers).
Defined.

(** X17.  The field does not depend on the order in which the cores
    are stored: at a point that is the center of no core,
    [get_velocity] returns the same velocity for every rearrangement of
    the list of cores (with the index rebuilt over it). *)
Theorem get_velocity_permutation {S : Type} `{KD : KDTree}
    (e : Env S) (cs cs' : list Core) (x y : R) :
  KDTree_ok -> Permutation cs cs' ->
  (forall c, In c cs -> center_of c <> (x, y)) ->
  get_velocity (with_scene e cs) x y = get_velocity (with_scene e cs') x y.
Proof.
  intros Hok Hperm Hoff.
  assert (Hoff' : forall c, In c cs' -> center_of c <> (x, y)).
  { intros c Hc. apply Hoff. apply (Permutation_in _ (Permutation_sym Hperm)). exact Hc. }
  destruct cs as [| c0 [| c1 cs]].
  - apply Permutation_nil in Hperm. subst cs'. reflexivity.
  - apply Permutation_length_1_inv in Hperm. subst cs'. reflexivity.
  - assert (Htwo : (2 <= length (c0 :: c1 :: cs))%nat) by (cbn [length]; lia).
    assert (Htwo' : (2 <= length cs')%nat)
      by (rewrite <- (Permutation_length Hperm); exact Htwo).
    rewrite (scene_field e _ x y Hok Htwo Hoff),
            (scene_field e cs' x y Hok Htwo' Hoff').
    rewrite (vsum_permutation _ _ (Permutation_map (contribution e x y) Hperm)).
    reflexivity.
Qed.

Lemma get_velocity_permutation_witness :
  (@KDTree_ok BruteKDTree /\
   Permutation [demo_c1; demo_c2; demo_c3] [demo_c3; demo_c1; demo_c2] /\
   (forall c, In c [demo_c1; demo_c2; demo_c3] -> center_of c <> (5, 5))) /\
  get_velocity (with_scene (tape_env []) [demo_c1; demo_c2; demo_c3]) 5 5 =
  get_velocity (with_scene (tape_env []) [demo_c3; demo_c1; demo_c2]) 5 5.
Proof.
  assert (Hperm : Permutation [demo_c1; demo_c2; demo_c3] [demo_c3; demo_c1; demo_c2]).
  { apply Permutation_sym. apply (Permutation_cons_append [demo_c1; demo_c2] demo_c3). }
  split; [split; [apply brute_index_ok | split; [exact Hperm | exact demo_off_centers]] |].
  exact (get_velocity_permutation (tape_env []) _ _ 5 5
           brute_index_ok Hperm demo_off_centers).
Defined.

(** X18.  Two cores on the same point with the same strength and
    opposite rotation senses cancel: away from
    their common center [get_velocity] over the two of them returns the
    zero velocity. *)
Theorem coincident_opposite_cores_cancel {S : Type} `{KD : KDTree}
    (e : Env S) (c1 c2 : Core) (x y : R) :
  KDTree_ok ->
  center_of c1 = center_of c2 -> Gamma c1 = Gamma c2 ->
  clockwise c1 <> clockwise c2 ->
  center_of c1 <> (x, y) ->
  get_velocity (with_scene e [c1; c2]) x y = Some (Fin 0, Fin 0).
Proof.
  intros Hok Hcen HG Hdir Hne.
  assert (Hoff : forall c, In c [c1; c2] -> center_of c <> (x, y)).
  { intros c [<- | [<- | []]]; [exact Hne | rewrite <- Hcen; exact Hne]. }
  rewrite (scene_field e [c1; c2] x y Hok ltac:(cbn [length]; lia) Hoff).
  injection Hcen as Hx Hy.
  unfold vsum, contribution, vadd, mat_vec. cbn [map fold_right fst snd].
  rewrite <- Hx, <- Hy, <- HG.
  destruct (clockwise c1), (clockwise c2); try (now elim Hdir);
    unfold rotation_of; cbn [fst snd]; do 3 f_equal; ring.
Qed.

Lemma coincident_opposite_cores_cancel_witness :
  (@KDTree_ok BruteKDTree /\
   center_of demo_c1 = center_of overlap_c2 /\ Gamma demo_c1 = Gamma overlap_c2 /\
   clockwise demo_c1 <> clockwise overlap_c2 /\ center_of demo_c1 <> (5, 5)) /\
  get_velocity (with_scene (tape_env []) [demo_c1; overlap_c2]) 5 5
    = Some (Fin 0, Fin 0).
Proof.
  assert (Hne : center_of demo_c1 <> (5, 5)).
  { unfold center_of. simpl. intros H. injection H as H1 H2. lra. }
  split.
  { split; [apply brute_index_ok |]. split; [reflexivity |]. split; [reflexivity |].
    split; [discriminate | exact Hne]. }
  exact (coincident_opposite_cores_cancel (tape_env []) demo_c1 overlap_c2 5 5
           brute_index_ok eq_refl eq_refl ltac:(discriminate) Hne).
Defined.

(** ** [get_observation] and the robot patch of [init_visualize] *)

Lemma rotation_keeps_length (theta a b : R) :
  (cos theta * a + sin theta * b) * (cos theta * a + sin theta * b)
  + (- sin theta * a + cos theta * b) * (- sin theta * a + cos theta * b)
  = a * a + b * b.
Proof.
  pose proof (rotation_orthogonal theta (a * a + b * b)) as H.
  rewrite <- H at 1. ring_simplify. ring [H].
Qed.

Lemma world_vector_to_body_norm (rb : Robot) (v : vec) :
  norm (world_vector_to_body rb v) = norm v.
Proof.
  destruct v as [a b].
  unfold world_vector_to_body, get_robot_transform, transpose, mat_vec, norm.
  cbn [fst snd]. f_equal. apply rotation_keeps_length.
Qed.

Lemma world_point_to_body_norm (rb : Robot) (pt : vec) :
  norm (world_point_to_body rb pt)
  = distance (fst pt) (snd pt) (robot_x rb) (robot_y rb).
Proof.
  destruct pt as [a b].
  unfold world_point_to_body, get_robot_transform, transpose, mat_neg, mat_vec,
    vadd, norm, distance.
  cbn [fst snd]. cbv zeta. f_equal.
  rewrite <- (rotation_keeps_length (robot_theta rb) (a - robot_x rb) (b - robot_y rb)).
  ring.
Qed.

(** X19.  The velocity [get_observation] reports in the robot frame has
    the length of the robot's velocity in the world frame (the robot's
    transform being the rotation by its heading). *)
Theorem observation_keeps_speed {S : Type} (e : Env S) (reflections : list (vec * R)) :
  norm (fst (fst (get_observation e reflections)))
  = norm (robot_velocity (robot e)).
Proof. apply world_vector_to_body_norm. Qed.

(** X20.  The goal [get_observation] reports in the robot frame lies as
    far from the origin as the goal lies from the robot in the world
    frame, and a goal at the robot's position is reported at the
    origin. *)
Theorem observation_keeps_goal_distance {S : Type} (e : Env S)
    (reflections : list (vec * R)) :
  norm (snd (get_observation e reflections))
    = distance (fst (goal e)) (snd (goal e)) (robot_x (robot e)) (robot_y (robot e)) /\
  (goal e = (robot_x (robot e), robot_y (robot e)) ->
   snd (get_observation e reflections) = (0, 0)).
Proof.
  split.
  - apply world_point_to_body_norm.
  - intros Hg. rewrite get_observation_goal, Hg.
    unfold world_point_to_body, get_robot_transform, transpose, mat_neg, mat_vec, vadd.
    cbn [fst snd]. f_equal; ring.
Qed.

Lemma observation_keeps_goal_distance_witness :
  goal (with_robot (tape_env []) (mkRobot 45 45 1 (0, 0))) = (45, 45) /\
  snd (get_observation (with_robot (tape_env []) (mkRobot 45 45 1 (0, 0))) []) = (0, 0).
Proof.
  split; [reflexivity |].
  exact (proj2 (observation_keeps_goal_distance
                  (with_robot (tape_env []) (mkRobot 45 45 1 (0, 0))) []) eq_refl).
Defined.

(** X21.  [get_observation] reports one sonar point for every
    reflection, in the same order, each with its flag unchanged and as
    far from the origin as the reflection is from the robot. *)
Theorem observation_keeps_sonar {S : Type} (e : Env S) (reflections : list (vec * R)) :
  Forall2
    (fun point point_r =>
       snd point_r = snd point /\
       norm (fst point_r)
         = distance (fst (fst point)) (snd (fst point))
                    (robot_x (robot e)) (robot_y (robot e)))
    reflections (snd (fst (get_observation e reflections))).
Proof.
  rewrite get_observation_sonar.
  induction reflections as [| point rest IH]; simpl; constructor.
  - split; [reflexivity | apply world_point_to_body_norm].
  - exact IH.
Qed.

(** X22.  The rectangle [init_visualize] draws for the robot is centred
    on the robot: from the anchor [xy], half the length and half the
    width along the axes turned by the patch angle lead to the robot's
    position, and the patch angle is the heading in degrees. *)
Theorem robot_patch_centred (rb : Robot) (length width : R) :
  let xy := fst (robot_patch rb length width) in
  let angle := snd (robot_patch rb length width) * PI / 180 in
  angle = robot_theta rb /\
  vadd xy (mat_vec ((cos angle, - sin angle), (sin angle, cos angle))
                   (length / 2, width / 2))
  = (robot_x rb, robot_y rb).
Proof.
  intros xy angle. pose proof PI_RGT_0 as Hpi.
  assert (Ha : angle = robot_theta rb).
  { unfold angle, robot_patch. cbn [snd]. field. lra. }
  split; [exact Ha |].
  rewrite Ha. unfold xy, robot_patch, vadd, mat_vec. cbn [fst snd].
  f_equal; field.
Qed.

(** ** [visualize_control]: the frames of the animation *)

Section ControlFramesFacts.

Context {A Q T : Type}.
Variables (draw_dist : bool) (N : Z) (quantiles : list Q) (taus : list T).

Lemma frames_of_repeat (i : nat) (a : A) (fs : list (frame A Q T)) :
  frames_of draw_dist N quantiles taus i a = Some fs ->
  fs = repeat (mkFrame a (if draw_dist then nth_error quantiles i else None)
                         (if draw_dist then nth_error taus i else None))
              (Z.to_nat N).
Proof.
  unfold frames_of.
  destruct (Z.to_nat N) as [| n] eqn:HN.
  - intros H. injection H as <-. reflexivity.
  - destruct draw_dist.
    + destruct (nth_error quantiles i) as [q |]; [| discriminate].
      destruct (nth_error taus i) as [t |]; [| discriminate].
      intros H. injection H as <-. reflexivity.
    + intros H. injection H as <-. reflexivity.
Qed.

Lemma frames_of_raises (i : nat) (a : A) :
  frames_of draw_dist N quantiles taus i a = None <->
  draw_dist = true /\ (0 < N)%Z /\
  (length quantiles <= i \/ length taus <= i)%nat.
Proof.
  unfold frames_of.
  destruct (Z.to_nat N) as [| n] eqn:HN.
  - split; [discriminate | intros (_ & HN' & _); lia].
  - assert (0 < N)%Z by lia.
    destruct draw_dist.
    + destruct (nth_error quantiles i) as [q |] eqn:Hq.
      * destruct (nth_error taus i) as [t |] eqn:Ht.
        -- split; [discriminate |].
           intros (_ & _ & [Hl | Hl]).
           ++ apply nth_error_None in Hl. congruence.
           ++ apply nth_error_None in Hl. congruence.
        -- split; [| reflexivity]. intros _.
           apply nth_error_None in Ht. auto.
      * split; [| reflexivity]. intros _.
        apply nth_error_None in Hq. auto.
    + split; [discriminate | intros (Hd & _); discriminate].
Qed.

Lemma control_frames_from_schedule (action_sequence : list A) :
  (0 < N)%Z ->
  forall (i : nat) (fs : list (frame A Q T)),
  control_frames_from draw_dist N quantiles taus i action_sequence = Some fs ->
  length fs = (Z.to_nat N * length action_sequence)%nat /\
  forall (k : nat) (a : A),
    nth_error action_sequence (k / Z.to_nat N) = Some a ->
    nth_error fs k
    = Some (mkFrame a
              (if draw_dist then nth_error quantiles (i + k / Z.to_nat N) else None)
              (if draw_dist then nth_error taus (i + k / Z.to_nat N) else None)).
Proof.
  intros HN.
  assert (Hn : Z.to_nat N <> 0%nat) by lia.
  induction action_sequence as [| a rest IH]; intros i fs Hfs.
  - cbn [control_frames_from] in Hfs. injection Hfs as <-.
    split; [cbn [length]; lia |].
    intros k a Hk. destruct (k / Z.to_nat N)%nat; discriminate.
  - cbn [control_frames_from] in Hfs.
    destruct (frames_of draw_dist N quantiles taus i a) as [f1 |] eqn:Hf1;
      [| discriminate].
    destruct (control_frames_from draw_dist N quantiles taus (Datatypes.S i) rest)
      as [more |] eqn:Hmore; [| discriminate].
    injection Hfs as <-.
    apply frames_of_repeat in Hf1.
    destruct (IH _ _ Hmore) as [Hlen Hnth].
    assert (Hl1 : length f1 = Z.to_nat N) by (rewrite Hf1; apply repeat_length).
    split.
    + rewrite length_app, Hl1, Hlen. cbn [length]. lia.
    + intros k a0 Hk.
      destruct (Nat.lt_ge_cases k (Z.to_nat N)) as [Hlt | Hge].
      * rewrite (Nat.div_small k (Z.to_nat N) Hlt) in *.
        cbn [nth_error] in Hk. injection Hk as <-.
        rewrite nth_error_app1 by lia.
        rewrite Hf1, Nat.add_0_r.
        apply nth_error_repeat. exact Hlt.
      * assert (Hdiv : (k / Z.to_nat N = Datatypes.S ((k - Z.to_nat N) / Z.to_nat N))%nat).
        { replace k with ((k - Z.to_nat N) + 1 * Z.to_nat N)%nat at 1 by lia.
          rewrite Nat.div_add by exact Hn. lia. }
        rewrite Hdiv in *. cbn [nth_error] in Hk.
        rewrite nth_error_app2 by lia.
        rewrite Hl1, (Hnth _ _ Hk).
        rewrite Nat.add_succ_comm. reflexivity.
Qed.

Lemma control_frames_from_raises (action_sequence : list A) (i : nat) :
  control_frames_from draw_dist N quantiles taus i action_sequence = None <->
  draw_dist = true /\ (0 < N)%Z /\ (0 < length action_sequence)%nat /\
  (length quantiles < i + length action_sequence \/
   length taus < i + length action_sequence)%nat.
Proof.
  revert i. induction action_sequence as [| a rest IH]; intros i.
  - cbn [control_frames_from length]. split; [discriminate |].
    intros (Hd & HN & Hpos & Hl).
    exfalso. lia.
  - cbn [control_frames_from length].
    destruct (frames_of draw_dist N quantiles taus i a) as [f1 |] eqn:Hf1.
    + assert (Hok : ~ (draw_dist = true /\ (0 < N)%Z /\
                       (length quantiles <= i \/ length taus <= i)%nat)).
      { intros H. apply (proj2 (frames_of_raises i a)) in H. congruence. }
      destruct (control_frames_from draw_dist N quantiles taus (Datatypes.S i) rest)
        as [more |] eqn:Hmore.
      * split; [discriminate |].
        intros (Hd & HN & Hpos & Hl).
        assert (Hrest : ~ (draw_dist = true /\ (0 < N)%Z /\
                 (0 < length rest)%nat /\
                 (length quantiles < Datatypes.S i + length rest \/
                  length taus < Datatypes.S i + length rest)%nat)).
        { intros H. apply (proj2 (IH _)) in H. congruence. }
        exfalso.
        destruct (Nat.le_gt_cases (length quantiles) i) as [Hq | Hq];
          [apply Hok; auto |].
        destruct (Nat.le_gt_cases (length taus) i) as [Ht | Ht];
          [apply Hok; auto |].
        apply Hrest. repeat split; try assumption; lia.
      * split; [| reflexivity]. intros _.
        apply (proj1 (IH _)) in Hmore. destruct Hmore as (Hd & HN & Hpos & Hl).
        repeat split; try assumption; lia.
    + split; [| reflexivity]. intros _.
      apply (proj1 (frames_of_raises _ _)) in Hf1. destruct Hf1 as (Hd & HN & Hl).
      repeat split; try assumption; lia.
Qed.

End ControlFramesFacts.

(** X23.  When [visualize_control] builds its frames with a positive
    [N], every action of the sequence is held for [N] consecutive
    frames: there are [N] times as many frames as actions, and frame
    [k] carries the action at position [k / N] together with, when
    distributions are drawn, the quantiles and taus stored at that
    position. *)
Theorem control_frames_schedule {A Q T : Type} (draw_dist : bool) (N : Z)
    (quantiles : list Q) (taus : list T) (action_sequence : list A)
    (fs : list (frame A Q T)) :
  (0 < N)%Z ->
  control_frames draw_dist N quantiles taus action_sequence = Some fs ->
  length fs = (Z.to_nat N * length action_sequence)%nat /\
  forall (k : nat) (a : A),
    nth_error action_sequence (k / Z.to_nat N) = Some a ->
    nth_error fs k
    = Some (mkFrame a
              (if draw_dist then nth_error quantiles (k / Z.to_nat N) else None)
              (if draw_dist then nth_error taus (k / Z.to_nat N) else None)).
Proof.
  intros HN Hfs.
  exact (control_frames_from_schedule draw_dist N quantiles taus
           action_sequence HN 0%nat fs Hfs).
Qed.

Lemma control_frames_schedule_witness :
  (0 < 2)%Z /\
  control_frames true 2 [7%nat; 8%nat] [true; false] [10%nat; 20%nat]
    = Some [mkFrame 10%nat (Some 7%nat) (Some true);
            mkFrame 10%nat (Some 7%nat) (Some true);
            mkFrame 20%nat (Some 8%nat) (Some false);
            mkFrame 20%nat (Some 8%nat) (Some false)] /\
  nth_error [mkFrame 10%nat (Some 7%nat) (Some true);
             mkFrame 10%nat (Some 7%nat) (Some true);
             mkFrame 20%nat (Some 8%nat) (Some false);
             mkFrame 20%nat (Some 8%nat) (Some false)] 3
    = Some (mkFrame 20%nat (Some 8%nat) (Some false)).
Proof.
  split; [lia |]. split; [reflexivity |].
  exact (proj2 (control_frames_schedule true 2 [7%nat; 8%nat] [true; false]
                  [10%nat; 20%nat] _ ltac:(lia) eq_refl) 3%nat 20%nat eq_refl).
Defined.

(** X24.  [visualize_control] raises exactly when distributions are
    drawn, [N] is positive and the stored quantiles or taus are fewer
    than the actions; with [N <= 0] or without distributions it builds
    its frames whatever the stored lists hold. *)
Theorem control_frames_raises_iff {A Q T : Type} (draw_dist : bool) (N : Z)
    (quantiles : list Q) (taus : list T) (action_sequence : list A) :
  control_frames draw_dist N quantiles taus action_sequence = None <->
  draw_dist = true /\ (0 < N)%Z /\
  (length quantiles < length action_sequence \/
   length taus < length action_sequence)%nat.
Proof.
  unfold control_frames.
  rewrite control_frames_from_raises. cbn [Nat.add].
  split.
  - intros (Hd & HN & _ & Hl). auto.
  - intros (Hd & HN & Hl). repeat split; try assumption. lia.
Qed.

(** X25.  With distributions drawn, every frame [visualize_control]
    hands to [one_step] has both the quantiles and the taus that
    [one_step] reads from it. *)
Theorem control_frames_carry_distributions {A Q T : Type} (N : Z)
    (quantiles : list Q) (taus : list T) (action_sequence : list A)
    (fs : list (frame A Q T)) :
  control_frames true N quantiles taus action_sequence = Some fs ->
  Forall (fun f => frame_quantiles f <> None /\ frame_taus f <> None) fs.
Proof.
  unfold control_frames. generalize 0%nat. revert fs.
  induction action_sequence as [| a rest IH]; intros fs i Hfs.
  - cbn [control_frames_from] in Hfs. injection Hfs as <-. constructor.
  - cbn [control_frames_from] in Hfs.
    destruct (frames_of true N quantiles taus i a) as [f1 |] eqn:Hf1;
      [| discriminate].
    destruct (control_frames_from true N quantiles taus (Datatypes.S i) rest)
      as [more |] eqn:Hmore; [| discriminate].
    injection Hfs as <-.
    apply Forall_app. split; [| exact (IH _ _ Hmore)].
    unfold frames_of in Hf1.
    destruct (Z.to_nat N) as [| n].
    + injection Hf1 as <-. constructor.
    + destruct (nth_error quantiles i) as [q |]; [| discriminate].
      destruct (nth_error taus i) as [t |]; [| discriminate].
      injection Hf1 as <-.
      apply Forall_forall. intros f Hf.
      destruct Hf as [<- | Hf]; [| apply repeat_spec in Hf; subst f];
        cbn; split; discriminate.
Qed.

Lemma control_frames_carry_distributions_witness :
  Forall (fun f : frame nat nat bool =>
            frame_quantiles f <> None /\ frame_taus f <> None)
    [mkFrame 10%nat (Some 7%nat) (Some true);
     mkFrame 10%nat (Some 7%nat) (Some true)].
Proof.
  exact (control_frames_carry_distributions 2 [7%nat] [true] [10%nat] _ eq_refl).
Defined.

(** ** [load_episode]: the vortex cores and their index *)

Lemma stacked_cons (centers : option (list vec)) (c : Core) (news : list Core) :
  stacked (Some (match centers with None => [] | Some pts => pts end
                 ++ [center_of c])) news
  = stacked centers (c :: news).
Proof.
  destruct news as [| c' news]; cbn [stacked map].
  - reflexivity.
  - rewrite <- app_assoc. reflexivity.
Qed.

Lemma load_cores_loop_step (positions : list (list R)) (senses : list bool)
    (Gammas : list R) (i : nat) (rest : list nat) (c : Core)
    (cs : list Core) (centers : option (list vec)) :
  stored_core positions senses Gammas i c ->
  load_cores_loop (i :: rest) positions senses Gammas cs centers
  = load_cores_loop rest positions senses Gammas (cs ++ [c])
      (Some (match centers with None => [] | Some pts => pts end
             ++ [center_of c])).
Proof.
  intros (center & Hp & Hx & Hy & Hs & HG).
  cbn [load_cores_loop]. rewrite Hp, Hs, HG, Hx, Hy.
  destruct c as [cx cy cw G]. cbn [core_x core_y clockwise Gamma center_of].
  destruct centers; reflexivity.
Qed.

Lemma load_cores_loop_complete (positions : list (list R)) (senses : list bool)
    (Gammas : list R) (idx : list nat) (news : list Core) :
  Forall2 (stored_core positions senses Gammas) idx news ->
  forall (cs : list Core) (centers : option (list vec)),
  load_cores_loop idx positions senses Gammas cs centers
  = Some (cs ++ news, stacked centers news).
Proof.
  induction 1 as [| i c rest news Hc Hrest IH]; intros cs centers.
  - cbn [load_cores_loop stacked]. rewrite app_nil_r. reflexivity.
  - rewrite (load_cores_loop_step _ _ _ _ _ _ _ _ Hc), IH, stacked_cons.
    rewrite <- app_assoc. reflexivity.
Qed.

Lemma load_cores_loop_shape (positions : list (list R)) (senses : list bool)
    (Gammas : list R) (idx : list nat) :
  forall (cs : list Core) (centers : option (list vec))
         (cs' : list Core) (centers' : option (list vec)),
  load_cores_loop idx positions senses Gammas cs centers = Some (cs', centers') ->
  exists news,
    cs' = cs ++ news /\ centers' = stacked centers news /\
    Forall2 (stored_core positions senses Gammas) idx news.
Proof.
  induction idx as [| i rest IH]; intros cs centers cs' centers' H.
  - cbn [load_cores_loop] in H. injection H as <- <-.
    exists []. rewrite app_nil_r. repeat split. constructor.
  - cbn [load_cores_loop] in H.
    destruct (nth_error positions i) as [center |] eqn:Hp; [| discriminate].
    destruct (nth_error senses i) as [cw |] eqn:Hs; [| discriminate].
    destruct (nth_error Gammas i) as [G |] eqn:HG; [| discriminate].
    destruct (nth_error center 0) as [cx |] eqn:Hx; [| discriminate].
    destruct (nth_error center 1) as [cy |] eqn:Hy; [| discriminate].
    cbv zeta in H. cbn [core_x core_y] in H.
    assert (Hc : stored_core positions senses Gammas i (mkCore cx cy cw G)).
    { exists center. cbn [core_x core_y clockwise Gamma]. auto. }
    assert (H' : load_cores_loop rest positions senses Gammas
                   (cs ++ [mkCore cx cy cw G])
                   (Some (match centers with None => [] | Some pts => pts end
                          ++ [center_of (mkCore cx cy cw G)]))
                 = Some (cs', centers')).
    { rewrite <- H. destruct centers; reflexivity. }
    destruct (IH _ _ _ _ H') as (news & Hcs & Hcen & Hall).
    exists (mkCore cx cy cw G :: news). repeat split.
    + rewrite Hcs, <- app_assoc. reflexivity.
    + rewrite Hcen. apply stacked_cons.
    + constructor; assumption.
Qed.

Lemma Forall2_seq_nth {B : Type} (P : nat -> B -> Prop) (l : list B) :
  forall k : nat,
  (forall i x, nth_error l i = Some x -> P (k + i)%nat x) ->
  Forall2 P (seq k (length l)) l.
Proof.
  induction l as [| x l IH]; intros k H; cbn [length seq]; constructor.
  - rewrite <- (Nat.add_0_r k). apply H. reflexivity.
  - apply IH. intros i y Hy.
    rewrite Nat.add_succ_comm. apply H. exact Hy.
Qed.

Lemma Forall2_seq_nth_inv {B : Type} (P : nat -> B -> Prop) (l : list B) :
  forall (k n : nat),
  Forall2 P (seq k n) l ->
  length l = n /\ forall i x, nth_error l i = Some x -> P (k + i)%nat x.
Proof.
  induction l as [| x l IH]; intros k n H.
  - destruct n; [| inversion H]. split; [reflexivity |].
    intros [| i] y Hy; discriminate.
  - destruct n as [| n]; [inversion H |].
    cbn [seq] in H. inversion H as [| ? ? ? ? Hx Hl]; subst.
    destruct (IH _ _ Hl) as [Hlen Hnth].
    split; [cbn [length]; congruence |].
    intros [| i] y Hy.
    + cbn [nth_error] in Hy. injection Hy as <-. rewrite Nat.add_0_r. exact Hx.
    + cbn [nth_error] in Hy. rewrite <- Nat.add_succ_comm. apply Hnth. exact Hy.
Qed.

Lemma stored_core_persisted (cs : list Core) (i : nat) (c : Core) :
  nth_error cs i = Some c ->
  stored_core (core_positions cs) (map clockwise cs) (map Gamma cs) i c.
Proof.
  intros H. exists [core_x c; core_y c].
  unfold core_positions.
  rewrite !nth_error_map, H. repeat split.
Qed.

Lemma stored_core_available (positions : list (list R)) (senses : list bool)
    (Gammas : list R) (i : nat) :
  (exists c, stored_core positions senses Gammas i c) <->
  (exists center, nth_error positions i = Some center /\ (2 <= length center)%nat) /\
  (i < length senses)%nat /\ (i < length Gammas)%nat.
Proof.
  split.
  - intros (c & center & Hp & Hx & Hy & Hs & HG).
    repeat split.
    + exists center. split; [exact Hp |].
      assert (nth_error center 1 <> None) as Hn by congruence.
      apply nth_error_Some in Hn. lia.
    + apply nth_error_Some. congruence.
    + apply nth_error_Some. congruence.
  - intros ((center & Hp & Hlen) & Hs & HG).
    destruct center as [| cx [| cy center]]; cbn [length] in Hlen; try lia.
    destruct (nth_error senses i) as [cw |] eqn:Hcw;
      [| apply nth_error_None in Hcw; lia].
    destruct (nth_error Gammas i) as [G |] eqn:HGi;
      [| apply nth_error_None in HGi; lia].
    exists (mkCore cx cy cw G), (cx :: cy :: center).
    cbn [core_x core_y clockwise Gamma nth_error]. auto.
Qed.

Lemma stored_cores_exist (positions : list (list R)) (senses : list bool)
    (Gammas : list R) (idx : list nat) :
  (forall i, In i idx -> exists c, stored_core positions senses Gammas i c) ->
  exists news, Forall2 (stored_core positions senses Gammas) idx news.
Proof.
  induction idx as [| i rest IH]; intros H.
  - exists []. constructor.
  - destruct (H i (or_introl eq_refl)) as [c Hc].
    destruct IH as [news Hnews]; [intros j Hj; apply H; right; exact Hj |].
    exists (c :: news). constructor; assumption.
Qed.

(** X26.  [load_episode] restores a scenario from the lists it is
    persisted as: given the positions, senses and strengths of a
    non-empty list of cores, it leaves exactly those cores, in order,
    and the index over their centers. *)
Theorem load_episode_round_trip {S : Type} (e : Env S) (cs : list Core) :
  cs <> [] ->
  load_episode_cores e (core_positions cs) (map clockwise cs) (map Gamma cs)
  = Some (with_scene e cs).
Proof.
  intros Hne.
  unfold load_episode_cores, load_cores.
  assert (Hlen : length (core_positions cs) = length cs)
    by (unfold core_positions; apply length_map).
  rewrite Hlen.
  rewrite (load_cores_loop_complete _ _ _ _ cs
             (Forall2_seq_nth _ cs 0%nat
                (fun i c H => stored_core_persisted cs i c H))).
  destruct cs as [| c cs]; [congruence |].
  reflexivity.
Qed.

Lemma load_episode_round_trip_witness :
  [demo_c1; demo_c3] <> [] /\
  load_episode_cores (tape_env []) (core_positions [demo_c1; demo_c3])
    (map clockwise [demo_c1; demo_c3]) (map Gamma [demo_c1; demo_c3])
  = Some (with_scene (tape_env []) [demo_c1; demo_c3]).
Proof.
  split; [discriminate |].
  apply (load_episode_round_trip (tape_env []) [demo_c1; demo_c3]).
  discriminate.
Defined.

(** X27.  When [load_episode] gets through the cores, the environment
    holds one core per stored position, each built from the entries at
    its index.  The index is rebuilt over the centers of these cores,
    except when no core is stored: then the index of the environment
    before the call is kept although the list of cores is empty. *)
Theorem load_episode_cores_index {S : Type} (e e' : Env S)
    (positions : list (list R)) (senses : list bool) (Gammas : list R) :
  load_episode_cores e positions senses Gammas = Some e' ->
  length (cores e') = length positions /\
  (forall i c, nth_error (cores e') i = Some c ->
               stored_core positions senses Gammas i c) /\
  core_centers e'
  = match positions with
    | [] => core_centers e
    | _ :: _ => map center_of (cores e')
    end.
Proof.
  unfold load_episode_cores, load_cores.
  destruct (load_cores_loop (seq 0 (length positions)) positions senses Gammas [] None)
    as [[cs centers] |] eqn:Hload; [| discriminate].
  destruct (load_cores_loop_shape _ _ _ _ _ _ _ _ Hload) as (news & Hcs & Hcen & Hall).
  cbn [app] in Hcs. subst cs.
  destruct (Forall2_seq_nth_inv _ _ _ _ Hall) as [Hlen Hnth].
  cbv zeta. intros He'.
  assert (Hcores : cores e' = news).
  { destruct centers; injection He' as <-; reflexivity. }
  rewrite Hcores. repeat split.
  - exact Hlen.
  - exact Hnth.
  - destruct news as [| c news]; destruct positions as [| pos positions];
      cbn [length] in Hlen; try discriminate; cbn [stacked] in Hcen; subst centers.
    + injection He' as <-. reflexivity.
    + injection He' as <-. reflexivity.
Qed.

Lemma load_episode_cores_index_witness :
  load_episode_cores (with_scene (tape_env []) [demo_c1]) [] [] []
    = Some (with_cores (with_scene (tape_env []) [demo_c1]) []) /\
  cores (with_cores (with_scene (tape_env []) [demo_c1]) []) = [] /\
  core_centers (with_cores (with_scene (tape_env []) [demo_c1]) [])
    = [center_of demo_c1].
Proof.
  split; [reflexivity |]. split; [reflexivity |].
  exact (proj2 (proj2 (load_episode_cores_index
                         (with_scene (tape_env []) [demo_c1]) _ [] [] [] eq_refl))).
Defined.

(** X28.  Loading the cores raises exactly when some stored position
    has fewer than two coordinates or the list of senses or of strengths
    is shorter than the list of positions; surplus entries of those two
    lists are ignored. *)
Theorem load_cores_raises_iff (positions : list (list R)) (senses : list bool)
    (Gammas : list R) :
  load_cores positions senses Gammas = None <->
  Exists (fun center => (length center < 2)%nat) positions \/
  (length senses < length positions)%nat \/
  (length Gammas < length positions)%nat.
Proof.
  unfold load_cores. split.
  - intros Hnone.
    destruct (Exists_dec (fun center : list R => (length center < 2)%nat) positions
                (fun center => lt_dec (length center) 2)) as [Hex | Hall];
      [left; exact Hex |].
    destruct (le_lt_dec (length positions) (length senses)) as [Hs |];
      [| right; left; assumption].
    destruct (le_lt_dec (length positions) (length Gammas)) as [HG |];
      [| right; right; assumption].
    exfalso.
    apply Forall_Exists_neg in Hall.
    destruct (stored_cores_exist positions senses Gammas (seq 0 (length positions)))
      as [news Hnews].
    { intros i Hi. apply in_seq in Hi.
      apply stored_core_available. repeat split; try lia.
      destruct (nth_error positions i) as [center |] eqn:Hp;
        [| apply nth_error_None in Hp; lia].
      exists center. split; [reflexivity |].
      apply nth_error_In in Hp.
      pose proof (proj1 (Forall_forall _ _) Hall center Hp). cbv beta in *. lia. }
    rewrite (load_cores_loop_complete _ _ _ _ _ Hnews) in Hnone. discriminate.
  - intros Hbad.
    destruct (load_cores_loop (seq 0 (length positions)) positions senses Gammas [] None)
      as [[cs centers] |] eqn:Hload; [| reflexivity].
    exfalso.
    destruct (load_cores_loop_shape _ _ _ _ _ _ _ _ Hload) as (news & _ & _ & Hall).
    assert (Havail : forall i, (i < length positions)%nat ->
                       exists c, stored_core positions senses Gammas i c).
    { intros i Hi.
      destruct (Forall2_seq_nth_inv _ _ _ _ Hall) as [Hlen Hnth].
      destruct (nth_error news i) as [c |] eqn:Hc;
        [| apply nth_error_None in Hc; lia].
      exists c. exact (Hnth i c Hc). }
    destruct Hbad as [Hex | [Hs | HG]].
    + apply Exists_exists in Hex. destruct Hex as (center & Hin & Hshort).
      apply In_nth_error in Hin. destruct Hin as [i Hi].
      assert (Hlt : (i < length positions)%nat)
        by (apply nth_error_Some; congruence).
      apply Havail, stored_core_available in Hlt.
      destruct Hlt as ((center' & Hp & Hlen) & _).
      rewrite Hi in Hp. injection Hp as <-. lia.
    + apply Havail, stored_core_available in Hs. lia.
    + apply Havail, stored_core_available in HG. lia.
Qed.
